(** * Warframe companion app: cache, timers, refresh policy and order ranking

    A shallow embedding of the renderer script of the app (the classes
    [WarframeMarketAPI], [WarframeAlertsAPI] and [WarframeMarketApp]) and
    the properties of its TTL cache, countdown timers, refresh policy and
    order ranking.

    Conventions of the embedding:
    - JavaScript numbers that the code uses as integers (timestamps in
      milliseconds, seconds, platinum prices, HTTP status codes) are [Z];
    - a JSON value is a [JsVal]; a property read follows JavaScript
      (a read on [undefined] or [null] throws a [TypeError]);
    - code that can throw returns an [Exc]; code that also reads or writes
      object state is an [Eff] computation, whose state survives a throw,
      as in JavaScript;
    - the response caches ([Map] used through [get]/[set] only) are [gmap]s;
      the timer registries ([Map] iterated with [forEach]) are insertion
      ordered association lists, see [JsMap]. *)

From stdpp Require Import base gmap strings list fin_maps pretty sorting.
From Stdlib Require Import ZArith Lia Sorted Permutation.

Open Scope Z_scope.

(** ** JavaScript values and exceptions *)

#[warnings="-register-all"]
Inductive JsVal : Type :=
  | VUndef
  | VNull
  | VBool (b : bool)
  | VNum (n : Z)
  | VStr (s : string)
  | VArr (xs : list JsVal)
  | VObj (fields : list (string * JsVal)).

Record JsError : Type := mkError { errName : string; errMessage : string }.

Definition Error (msg : string) : JsError := mkError "Error" msg.
Definition TypeError (msg : string) : JsError := mkError "TypeError" msg.

Inductive Exc (A : Type) : Type :=
  | Ret (a : A)
  | Throw (e : JsError).
Arguments Ret {A} a.
Arguments Throw {A} e.

Definition exc_bind {A B} (m : Exc A) (k : A → Exc B) : Exc B :=
  match m with
  | Ret a => k a
  | Throw e => Throw e
  end.

(** A stateful computation that may throw. The state reached before a throw
    is kept: JavaScript does not roll back. *)
Definition Eff (S A : Type) : Type := S → Exc A * S.

Definition eff_ret {S A} (a : A) : Eff S A := λ s, (Ret a, s).
Definition eff_throw {S A} (e : JsError) : Eff S A := λ s, (Throw e, s).
Definition eff_bind {S A B} (m : Eff S A) (k : A → Eff S B) : Eff S B :=
  λ s, match m s with
       | (Ret a, s') => k a s'
       | (Throw e, s') => (Throw e, s')
       end.
Definition eff_lift {S A} (m : Exc A) : Eff S A := λ s, (m, s).
Definition eff_gets {S A} (f : S → A) : Eff S A := λ s, (Ret (f s), s).
Definition eff_modify {S} (f : S → S) : Eff S unit := λ s, (Ret tt, f s).

(** [try { body } catch (error) { handler }] *)
Definition tryCatch {S A} (body : Eff S A) (handler : JsError → Eff S A) : Eff S A :=
  λ s, match body s with
       | (Ret a, s') => (Ret a, s')
       | (Throw e, s') => handler e s'
       end.

Declare Scope eff_scope.
Delimit Scope eff_scope with eff.
Notation "'let*' x ':=' m 'in' k" := (eff_bind m (λ x, k))
  (at level 10, x name, m at level 100, k at level 200) : eff_scope.
Notation "'let?' x ':=' m 'in' k" := (exc_bind m (λ x, k))
  (at level 10, x name, m at level 100, k at level 200) : eff_scope.
Notation "m ';;;' k" := (eff_bind m (λ _, k))
  (at level 100, k at level 200, right associativity) : eff_scope.

(** Own property of an object built by [JSON.parse]: the last occurrence of
    a duplicated key wins. *)
Fixpoint lookupField (k : string) (fields : list (string * JsVal)) : option JsVal :=
  match fields with
  | [] => None
  | (k', v) :: rest =>
      match lookupField k rest with
      | Some v' => Some v'
      | None => if String.eqb k k' then Some v else None
      end
  end.

(** [v.k] for a property name [k] that no built-in prototype defines (the
    code reads [payload], [items], [item_name] and [url_name]). *)
Definition getProp (v : JsVal) (k : string) : Exc JsVal :=
  match v with
  | VUndef | VNull =>
      Throw (TypeError ("Cannot read properties of undefined or null (reading '" +:+ k +:+ "')"))
  | VObj fields => Ret (default VUndef (lookupField k fields))
  | _ => Ret VUndef
  end.

(** ** Strings *)

Definition lowerAscii (c : Ascii.ascii) : Ascii.ascii :=
  let n := Ascii.nat_of_ascii c in
  if ((65 <=? n) && (n <=? 90))%nat then Ascii.ascii_of_nat (n + 32) else c.

(** [String.prototype.toLowerCase] on ASCII letters; other bytes are kept.
    It is exact on the strings it is applied to in [WarframeMarketApp]
    (the five cycle names). *)
Fixpoint toLowerCaseAscii (s : string) : string :=
  match s with
  | EmptyString => EmptyString
  | String c s' => String (lowerAscii c) (toLowerCaseAscii s')
  end.

Definition upperAscii (c : Ascii.ascii) : Ascii.ascii :=
  let n := Ascii.nat_of_ascii c in
  if ((97 <=? n) && (n <=? 122))%nat then Ascii.ascii_of_nat (n - 32) else c.

(** [String.prototype.toUpperCase] on ASCII letters; other bytes are kept. *)
Fixpoint toUpperCaseAscii (s : string) : string :=
  match s with
  | EmptyString => EmptyString
  | String c s' => String (upperAscii c) (toUpperCaseAscii s')
  end.

Fixpoint startsWith (needle hay : string) : bool :=
  match needle, hay with
  | EmptyString, _ => true
  | String a n', String b h' => if Ascii.eqb a b then startsWith n' h' else false
  | String _ _, EmptyString => false
  end.

(** [hay.includes(needle)] *)
Fixpoint includes (hay needle : string) : bool :=
  startsWith needle hay ||
  match hay with
  | EmptyString => false
  | String _ h' => includes h' needle
  end.

(** [Array.prototype.filter] with a callback that can throw: the first
    throw aborts the traversal. *)
Fixpoint filterExc {A} (p : A → Exc bool) (l : list A) : Exc (list A) :=
  match l with
  | [] => Ret []
  | x :: l' =>
      match p x with
      | Throw e => Throw e
      | Ret b =>
          match filterExc p l' with
          | Throw e => Throw e
          | Ret r => Ret (if b then x :: r else r)
          end
      end
  end.

(** [v.filter(p)]: only an array has the method. *)
Definition arrayFilter (p : JsVal → Exc bool) (v : JsVal) : Exc (list JsVal) :=
  match v with
  | VArr xs => filterExc p xs
  | VUndef | VNull =>
      Throw (TypeError "Cannot read properties of undefined or null (reading 'filter')")
  | _ => Throw (TypeError "filter is not a function")
  end.

(** ** The HTTP layer *)

(** What [fetch(url)] resolves to: [response.json()] may itself throw. *)
Record Response : Type := mkResponse {
  status : Z;
  statusText : string;
  json : Exc JsVal
}.

(** [response.ok]: the status is in the range 200-299. *)
Definition ok (r : Response) : bool := (200 <=? status r) && (status r <=? 299).

Inductive NetResult : Type :=
  | Resolved (r : Response)
  | Rejected (e : JsError).

Record CacheEntry : Type := mkEntry { data : JsVal; timestamp : Z }.

(** The state of an API object: its [cache], and the list of the URLs it
    requested from the network, oldest first. *)
Record World : Type := mkWorld {
  cache : gmap string CacheEntry;
  fetched : list string
}.

Definition cacheSet (url : string) (e : CacheEntry) (w : World) : World :=
  mkWorld (<[url := e]> (cache w)) (fetched w).

(** [await fetch(url, ...)]: the request is issued, then resolves or rejects. *)
Definition doFetch (net : string → NetResult) (url : string) : Eff World Response :=
  λ w, let w' := mkWorld (cache w) (fetched w ++ [url]) in
       match net url with
       | Resolved r => (Ret r, w')
       | Rejected e => (Throw e, w')
       end.

Definition httpError (r : Response) : JsError :=
  Error ("HTTP " +:+ pretty (status r) +:+ ": " +:+ statusText r).

(** [cached && (now - cached.timestamp) < this.cacheTimeout]: the entry to
    serve without a request, if there is one. *)
Definition cacheHit (cacheTimeout now : Z) (cached : option CacheEntry)
  : option CacheEntry :=
  match cached with
  | Some c => if bool_decide (now - timestamp c < cacheTimeout) then Some c else None
  | None => None
  end.

Local Open Scope eff_scope.

Module WarframeMarketAPI.

Definition baseURL (isElectron : bool) : string :=
  if isElectron then "https://api.warframe.market/v1"
  else "https://corsproxy.io/?https://api.warframe.market/v1".

Definition cacheTimeout : Z := 300000.

Definition fetchWithCache (now : Z) (net : string → NetResult) (url : string)
  : Eff World JsVal :=
  let* cached := eff_gets (λ w, cache w !! url) in
  match cacheHit cacheTimeout now cached with
  | Some c => eff_ret (data c)
  | None =>
      tryCatch
        (let* response := doFetch net url in
         if negb (ok response) then eff_throw (httpError response)
         else
           let* d := eff_lift (json response) in
           eff_modify (cacheSet url (mkEntry d now));;;
           eff_ret d)
        (λ error,
           (* Return cached data if available, even if expired *)
           match cached with
           | Some c => eff_ret (data c)
           | None => eff_throw error
           end)
  end.

Definition getItems (isElectron : bool) (now : Z) (net : string → NetResult)
  : Eff World JsVal :=
  fetchWithCache now net (baseURL isElectron +:+ "/items").

Definition getItemOrders (isElectron : bool) (now : Z) (net : string → NetResult)
  (itemUrlName : string) : Eff World JsVal :=
  fetchWithCache now net (baseURL isElectron +:+ "/items/" +:+ itemUrlName +:+ "/orders").

Section Search.

(** [String.prototype.toLowerCase] follows the Unicode case mapping; the
    search is embedded for an arbitrary such function. *)
Variable toLowerCase : string → string.

(** [v.toLowerCase()]: only a string has the method. *)
Definition lowerOf (v : JsVal) : Exc string :=
  match v with
  | VStr s => Ret (toLowerCase s)
  | VUndef | VNull =>
      Throw (TypeError "Cannot read properties of undefined or null (reading 'toLowerCase')")
  | _ => Throw (TypeError "toLowerCase is not a function")
  end.

(** The callback of [items.filter]; [||] evaluates its right operand only
    when the left one is false. *)
Definition matchesQuery (query : string) (item : JsVal) : Exc bool :=
  let? name := getProp item "item_name" in
  let? lname := lowerOf name in
  if includes lname (toLowerCase query) then Ret true
  else
    let? url := getProp item "url_name" in
    let? lurl := lowerOf url in
    Ret (includes lurl (toLowerCase query)).

Definition searchItems (isElectron : bool) (now : Z) (net : string → NetResult)
  (query : string) : Eff World (list JsVal) :=
  tryCatch
    (let* response := getItems isElectron now net in
     let* payload := eff_lift (getProp response "payload") in
     let* items := eff_lift (getProp payload "items") in
     let* filtered := eff_lift (arrayFilter (matchesQuery query) items) in
     eff_ret (take 10 filtered))
    (λ error, eff_ret []).

End Search.

End WarframeMarketAPI.

Module WarframeAlertsAPI.

Definition baseURL : string := "https://api.warframestat.us/pc".

Definition cacheTimeout : Z := 60000.

Definition fetchWithCache (now : Z) (net : string → NetResult) (url : string)
  : Eff World JsVal :=
  let* cached := eff_gets (λ w, cache w !! url) in
  match cacheHit cacheTimeout now cached with
  | Some c => eff_ret (data c)
  | None =>
      tryCatch
        (let* response := doFetch net url in
         if negb (ok response) then eff_throw (httpError response)
         else
           let* d := eff_lift (json response) in
           eff_modify (cacheSet url (mkEntry d now));;;
           eff_ret d)
        (λ error,
           eff_throw (Error ("Failed to fetch alerts data: " +:+ errMessage error)))
  end.

Definition getWorldState (now : Z) (net : string → NetResult) : Eff World JsVal :=
  fetchWithCache now net baseURL.

End WarframeAlertsAPI.

(** ** [Array.prototype.sort] and [Map] *)

(** [arr.sort(cmp)] is stable (ECMAScript 2019), and for a comparator that is
    a consistent ordering the stable sorted arrangement of an array is
    unique; it is computed here by a stable insertion sort. [cmp a b < 0]
    puts [a] first, [cmp a b > 0] puts [b] first, [0] keeps their order. *)
Fixpoint sortInsert {A} (cmp : A → A → Z) (x : A) (l : list A) : list A :=
  match l with
  | [] => [x]
  | y :: l' => if cmp x y <=? 0 then x :: y :: l' else y :: sortInsert cmp x l'
  end.

Fixpoint jsSort {A} (cmp : A → A → Z) (l : list A) : list A :=
  match l with
  | [] => []
  | x :: l' => sortInsert cmp x (jsSort cmp l')
  end.

(** A [Map] with string keys: [forEach], [values()] and [entries()] follow
    the insertion order, and [set] on a present key keeps its position. *)
Definition JsMap (V : Type) : Type := list (string * V).

Fixpoint mapGet {V} (k : string) (m : JsMap V) : option V :=
  match m with
  | [] => None
  | (k', v) :: m' => if String.eqb k' k then Some v else mapGet k m'
  end.

Fixpoint mapSet {V} (k : string) (v : V) (m : JsMap V) : JsMap V :=
  match m with
  | [] => [(k, v)]
  | (k', v') :: m' =>
      if String.eqb k' k then (k, v) :: m' else (k', v') :: mapSet k v m'
  end.

Definition mapClear {V} (m : JsMap V) : JsMap V := [].

Definition mapValues {V} (m : JsMap V) : list V := m.*2.

(** [a === b] on primitive values. Two arrays or objects are identical only
    when they are the same reference, which no value compared here is. *)
Definition strictEq (a b : JsVal) : bool :=
  match a, b with
  | VUndef, VUndef => true
  | VNull, VNull => true
  | VBool x, VBool y => Bool.eqb x y
  | VNum x, VNum y => x =? y
  | VStr x, VStr y => String.eqb x y
  | _, _ => false
  end.

(** ** Market orders *)

Module Order.

Record User : Type := mkUser { ingame_name : JsVal; status : string }.

Record t : Type := mk {
  user : User;
  order_type : string;
  platinum : Z;
  quantity : JsVal
}.

End Order.

(** The ranking that [WarframeMarketApp.displayOrders] applies to the orders
    of an item, under the filter [this.orderFilter]. *)
Module Ranking.
Import Order.

(** [statusPriority[s] || 0]. [displayOrders] only sorts orders whose
    status is ['ingame'] or ['online']. *)
Definition statusPriority (s : string) : Z :=
  if String.eqb s "ingame" then 3
  else if String.eqb s "online" then 2
  else if String.eqb s "offline" then 1
  else 0.

Definition sortWithPriority (a b : Order.t) (isAscending : bool) : Z :=
  let aPriority := statusPriority (status (user a)) in
  let bPriority := statusPriority (status (user b)) in
  if negb (aPriority =? bPriority) then bPriority - aPriority
  else if isAscending then platinum a - platinum b else platinum b - platinum a.

(** The orders of the users that are in game or online, after the order
    type filter [orderFilter] (['all'], ['buy'] or ['sell']). *)
Definition onlineOrders (orderFilter : string) (orders : list Order.t) : list Order.t :=
  let filteredOrders :=
    List.filter (λ order, String.eqb (status (user order)) "ingame"
                          || String.eqb (status (user order)) "online") orders in
  if String.eqb orderFilter "buy" then
    List.filter (λ order, String.eqb (order_type order) "buy") filteredOrders
  else if String.eqb orderFilter "sell" then
    List.filter (λ order, String.eqb (order_type order) "sell") filteredOrders
  else filteredOrders.

Definition buyOrders (orderFilter : string) (orders : list Order.t) : list Order.t :=
  jsSort (λ a b, sortWithPriority a b false)
    (List.filter (λ order, String.eqb (order_type order) "buy")
       (onlineOrders orderFilter orders)).

Definition sellOrders (orderFilter : string) (orders : list Order.t) : list Order.t :=
  jsSort (λ a b, sortWithPriority a b true)
    (List.filter (λ order, String.eqb (order_type order) "sell")
       (onlineOrders orderFilter orders)).

(** The two sides of the table: [sellOrders.slice(0, 10)] and
    [buyOrders.slice(0, 10)]. *)
Definition rankedSell (orderFilter : string) (orders : list Order.t) : list Order.t :=
  take 10 (sellOrders orderFilter orders).

Definition rankedBuy (orderFilter : string) (orders : list Order.t) : list Order.t :=
  take 10 (buyOrders orderFilter orders).

Definition allOrdersSorted (orderFilter : string) (orders : list Order.t) : list Order.t :=
  rankedSell orderFilter orders ++ rankedBuy orderFilter orders.

(** What [displayOrders] puts in the orders table (the element
    [ordersTableBody] being there): a notice when [orders] is empty, else
    one row per entry of [allOrdersSorted]. *)
Inductive Table : Type :=
  | NoOrders
  | Rows (rows : list Order.t).

Definition displayOrders (orderFilter : string) (orders : list Order.t) : Table :=
  if (length orders =? 0)%nat then NoOrders
  else Rows (allOrdersSorted orderFilter orders).

(** The rows shown, whichever branch was taken. *)
Definition shownRows (tbl : Table) : list Order.t :=
  match tbl with
  | NoOrders => []
  | Rows rows => rows
  end.

(** The order in which the code ranks one side: higher status priority
    first, and among orders of equal priority the better price first. *)
Definition rankedBefore (isAscending : bool) (a b : Order.t) : Prop :=
  statusPriority (status (user b)) < statusPriority (status (user a))
  ∨ (statusPriority (status (user a)) = statusPriority (status (user b))
     ∧ if isAscending then platinum a ≤ platinum b else platinum b ≤ platinum a).

(** The order a price-first ranking would give: the better price first,
    and among orders of equal price the higher status priority first. *)
Definition priceBefore (isAscending : bool) (a b : Order.t) : Prop :=
  (if isAscending then platinum a < platinum b else platinum b < platinum a)
  ∨ (platinum a = platinum b
     ∧ statusPriority (status (user b)) ≤ statusPriority (status (user a))).

(** The orders that the ranking is to keep on the side [side] (['buy'] or
    ['sell']) under the filter [orderFilter]: not offline, of that type,
    and of a type the filter lets through. *)
Definition kept (orderFilter side : string) (order : Order.t) : bool :=
  negb (String.eqb (status (user order)) "offline")
  && String.eqb (order_type order) side
  && (String.eqb orderFilter "all" || String.eqb orderFilter side).

Definition knownStatus (order : Order.t) : Prop :=
  status (user order) = "ingame" ∨ status (user order) = "online"
  ∨ status (user order) = "offline".

Definition order (st ty : string) (p : Z) : Order.t :=
  mk (mkUser VUndef st) ty p VUndef.

(** The two orders [{user:{status:'online'},order_type:'sell',platinum:50}]
    and [{user:{status:'ingame'},order_type:'sell',platinum:60}]. *)
Definition twoSellers : list Order.t :=
  [order "online" "sell" 50; order "ingame" "sell" 60].

End Ranking.

(** ** The world state and the page *)

Definition isSpace (c : Ascii.ascii) : bool :=
  let n := Ascii.nat_of_ascii c in
  ((9 <=? n) && (n <=? 13) || (n =? 32))%nat.

Fixpoint trimStart (s : string) : string :=
  match s with
  | EmptyString => EmptyString
  | String c s' => if isSpace c then trimStart s' else s
  end.

Fixpoint trimEnd (s : string) : string :=
  match s with
  | EmptyString => EmptyString
  | String c s' =>
      let r := trimEnd s' in
      if isSpace c && String.eqb r "" then EmptyString else String c r
  end.

(** [s.trim()] for ASCII white space. *)
Definition trim (s : string) : string := trimEnd (trimStart s).

(** [s.replace(/\s+/g, '-')] for ASCII white space; [inRun] tells that the
    previous character was white space. *)
Fixpoint replaceSpaces (inRun : bool) (s : string) : string :=
  match s with
  | EmptyString => EmptyString
  | String c s' =>
      if isSpace c then
        if inRun then replaceSpaces true s'
        else String (Ascii.ascii_of_nat 45) (replaceSpaces true s')
      else String c (replaceSpaces false s')
  end.

Module Cycle.
(** A cycle of the world state, [worldState.earthCycle] and the like; a
    field that the object lacks is [VUndef]. [expiry] is [None] when the
    field is missing or falsy, and else the instant, in milliseconds, that
    [new Date(expiry).getTime()] gives. *)
Record data : Type := mk {
  isDay : JsVal;
  isWarm : JsVal;
  isCorpus : JsVal;
  state : JsVal;
  expiry : option Z
}.
End Cycle.

Module Alert.
(** An alert of the world state; the timers read its [expiry] only. *)
Record data : Type := mk { expiry : option Z }.
End Alert.

Module Fissure.
(** A void fissure of the world state, after the field aliases are
    resolved: [active] is [fissure.active !== false && fissure.ACTIVE !==
    false], [expired] is [fissure.expired === true || fissure.EXPIRED ===
    true], [expiry] is [fissure.expiry || fissure.EXPIRY || fissure.Expiry]
    parsed as for a cycle, and [tier] is [fissure.tier || fissure.TIER ||
    fissure.Tier || 'Unknown']. *)
Record data : Type := mk {
  active : bool;
  expired : bool;
  expiry : option Z;
  tier : string
}.
End Fissure.

Record WorldState : Type := mkWorldState {
  earthCycle : option Cycle.data;
  cetusCycle : option Cycle.data;
  vallisCycle : option Cycle.data;
  cambionCycle : option Cycle.data;
  zarimanCycle : option Cycle.data;
  alerts : list Alert.data;
  fissures : list Fissure.data
}.

(** What a registry keeps next to the seconds: [{state, isDay}] for a cycle,
    [{expiry}] for an alert or a fissure. *)
Inductive TimerInfo : Type :=
  | CycleInfo (state isDay : JsVal)
  | ExpiryInfo (expiry : Z).

Record Timer : Type := mkTimer { seconds : Z; info : TimerInfo }.

Definition timerState (t : Timer) : JsVal :=
  match info t with
  | CycleInfo st _ => st
  | ExpiryInfo _ => VUndef
  end.

Definition timerIsDay (t : Timer) : JsVal :=
  match info t with
  | CycleInfo _ d => d
  | ExpiryInfo _ => VUndef
  end.

Definition setSeconds (s : Z) (t : Timer) : Timer := mkTimer s (info t).

(** An element of the page that shows a timer: its text, its classes, and
    the classes of the closest enclosing [.alert-card] and [.fissure-item]
    when there is one. *)
Record Element : Type := mkElement {
  textContent : string;
  classList : gset string;
  alertCard : option (gset string);
  fissureItem : option (gset string)
}.

Definition setText (s : string) (el : Element) : Element :=
  mkElement s (classList el) (alertCard el) (fissureItem el).
Definition classAdd (c : string) (el : Element) : Element :=
  mkElement (textContent el) ({[c]} ∪ classList el) (alertCard el) (fissureItem el).
Definition classRemove (c : string) (el : Element) : Element :=
  mkElement (textContent el) (classList el ∖ {[c]}) (alertCard el) (fissureItem el).
Definition alertCardAdd (c : string) (el : Element) : Element :=
  mkElement (textContent el) (classList el) ((λ cs, {[c]} ∪ cs) <$> alertCard el) (fissureItem el).
Definition alertCardRemove (c : string) (el : Element) : Element :=
  mkElement (textContent el) (classList el) ((λ cs, cs ∖ {[c]}) <$> alertCard el) (fissureItem el).
Definition fissureItemAdd (c : string) (el : Element) : Element :=
  mkElement (textContent el) (classList el) (alertCard el) ((λ cs, {[c]} ∪ cs) <$> fissureItem el).
Definition fissureItemRemove (c : string) (el : Element) : Element :=
  mkElement (textContent el) (classList el) (alertCard el) ((λ cs, cs ∖ {[c]}) <$> fissureItem el).

(** The elements of the page by [id]; [document.getElementById] is the lookup. *)
Abbreviation Dom := (gmap string Element).

(** The part of [WarframeMarketApp] that the timers and the refresh policy
    use. [cyclesContainer] and [alertsContainer] tell whether the element
    was found; [timeouts] lists the delays of the refresh callbacks that
    [updateTimers] handed to [setTimeout] and that have not run yet;
    [loadAlertsDataCalls] counts the calls of [loadAlertsData]. *)
Record App : Type := mkApp {
  cycleTimers : JsMap Timer;
  alertTimers : JsMap Timer;
  fissureTimers : JsMap Timer;
  pendingRefresh : bool;
  lastRefresh : option Z;
  currentMainTab : string;
  currentWorldState : option WorldState;
  cyclesContainer : bool;
  alertsContainer : bool;
  timeouts : list Z;
  loadAlertsDataCalls : nat
}.

Module WarframeMarketApp.

(** *** Reconciling the registries with a fetched world state *)

Definition cycles (worldState : WorldState) : list (string * option Cycle.data) :=
  [ ("Earth", earthCycle worldState);
    ("Cetus", cetusCycle worldState);
    ("Vallis", vallisCycle worldState);
    ("Cambion Drift", cambionCycle worldState);
    ("Zariman", zarimanCycle worldState) ].

Definition cycleIsDay (name : string) (d : Cycle.data) : JsVal :=
  if String.eqb name "Earth" then Cycle.isDay d
  else if String.eqb name "Cetus" then Cycle.isDay d
  else if String.eqb name "Vallis" then Cycle.isWarm d
  else if String.eqb name "Cambion Drift" then VBool (strictEq (Cycle.state d) (VStr "fass"))
  else if String.eqb name "Zariman" then Cycle.isCorpus d
  else VBool true.

Definition cycleState (name : string) (d : Cycle.data) : JsVal :=
  if String.eqb name "Earth" || String.eqb name "Cetus" || String.eqb name "Vallis"
     || String.eqb name "Cambion Drift" || String.eqb name "Zariman"
  then Cycle.state d
  else VStr "unknown".

(** [Math.max(0, Math.floor((expiryTime - now) / 1000))], or 0 without
    an expiry. *)
Definition timeInSeconds (now : Z) (d : Cycle.data) : Z :=
  match Cycle.expiry d with
  | Some expiryTime => Z.max 0 ((expiryTime - now) / 1000)
  | None => 0
  end.

Definition shouldUpdateTimer (existingTimer : option Timer) (state isDay : JsVal)
  (timeInSeconds : Z) : bool :=
  match existingTimer with
  | None => true
  | Some existing =>
      negb (strictEq (timerState existing) state)
      || negb (strictEq (timerIsDay existing) isDay)
      || (120 <? Z.abs (seconds existing - timeInSeconds))
  end.


(** The first part of the body of the loop of [displayCycles] for one
    cycle, up to [this.cycleTimers.set]; [now] is the value of [Date.now()]
    read there. *)
Definition reconcileCycle (now : Z) (cycle : string * option Cycle.data)
  (timers : JsMap Timer) : JsMap Timer :=
  match cycle.2 with
  | None => timers
  | Some d =>
      let isDay := cycleIsDay cycle.1 d in
      let state := cycleState cycle.1 d in
      let existingTimer := mapGet cycle.1 timers in
      if shouldUpdateTimer existingTimer state isDay (timeInSeconds now d)
      then mapSet cycle.1 (mkTimer (timeInSeconds now d) (CycleInfo state isDay)) timers
      else timers
  end.

(** The truth value of a JavaScript value. *)
Definition truthy (v : JsVal) : bool :=
  match v with
  | VUndef | VNull => false
  | VBool b => b
  | VNum n => negb (n =? 0)
  | VStr s => negb (String.eqb s "")
  | VArr _ | VObj _ => true
  end.

Definition formatCycleState (cycleName : string) (state : JsVal) : JsVal :=
  if String.eqb cycleName "Earth" || String.eqb cycleName "Cetus"
     || String.eqb cycleName "Vallis" || String.eqb cycleName "Cambion Drift"
     || String.eqb cycleName "Zariman"
  then state
  else if truthy state then state else VStr "unknown".

(** [value.toUpperCase()]: a [TypeError] unless the value is a string. No
    value of a world state has a method of that name. *)
Definition toUpperCase (value : JsVal) : Exc string :=
  match value with
  | VStr s => Ret (toUpperCaseAscii s)
  | VUndef =>
      Throw (TypeError "Cannot read properties of undefined (reading 'toUpperCase')")
  | VNull => Throw (TypeError "Cannot read properties of null (reading 'toUpperCase')")
  | _ => Throw (TypeError "this.formatCycleState(...).toUpperCase is not a function")
  end.

(** The body of the loop of [displayCycles] for one cycle: the registry is
    reconciled, then the card is written, which needs the state in upper
    case and throws when the state is no string. The registry keeps what
    was stored before the throw. *)
Definition displayCycle (now : Z) (cycle : string * option Cycle.data)
  : Eff (JsMap Timer) unit :=
  λ timers,
    match cycle.2 with
    | None => (Ret tt, timers)
    | Some d =>
        let timers := reconcileCycle now cycle timers in
        match toUpperCase (formatCycleState cycle.1 (cycleState cycle.1 d)) with
        | Ret _ => (Ret tt, timers)
        | Throw e => (Throw e, timers)
        end
    end.

(** [cycles.map(cycle => ...)]: the cycles are handled in order, and the
    first throw ends the loop. *)
Fixpoint mapCycles (nows : string → Z) (cycles : list (string * option Cycle.data))
  : Eff (JsMap Timer) unit :=
  λ timers,
    match cycles with
    | [] => (Ret tt, timers)
    | cycle :: rest =>
        match displayCycle (nows cycle.1) cycle timers with
        | (Ret _, timers) => mapCycles nows rest timers
        | (Throw e, timers) => (Throw e, timers)
        end
    end.

Definition withCycleTimers (m : JsMap Timer) (app : App) : App :=
  mkApp m (alertTimers app) (fissureTimers app) (pendingRefresh app)
    (lastRefresh app) (currentMainTab app) (currentWorldState app)
    (cyclesContainer app) (alertsContainer app) (timeouts app)
    (loadAlertsDataCalls app).

Definition withAlertTimers (m : JsMap Timer) (app : App) : App :=
  mkApp (cycleTimers app) m (fissureTimers app) (pendingRefresh app)
    (lastRefresh app) (currentMainTab app) (currentWorldState app)
    (cyclesContainer app) (alertsContainer app) (timeouts app)
    (loadAlertsDataCalls app).

Definition withFissureTimers (m : JsMap Timer) (app : App) : App :=
  mkApp (cycleTimers app) (alertTimers app) m (pendingRefresh app)
    (lastRefresh app) (currentMainTab app) (currentWorldState app)
    (cyclesContainer app) (alertsContainer app) (timeouts app)
    (loadAlertsDataCalls app).

(** [nows name] is the value of [Date.now()] read while the cycle [name]
    is handled. *)
Definition displayCycles (worldState : WorldState) (nows : string → Z) : Eff App unit :=
  λ app,
    if negb (cyclesContainer app) then (Ret tt, app)
    else
      let '(result, timers) := mapCycles nows (cycles worldState) (cycleTimers app) in
      (result, withCycleTimers timers app).

(** The card of a cycle can be written: the cycle is not reported, or its
    state is a string. *)
Definition renders (cycle : string * option Cycle.data) : bool :=
  match cycle.2 with
  | None => true
  | Some d =>
      match formatCycleState cycle.1 (cycleState cycle.1 d) with
      | VStr _ => true
      | _ => false
      end
  end.

(** The loop over [cycles] gets to the cycle [name]: the card of every
    cycle before it can be written. *)
Fixpoint reached (name : string) (cycles : list (string * option Cycle.data)) : bool :=
  match cycles with
  | [] => true
  | cycle :: rest => String.eqb cycle.1 name || (renders cycle && reached name rest)
  end.

(** [expiryTime ? Math.max(0, Math.floor((expiryTime - now) / 1000)) : 0] *)
Definition timeLeft (now : Z) (expiryTime : option Z) : Z :=
  match expiryTime with
  | Some e => if e =? 0 then 0 else Z.max 0 ((e - now) / 1000)
  | None => 0
  end.

Definition alertId (index : nat) : string := "alert-" +:+ pretty index.

(** The body of the loop of [displayAlerts] for the alert at [index]. *)
Definition displayAlert (now : Z) (index : nat) (alert : Alert.data)
  (timers : JsMap Timer) : JsMap Timer :=
  if 0 <? timeLeft now (Alert.expiry alert) then
    mapSet (alertId index)
      (mkTimer (timeLeft now (Alert.expiry alert))
         (ExpiryInfo (default 0 (Alert.expiry alert))))
      timers
  else timers.

(** A loop with the index of each element, from [index]. *)
Fixpoint forEachIndexed {A St} (f : nat → A → St → St) (index : nat) (l : list A)
  (s : St) : St :=
  match l with
  | [] => s
  | x :: l' => forEachIndexed f (S index) l' (f index x s)
  end.

(** [nows index] is the value of [Date.now()] read while the alert at
    [index] is handled. *)
Definition displayAlerts (worldState : WorldState) (nows : nat → Z) (app : App) : App :=
  if negb (alertsContainer app) then app
  else
    (* Clear existing alert timers to prevent conflicts *)
    let app := withAlertTimers (mapClear (alertTimers app)) app in
    if (length (alerts worldState) =? 0)%nat then app
    else
      withAlertTimers
        (forEachIndexed (λ index alert, displayAlert (nows index) index alert)
           0 (take 8 (alerts worldState)) (alertTimers app))
        app.

Definition tierOrder : list string := ["Lith"; "Meso"; "Neo"; "Axi"; "Requiem"; "Omnia"].

(** [tierOrder.indexOf(tier) === -1 ? 999 : tierOrder.indexOf(tier)] *)
Definition tierIndex (tier : string) : Z :=
  match list_find (λ t, t = tier) tierOrder with
  | Some (i, _) => Z.of_nat i
  | None => 999
  end.

(** The comparator of the fissures: by tier, then by expiry. A fissure
    that is compared here has an expiry. *)
Definition compareFissures (a b : Fissure.data) : Z :=
  if negb (tierIndex (Fissure.tier a) =? tierIndex (Fissure.tier b))
  then tierIndex (Fissure.tier a) - tierIndex (Fissure.tier b)
  else default 0 (Fissure.expiry a) - default 0 (Fissure.expiry b).

Definition activeFissures (now : Z) (allFissures : list Fissure.data) : list Fissure.data :=
  List.filter
    (λ fissure,
       Fissure.active fissure && negb (Fissure.expired fissure)
       && match Fissure.expiry fissure with
          | Some e => now <? e
          | None => false
          end)
    allFissures.

Definition fissureId (index : nat) : string := "fissure-" +:+ pretty index.

Definition displayFissure (now : Z) (index : nat) (fissure : Fissure.data)
  (timers : JsMap Timer) : JsMap Timer :=
  match Fissure.expiry fissure with
  | Some expiryTimestamp =>
      let timeLeft := Z.max 0 ((expiryTimestamp - now) / 1000) in
      if 0 <? timeLeft then
        mapSet (fissureId index) (mkTimer timeLeft (ExpiryInfo expiryTimestamp)) timers
      else timers
  | None => timers
  end.

(** [displayFissureDetails], reached through [loadActivityDetails], which
    returns at once when [currentWorldState] is not set. *)
Definition displayFissureDetails (now : Z) (app : App) : App :=
  match currentWorldState app with
  | None => app
  | Some worldState =>
      if (length (fissures worldState) =? 0)%nat then app
      else
        (* Clear existing fissure timers *)
        let app := withFissureTimers (mapClear (fissureTimers app)) app in
        let sortedFissures :=
          jsSort compareFissures (activeFissures now (fissures worldState)) in
        withFissureTimers
          (forEachIndexed (displayFissure now) 0 sortedFissures (fissureTimers app))
          app
  end.

(** *** The one-second tick *)

Definition formatTimeFromSeconds (seconds : Z) : string :=
  if seconds <=? 0 then "Expired"
  else
    let hours := seconds / 3600 in
    let minutes := Z.rem seconds 3600 / 60 in
    let secs := Z.rem seconds 60 in
    let result := "" in
    let result := if 0 <? hours then result +:+ pretty hours +:+ "h " else result in
    let result := if 0 <? minutes then result +:+ pretty minutes +:+ "m " else result in
    let result :=
      if (0 <? secs) || String.eqb result "" then result +:+ pretty secs +:+ "s"
      else result in
    trim result.

(** [`timer-${cycleName.toLowerCase().replace(/\s+/g, '-')}`] *)
Definition cycleElementId (cycleName : string) : string :=
  "timer-" +:+ replaceSpaces false (toLowerCaseAscii cycleName).

Definition alertElementId (alertId : string) : string := alertId +:+ "-timer".
Definition fissureElementId (fissureId : string) : string := fissureId +:+ "-timer".

(** What the tick writes on the element of a cycle that still counts down
    ([seconds] is the decremented value), and on that of an expired one. *)
Definition cycleRunning (seconds : Z) (el : Element) : Element :=
  let el := setText (formatTimeFromSeconds seconds) el in
  if seconds <=? 300 then classAdd "warning" el else classRemove "warning" el.

Definition cycleExpired (el : Element) : Element :=
  classAdd "warning" (setText "Cycle changing..." el).

Definition alertRunning (seconds : Z) (el : Element) : Element :=
  let el := setText (formatTimeFromSeconds seconds) el in
  if seconds <=? 300 then alertCardAdd "expiring-soon" (classAdd "warning" el)
  else alertCardRemove "expiring-soon" (classRemove "warning" el).

Definition alertExpired (el : Element) : Element :=
  alertCardAdd "expired" (classAdd "warning" (setText "Expired" el)).

Definition fissureRunning (seconds : Z) (el : Element) : Element :=
  let el := setText (formatTimeFromSeconds seconds) el in
  if seconds <=? 300 then fissureItemAdd "expiring-soon" (classAdd "warning" el)
  else fissureItemRemove "expiring-soon" (classRemove "warning" el).

Definition fissureExpired (el : Element) : Element :=
  fissureItemAdd "expired" (classAdd "warning" (setText "Expired" el)).

(** The body of a [forEach] of [updateTimers] for one entry: [elementId]
    names the element of the timer, [running] and [expired] are what is
    written on it (nothing when the element is not found). It returns
    the entry as the loop leaves it, and the page. *)
Definition tickTimer (elementId : string → string)
  (running : Z → Element → Element) (expired : Element → Element)
  (key : string) (timerData : Timer) (dom : Dom) : Timer * Dom :=
  if 0 <? seconds timerData then
    let timerData := setSeconds (seconds timerData - 1) timerData in
    (timerData, alter (running (seconds timerData)) (elementId key) dom)
  else if seconds timerData =? 0 then
    (timerData, alter expired (elementId key) dom)
  else (timerData, dom).

Fixpoint forEachTimer (f : string → Timer → Dom → Timer * Dom) (m : JsMap Timer)
  (dom : Dom) : JsMap Timer * Dom :=
  match m with
  | [] => ([], dom)
  | (key, timerData) :: m' =>
      let '(timerData', dom') := f key timerData dom in
      let '(m'', dom'') := forEachTimer f m' dom' in
      ((key, timerData') :: m'', dom'')
  end.

(** [Array.from(m.entries()).filter(([name, timer]) => timer.seconds === 0)] *)
Definition expiredEntries (m : JsMap Timer) : list (string * Timer) :=
  List.filter (λ entry, seconds entry.2 =? 0) m.

Definition updateTimers (app : App) (dom : Dom) : App * Dom :=
  let '(cycleTimers', dom) :=
    forEachTimer (tickTimer cycleElementId cycleRunning cycleExpired)
      (cycleTimers app) dom in
  let '(alertTimers', dom) :=
    forEachTimer (tickTimer alertElementId alertRunning alertExpired)
      (alertTimers app) dom in
  let '(fissureTimers', dom) :=
    forEachTimer (tickTimer fissureElementId fissureRunning fissureExpired)
      (fissureTimers app) dom in
  let expiredCycleTimers := expiredEntries cycleTimers' in
  let expiredAlertTimers := expiredEntries alertTimers' in
  let expiredFissureTimers := expiredEntries fissureTimers' in
  if ((0 <? length expiredCycleTimers)%nat || (0 <? length expiredAlertTimers)%nat
      || (0 <? length expiredFissureTimers)%nat)
     && negb (pendingRefresh app)
  then
    (* setTimeout(..., 15000) *)
    (mkApp cycleTimers' alertTimers' fissureTimers' true
       (lastRefresh app) (currentMainTab app) (currentWorldState app)
       (cyclesContainer app) (alertsContainer app) (timeouts app ++ [15000])
       (loadAlertsDataCalls app), dom)
  else
    (mkApp cycleTimers' alertTimers' fissureTimers' (pendingRefresh app)
       (lastRefresh app) (currentMainTab app) (currentWorldState app)
       (cyclesContainer app) (alertsContainer app) (timeouts app)
       (loadAlertsDataCalls app), dom).

(** The callback that [updateTimers] hands to [setTimeout]. *)
Definition expiredRefresh (app : App) : App :=
  mkApp (cycleTimers app) (alertTimers app) (fissureTimers app) false
    (lastRefresh app) (currentMainTab app) (currentWorldState app)
    (cyclesContainer app) (alertsContainer app) (timeouts app)
    (if String.eqb (currentMainTab app) "alerts"
     then S (loadAlertsDataCalls app) else loadAlertsDataCalls app).

(** The oldest outstanding timeout comes due and its callback runs. *)
Definition runTimeout (app : App) : App :=
  match timeouts app with
  | [] => app
  | _ :: rest =>
      expiredRefresh
        (mkApp (cycleTimers app) (alertTimers app) (fissureTimers app)
           (pendingRefresh app) (lastRefresh app) (currentMainTab app)
           (currentWorldState app) (cyclesContainer app) (alertsContainer app)
           rest (loadAlertsDataCalls app))
  end.

(** [n] consecutive ticks, nothing else running in between. *)
Fixpoint ticks (n : nat) (app : App) (dom : Dom) : App * Dom :=
  match n with
  | O => (app, dom)
  | S n' => let '(app', dom') := updateTimers app dom in ticks n' app' dom'
  end.

(** *** The once-per-minute refresh check *)

Definition hasActiveTimers (app : App) : bool :=
  existsb (λ timer, (0 <? seconds timer) && (seconds timer <? 7200))
    (mapValues (cycleTimers app)).

(** [!hasActiveTimers || !this.lastRefresh || (Date.now() - this.lastRefresh) > 120000];
    [lastRefresh] is [None] while the property is [undefined]. *)
Definition shouldRefresh (now : Z) (app : App) : bool :=
  negb (hasActiveTimers app)
  || match lastRefresh app with
     | None => true
     | Some t => t =? 0
     end
  || match lastRefresh app with
     | None => false
     | Some t => 120000 <? now - t
     end.

(** The callback of [startAlertsRefresh], run every 60000 ms. *)
Definition alertsRefreshCheck (now : Z) (app : App) : App :=
  if shouldRefresh now app then
    mkApp (cycleTimers app) (alertTimers app) (fissureTimers app)
      (pendingRefresh app) (lastRefresh app) (currentMainTab app)
      (currentWorldState app) (cyclesContainer app) (alertsContainer app)
      (timeouts app) (S (loadAlertsDataCalls app))
  else app.

(** [this.lastRefresh = Date.now()], at the end of a [loadAlertsData]
    that did not fail. *)
Definition recordRefresh (now : Z) (app : App) : App :=
  mkApp (cycleTimers app) (alertTimers app) (fissureTimers app)
    (pendingRefresh app) (Some now) (currentMainTab app)
    (currentWorldState app) (cyclesContainer app) (alertsContainer app)
    (timeouts app) (loadAlertsDataCalls app).

(** All the timers that the three registries track. *)
Definition trackedTimers (app : App) : list Timer :=
  mapValues (cycleTimers app) ++ mapValues (alertTimers app)
  ++ mapValues (fissureTimers app).

Definition counting (timer : Timer) : Prop := 0 < seconds timer < 7200.

(** A refresh is due with respect to the timers [timers]: none has been
    recorded, or the recorded one is more than 120000 ms old, or none of
    the timers is counting. *)
Definition refreshDue (timers : list Timer) (now : Z) (app : App) : Prop :=
  lastRefresh app = None
  ∨ (∃ t, lastRefresh app = Some t ∧ 120000 < now - t)
  ∨ (∀ timer, timer ∈ timers → ¬ counting timer).

End WarframeMarketApp.

(** ** The two cache instances *)

Inductive CacheInstance : Type :=
  | MarketCache
  | WorldStateCache.

Definition ttl (i : CacheInstance) : Z :=
  match i with
  | MarketCache => WarframeMarketAPI.cacheTimeout
  | WorldStateCache => WarframeAlertsAPI.cacheTimeout
  end.

Definition fetchWithCacheOf (i : CacheInstance)
  : Z → (string → NetResult) → string → Eff World JsVal :=
  match i with
  | MarketCache => WarframeMarketAPI.fetchWithCache
  | WorldStateCache => WarframeAlertsAPI.fetchWithCache
  end.

(** A world whose cache holds, for [url], the payload ["old"] fetched at
    instant 0, a network that is down, and one that answers 503. *)
Definition staleWorld (url : string) : World :=
  mkWorld {[ url := mkEntry (VStr "old") 0 ]} [].

Definition netDown : string → NetResult :=
  λ _, Rejected (TypeError "Failed to fetch").

Definition netUnavailable : string → NetResult :=
  λ _, Resolved (mkResponse 503 "Service Unavailable" (Ret VNull)).

Definition netAnswers (d : JsVal) : string → NetResult :=
  λ _, Resolved (mkResponse 200 "OK" (Ret d)).

(** ** The three registries *)

Inductive Kind : Type :=
  | CycleKind
  | AlertKind
  | FissureKind.

Definition registry (kind : Kind) (app : App) : JsMap Timer :=
  match kind with
  | CycleKind => cycleTimers app
  | AlertKind => alertTimers app
  | FissureKind => fissureTimers app
  end.

(** The loop body of [updateTimers] for an entry of each registry. *)
Definition tickOf (kind : Kind) : string → Timer → Dom → Timer * Dom :=
  match kind with
  | CycleKind =>
      WarframeMarketApp.tickTimer WarframeMarketApp.cycleElementId
        WarframeMarketApp.cycleRunning WarframeMarketApp.cycleExpired
  | AlertKind =>
      WarframeMarketApp.tickTimer WarframeMarketApp.alertElementId
        WarframeMarketApp.alertRunning WarframeMarketApp.alertExpired
  | FissureKind =>
      WarframeMarketApp.tickTimer WarframeMarketApp.fissureElementId
        WarframeMarketApp.fissureRunning WarframeMarketApp.fissureExpired
  end.

(** An entry as one tick leaves it. *)
Definition ticked (timerData : Timer) : Timer :=
  if 0 <? seconds timerData then setSeconds (seconds timerData - 1) timerData
  else timerData.

(** The element of the page that shows a timer. *)
Definition elementIdOf (kind : Kind) : string → string :=
  match kind with
  | CycleKind => WarframeMarketApp.cycleElementId
  | AlertKind => WarframeMarketApp.alertElementId
  | FissureKind => WarframeMarketApp.fissureElementId
  end.

(** The elements that the ticks of an application write on, one for each
    entry of its registries. *)
Definition timerElements (app : App) : list string :=
  (elementIdOf CycleKind <$> (cycleTimers app).*1)
  ++ (elementIdOf AlertKind <$> (alertTimers app).*1)
  ++ (elementIdOf FissureKind <$> (fissureTimers app).*1).

(** What one tick writes on the element of a timer that has [timerData]
    before the tick. *)
Definition written (kind : Kind) (timerData : Timer) : Element → Element :=
  let running :=
    match kind with
    | CycleKind => WarframeMarketApp.cycleRunning
    | AlertKind => WarframeMarketApp.alertRunning
    | FissureKind => WarframeMarketApp.fissureRunning
    end in
  let expired :=
    match kind with
    | CycleKind => WarframeMarketApp.cycleExpired
    | AlertKind => WarframeMarketApp.alertExpired
    | FissureKind => WarframeMarketApp.fissureExpired
    end in
  if 0 <? seconds timerData then running (seconds timerData - 1)
  else if seconds timerData =? 0 then expired
  else id.

(** The element of a timer after [n] ticks. *)
Fixpoint shownAfter (kind : Kind) (timerData : Timer) (n : nat) (el : Element) : Element :=
  match n with
  | O => el
  | S n' => shownAfter kind (ticked timerData) n' (written kind timerData el)
  end.

(** An element shows its timer as expired: the text says so, the element
    has the class [warning], and the card or item around it, when there is
    one, has the class [expired]. *)
Definition flaggedExpired (kind : Kind) (el : Element) : Prop :=
  match kind with
  | CycleKind => textContent el = "Cycle changing..." ∧ "warning" ∈ classList el
  | AlertKind =>
      textContent el = "Expired" ∧ "warning" ∈ classList el
      ∧ ∀ card, alertCard el = Some card → "expired" ∈ card
  | FissureKind =>
      textContent el = "Expired" ∧ "warning" ∈ classList el
      ∧ ∀ item, fissureItem el = Some item → "expired" ∈ item
  end.

(** The refresh mark and the outstanding timeouts agree: one callback, due
    after 15000 ms, is outstanding when [pendingRefresh] is set, and none
    otherwise. It holds when the application starts and every operation
    keeps it. *)
Definition refreshInvariant (app : App) : Prop :=
  timeouts app = if pendingRefresh app then [15000] else [].

(** The order that a comparator induces. *)
Definition cmpBefore {A} (cmp : A → A → Z) (a b : A) : Prop := cmp a b ≤ 0.

(** ** Sample states *)

Definition emptyApp : App :=
  mkApp [] [] [] false None "alerts" None true true [] 0.

(** An alert and a fissure that expire at instant 1000000, each tracked with
    100 seconds left, and the world state that reports them. *)
Definition sampleWorldState : WorldState :=
  mkWorldState None None None None None
    [Alert.mk (Some 1000000)]
    [Fissure.mk true false (Some 1000000) "Lith"].

Definition trackingApp : App :=
  mkApp [] [("alert-0", mkTimer 100 (ExpiryInfo 1000000))]
    [("fissure-0", mkTimer 100 (ExpiryInfo 1000000))]
    false (Some 840000) "alerts" (Some sampleWorldState) true true [] 0.

(** A world state whose Earth cycle is in its day until instant 1000000, and
    an application that tracks it with 100 seconds left. *)
Definition earthDay : Cycle.data :=
  Cycle.mk (VBool true) VUndef VUndef (VStr "day") (Some 1000000).

Definition earthWorldState : WorldState :=
  mkWorldState (Some earthDay) None None None None [] [].

Definition earthApp : App :=
  mkApp [("Earth", mkTimer 100 (CycleInfo (VStr "day") (VBool true)))] [] []
    false (Some 840000) "alerts" None true true [] 0.

(** A world state whose Earth cycle has no [state] and whose Cetus cycle
    has turned to night, and an application that tracks both in their
    day. *)
Definition statelessEarthWorldState : WorldState :=
  mkWorldState
    (Some (Cycle.mk (VBool true) VUndef VUndef VUndef (Some 1000000)))
    (Some (Cycle.mk (VBool false) VUndef VUndef (VStr "night") (Some 1000000)))
    None None None [] [].

Definition dayApp : App :=
  mkApp [("Earth", mkTimer 100 (CycleInfo (VStr "day") (VBool true)));
         ("Cetus", mkTimer 100 (CycleInfo (VStr "day") (VBool true)))] [] []
    false (Some 840000) "alerts" None true true [] 0.

(** An alert with one second left, and a page that shows it in a card. *)
Definition lastSecondApp : App :=
  mkApp [] [("alert-0", mkTimer 1 (ExpiryInfo 1000000))] []
    false (Some 840000) "alerts" None true true [] 0.

Definition lastSecondPage : Dom :=
  {[ "alert-0-timer" := mkElement "1s" ∅ (Some ∅) None ]}.

(** The Earth cycle tracked with three hours left and an alert with 100
    seconds left, the last refresh recorded at instant 840000. *)
Definition longNightApp : App :=
  mkApp [("Earth", mkTimer 10800 (CycleInfo (VStr "night") (VBool false)))]
    [("alert-0", mkTimer 100 (ExpiryInfo 1000000))] []
    false (Some 840000) "alerts" None true true [] 0.

(** The Cetus cycle tracked in its day with no second left, and a world
    state that still reports that day, with its expiry at instant
    1000000. *)
Definition expiredCetusApp : App :=
  mkApp [("Cetus", mkTimer 0 (CycleInfo (VStr "day") (VBool true)))] [] []
    false (Some 840000) "alerts" None true true [] 0.

Definition laggingWorldState : WorldState :=
  mkWorldState None
    (Some (Cycle.mk (VBool true) VUndef VUndef (VStr "day") (Some 1000000)))
    None None None [] [].

(** An application with one expired alert timer and no refresh outstanding. *)
Definition expiredAlertApp : App :=
  mkApp [] [("alert-0", mkTimer 0 (ExpiryInfo 1000000))] []
    false (Some 840000) "alerts" None true true [] 0.

(** ** The market tab *)

(** [Array.prototype.find] with a callback that can throw. *)
Fixpoint findExc {A} (p : A → Exc bool) (l : list A) : Exc (option A) :=
  match l with
  | [] => Ret None
  | x :: l' =>
      match p x with
      | Throw e => Throw e
      | Ret true => Ret (Some x)
      | Ret false => findExc p l'
      end
  end.

(** What [searchItems] returns when [getItems] resolves to [response]. *)
Definition searchResults (toLowerCase : string → string) (query : string)
  (response : JsVal) : list JsVal :=
  match (let? payload := getProp response "payload" in
         let? items := getProp payload "items" in
         arrayFilter (WarframeMarketAPI.matchesQuery toLowerCase query) items) with
  | Ret filtered => take 10 filtered
  | Throw _ => []
  end.

(** Methods of [WarframeMarketApp] that serve the market tab. *)
Module MarketTab.

(** What [handleSearch] ends with: an error message on the page, or the
    item that it hands to [loadItemData]. *)
Inductive SearchOutcome : Type :=
  | ShowError (message : string)
  | LoadItem (selectedItem : JsVal).

Section Search.

Variable toLowerCase : string → string.

(** The callback of [items.find] in [handleSearch]. *)
Definition isExactMatch (query : string) (item : JsVal) : Exc bool :=
  let? name := getProp item "item_name" in
  let? lname := WarframeMarketAPI.lowerOf toLowerCase name in
  if String.eqb lname (toLowerCase query) then Ret true
  else
    let? url := getProp item "url_name" in
    let? lurl := WarframeMarketAPI.lowerOf toLowerCase url in
    Ret (String.eqb lurl (toLowerCase query)).

(** [handleSearch], for the trimmed value [query] of the search input, up
    to the call of [loadItemData]. An item that passed the filter of
    [searchItems] is an object, hence truthy in [exactMatch || items[0]]. *)
Definition handleSearch (isElectron : bool) (now : Z) (net : string → NetResult)
  (query : string) : Eff World SearchOutcome :=
  if String.eqb query "" then eff_ret (ShowError "Please enter an item name")
  else
    tryCatch
      (let* items := WarframeMarketAPI.searchItems toLowerCase isElectron now net query in
       if (length items =? 0)%nat then
         eff_ret (ShowError "No items found matching your search")
       else
         let* exactMatch := eff_lift (findExc (isExactMatch query) items) in
         let selectedItem :=
           match exactMatch with
           | Some item => item
           | None => default VUndef (head items)
           end in
         eff_ret (LoadItem selectedItem))
      (λ error,
         eff_ret (ShowError ("Connection failed: " +:+ errMessage error
                             +:+ ". Check console for details."))).

End Search.

(** [handleFilterToggle]: the filter moves one step along
    [['all', 'sell', 'buy']], and the table is drawn again when orders are
    loaded. [(currentIndex + 1) % 3] is always an index of the array. *)
Definition filters : list string := ["all"; "sell"; "buy"].

Definition nextFilter (orderFilter : string) : string :=
  let currentIndex :=
    match list_find (λ f, f = orderFilter) filters with
    | Some (i, _) => Z.of_nat i
    | None => -1
    end in
  let nextIndex := Z.rem (currentIndex + 1) (Z.of_nat (length filters)) in
  default "" (filters !! Z.to_nat nextIndex).

Definition handleFilterToggle (orderFilter : string) (currentOrders : option (list Order.t))
  : string * option Ranking.Table :=
  (nextFilter orderFilter,
   Ranking.displayOrders (nextFilter orderFilter) <$> currentOrders).

Section Recent.

(** A searched item, of which [addToRecentSearches] reads [url_name], a
    string. *)
Variable Item : Type.
Variable url_name : Item → string.

Definition addToRecentSearches (item : Item) (recentSearches : list Item) : list Item :=
  (* Remove if already exists *)
  let recentSearches :=
    List.filter (λ search, negb (String.eqb (url_name search) (url_name item)))
      recentSearches in
  (* Add to beginning, keep only last 5 *)
  take 5 (item :: recentSearches).

End Recent.

(** *** The pricing summary and the statistics *)

(** [Math.min(...prices)] and [Math.max(...prices)] of a non-empty array. *)
Definition minOf (x : Z) (l : list Z) : Z := fold_left Z.min l x.
Definition maxOf (x : Z) (l : list Z) : Z := fold_left Z.max l x.

(** [Math.round(sum / n)] for integers [sum] and [n > 0]: the quotient
    rounded to the nearest integer, a half going up. *)
Definition roundDiv (sum n : Z) : Z := (2 * sum + n) / (2 * n).

Definition isBuy (order : Order.t) : bool := String.eqb (Order.order_type order) "buy".
Definition isSell (order : Order.t) : bool := String.eqb (Order.order_type order) "sell".

(** The sorted lists of [displayItemData]: every buy order by descending
    price and every sell order by ascending price, whatever the status of
    the user. *)
Definition buyOrders (orders : list Order.t) : list Order.t :=
  jsSort (λ a b, Order.platinum b - Order.platinum a) (List.filter isBuy orders).

Definition sellOrders (orders : list Order.t) : list Order.t :=
  jsSort (λ a b, Order.platinum a - Order.platinum b) (List.filter isSell orders).

(** The prices of the summary; [None] is shown as [--]. *)
Definition highestBuy (orders : list Order.t) : option Z :=
  Order.platinum <$> head (buyOrders orders).

Definition lowestSell (orders : list Order.t) : option Z :=
  Order.platinum <$> head (sellOrders orders).

Record Statistics : Type := mkStatistics {
  totalOrders : nat;
  minPrice : Z;
  maxPrice : Z;
  avgPrice : Z;
  onlineSellers : nat;
  onlineBuyers : nat
}.

Definition isOnline (order : Order.t) : bool :=
  String.eqb (Order.status (Order.user order)) "online".

Definition updateStatistics (buyOrders sellOrders allOrders : list Order.t) : Statistics :=
  let allPrices := List.filter (λ price, 0 <? price) (Order.platinum <$> allOrders) in
  let minPrice := match allPrices with [] => 0 | p :: ps => minOf p ps end in
  let maxPrice := match allPrices with [] => 0 | p :: ps => maxOf p ps end in
  let avgPrice :=
    if (0 <? length allPrices)%nat
    then roundDiv (fold_left Z.add allPrices 0) (Z.of_nat (length allPrices))
    else 0 in
  mkStatistics (length allOrders) minPrice maxPrice avgPrice
    (length (List.filter isOnline sellOrders))
    (length (List.filter isOnline buyOrders)).

(** The statistics that [displayItemData] shows for [orders]. *)
Definition statistics (orders : list Order.t) : Statistics :=
  updateStatistics (buyOrders orders) (sellOrders orders) orders.

End MarketTab.

(** ** The alerts tab as a state machine *)

(** [this.currentWorldState = worldState], in [displayActivities]. *)
Definition storeWorldState (worldState : WorldState) (app : App) : App :=
  mkApp (cycleTimers app) (alertTimers app) (fissureTimers app)
    (pendingRefresh app) (lastRefresh app) (currentMainTab app)
    (Some worldState) (cyclesContainer app) (alertsContainer app)
    (timeouts app) (loadAlertsDataCalls app).

(** What happens to the timers and the refresh policy while the alerts tab
    runs: the tick of the 1000 ms interval, the run of an outstanding
    timeout, the check of the 60000 ms interval, and the steps of a
    [loadAlertsData] that got a world state (the cycles and the alerts are
    shown, the world state is stored, the fissure details are shown, the
    refresh is recorded). When [displayCycles] throws, [loadAlertsData]
    catches it, and the application is left as the throw left it. *)
Inductive Event : Type :=
  | Tick
  | TimeoutFires
  | RefreshCheck (now : Z)
  | CyclesShown (worldState : WorldState) (nows : string → Z)
  | AlertsShown (worldState : WorldState) (nows : nat → Z)
  | WorldStateStored (worldState : WorldState)
  | FissureDetailsShown (now : Z)
  | RefreshRecorded (now : Z).

Definition step (st : App * Dom) (ev : Event) : App * Dom :=
  match ev with
  | Tick => WarframeMarketApp.updateTimers st.1 st.2
  | TimeoutFires => (WarframeMarketApp.runTimeout st.1, st.2)
  | RefreshCheck now => (WarframeMarketApp.alertsRefreshCheck now st.1, st.2)
  | CyclesShown ws nows => ((WarframeMarketApp.displayCycles ws nows st.1).2, st.2)
  | AlertsShown ws nows => (WarframeMarketApp.displayAlerts ws nows st.1, st.2)
  | WorldStateStored ws => (storeWorldState ws st.1, st.2)
  | FissureDetailsShown now => (WarframeMarketApp.displayFissureDetails now st.1, st.2)
  | RefreshRecorded now => (WarframeMarketApp.recordRefresh now st.1, st.2)
  end.

Definition run (events : list Event) (st : App * Dom) : App * Dom :=
  fold_left step events st.

(** An alert with one second left is shown, expires under the ticks, and
    the corrective refresh runs. *)
Definition sampleEvents : list Event :=
  [AlertsShown sampleWorldState (λ _, 999000); Tick; Tick; Tick; TimeoutFires; Tick].

(** Sixteen ticks, during which a timeout set by the first of them comes
    due; its callback runs, and the [loadAlertsData] that it calls ends
    with [loaded]. *)
Definition refreshRound (loaded : App → App) (st : App * Dom) : App * Dom :=
  let '(app, dom) := WarframeMarketApp.ticks 16 st.1 st.2 in
  (loaded (WarframeMarketApp.runTimeout app), dom).

(** A [loadAlertsData] that fails or has not resolved leaves the
    application as it is; one that gets the lagging world state, at an
    instant after 1000000, shows its cycles and its alerts, stores it and
    records the refresh. *)
Definition loadFails : App → App := id.

Definition loadLagging : App → App :=
  λ app,
    let app :=
      (WarframeMarketApp.displayCycles laggingWorldState (λ _, 1000500) app).2 in
    let app := WarframeMarketApp.displayAlerts laggingWorldState (λ _, 1000500) app in
    let app := storeWorldState laggingWorldState app in
    WarframeMarketApp.recordRefresh 1000500 app.


(** No tracked timer has a negative number of seconds. *)
Definition secondsNonNegative (app : App) : Prop :=
  ∀ timer, timer ∈ WarframeMarketApp.trackedTimers app → 0 ≤ seconds timer.

(** ** Reading a duration *)

Definition isDigit (c : Ascii.ascii) : bool :=
  let n := Ascii.nat_of_ascii c in
  ((48 <=? n) && (n <=? 57))%nat.

Definition digitValue (c : Ascii.ascii) : Z := Z.of_nat (Ascii.nat_of_ascii c) - 48.

(** The seconds of the units [d], [h], [m] and [s]. *)
Definition unitSeconds (c : Ascii.ascii) : option Z :=
  match Ascii.nat_of_ascii c with
  | 100%nat => Some (24 * 60 * 60)
  | 104%nat => Some (60 * 60)
  | 109%nat => Some 60
  | 115%nat => Some 1
  | _ => None
  end.

(** The loop of [parseTimeString] over the matches of [/(\d+)([dhms])/g].
    A match is a maximal run of digits with a unit letter right after it:
    the search for the next match starts after the unit of the last one, and
    a run that no unit follows matches at none of its positions. [run] is
    the value of the digits read since the last character that is not a
    digit, if there are any. *)
Fixpoint parseTimeGo (s : string) (run : option Z) (totalSeconds : Z) : Z :=
  match s with
  | EmptyString => totalSeconds
  | String c s' =>
      if isDigit c then parseTimeGo s' (Some (10 * default 0 run + digitValue c)) totalSeconds
      else
        match run, unitSeconds c with
        | Some value, Some unit => parseTimeGo s' None (totalSeconds + value * unit)
        | _, _ => parseTimeGo s' None totalSeconds
        end
  end.

Definition parseTimeString (timeStr : string) : Z :=
  if String.eqb timeStr "" then 0 else parseTimeGo timeStr None 0.

(** ** The two intervals of the alerts tab *)

(** The application with the handles of its two intervals, and the
    intervals that the browser runs: [intervals] maps the handle of each
    active interval to its period in milliseconds. [setInterval] returns a
    positive handle that no active interval has; it is taken from the
    counter [nextHandle]. *)
Record Page : Type := mkPage {
  app : App;
  alertsRefreshInterval : option positive;
  timerUpdateInterval : option positive;
  intervals : gmap positive Z;
  nextHandle : positive
}.

Module Intervals.

Definition setInterval (period : Z) (page : Page) : positive * Page :=
  (nextHandle page,
   mkPage (app page) (alertsRefreshInterval page) (timerUpdateInterval page)
     (<[nextHandle page := period]> (intervals page)) (nextHandle page + 1)%positive).

Definition clearInterval (handle : positive) (page : Page) : Page :=
  mkPage (app page) (alertsRefreshInterval page) (timerUpdateInterval page)
    (delete handle (intervals page)) (nextHandle page).

Definition stopAlertsRefresh (page : Page) : Page :=
  match alertsRefreshInterval page with
  | Some handle =>
      let page := clearInterval handle page in
      mkPage (app page) None (timerUpdateInterval page) (intervals page) (nextHandle page)
  | None => page
  end.

Definition startAlertsRefresh (page : Page) : Page :=
  let page := stopAlertsRefresh page in
  let '(handle, page) := setInterval 60000 page in
  mkPage (app page) (Some handle) (timerUpdateInterval page) (intervals page)
    (nextHandle page).

Definition stopTimerUpdates (page : Page) : Page :=
  match timerUpdateInterval page with
  | Some handle =>
      let page := clearInterval handle page in
      mkPage (app page) (alertsRefreshInterval page) None (intervals page) (nextHandle page)
  | None => page
  end.

Definition startTimerUpdates (page : Page) : Page :=
  let page := stopTimerUpdates page in
  let '(handle, page) := setInterval 1000 page in
  mkPage (app page) (alertsRefreshInterval page) (Some handle) (intervals page)
    (nextHandle page).

(** [this.currentMainTab = tabName], and the call of [loadAlertsData]. *)
Definition enterTab (tabName : string) (a : App) : App :=
  mkApp (cycleTimers a) (alertTimers a) (fissureTimers a) (pendingRefresh a)
    (lastRefresh a) tabName (currentWorldState a) (cyclesContainer a)
    (alertsContainer a) (timeouts a)
    (if String.eqb tabName "alerts" then S (loadAlertsDataCalls a)
     else loadAlertsDataCalls a).

Definition switchMainTab (tabName : string) (page : Page) : Page :=
  let page :=
    mkPage (enterTab tabName (app page)) (alertsRefreshInterval page)
      (timerUpdateInterval page) (intervals page) (nextHandle page) in
  if String.eqb tabName "alerts" then startTimerUpdates (startAlertsRefresh page)
  else stopTimerUpdates (stopAlertsRefresh page).

(** The end of a [loadAlertsData] that got a world state: the timer
    interval is started again when the alerts tab is shown. *)
Definition afterLoad (page : Page) : Page :=
  if String.eqb (currentMainTab (app page)) "alerts" then startTimerUpdates page
  else page.

(** The intervals that the two fields of the application refer to. *)
Definition referred (page : Page) : gmap positive Z :=
  from_option (λ handle, {[ handle := 60000 ]}) ∅ (alertsRefreshInterval page)
  ∪ from_option (λ handle, {[ handle := 1000 ]}) ∅ (timerUpdateInterval page).

(** No interval runs that the application has lost the handle of. *)
Record tracked (page : Page) : Prop := mkTracked {
  tracked_intervals : intervals page = referred page;
  tracked_distinct :
    ∀ i j, alertsRefreshInterval page = Some i → timerUpdateInterval page = Some j → i ≠ j;
  tracked_fresh :
    ∀ handle, is_Some (intervals page !! handle) → (handle < nextHandle page)%positive
}.

(** The page when the application starts, on the market tab. *)
Definition initialPage : Page :=
  mkPage (mkApp [] [] [] false None "market" None true true [] 0) None None ∅ 1.

(** What happens to the intervals of a page: the user picks a tab, or a
    [loadAlertsData] started earlier gets its world state. *)
Inductive PageEvent :=
  | MainTabClicked (tabName : string)
  | WorldStateLoaded.

Definition pageStep (page : Page) (event : PageEvent) : Page :=
  match event with
  | MainTabClicked tabName => switchMainTab tabName page
  | WorldStateLoaded => afterLoad page
  end.

Definition pageRun (page : Page) (events : list PageEvent) : Page :=
  fold_left pageStep events page.

(** On the alerts tab the check of every minute and the tick of every
    second run, each once; on any other tab no interval runs. *)
Definition settled (page : Page) : Prop :=
  tracked page ∧
  if String.eqb (currentMainTab (app page)) "alerts"
  then ∃ i j, i ≠ j ∧ intervals page = {[ i := 60000 ]} ∪ {[ j := 1000 ]}
  else intervals page = ∅.

End Intervals.

(** ** Suggestions while typing *)

Module Suggestions.

(** The part of the application that [handleSearchInput] works on:
    [suggestions] is the list in the suggestions container when it is
    shown; [warningTimeouts] counts the timeouts set for the warning about
    limited suggestions. *)
Record State : Type := mkState {
  world : World;
  suggestions : option (list JsVal);
  searchWarningShown : bool;
  warningTimeouts : nat
}.

Section Input.

Variable toLowerCase : string → string.

Definition api {A} (m : Eff World A) : Eff State A :=
  λ s, let '(result, w) := m (world s) in
       (result, mkState w (suggestions s) (searchWarningShown s) (warningTimeouts s)).

Definition hideSuggestions : Eff State unit :=
  eff_modify (λ s, mkState (world s) None (searchWarningShown s) (warningTimeouts s)).

(** The items are those that [searchItems] returned: objects, of which
    reading [url_name] and [item_name] does not throw. *)
Definition showSuggestions (items : list JsVal) : Eff State unit :=
  if (length items =? 0)%nat then hideSuggestions
  else
    eff_modify (λ s,
      mkState (world s) (Some items) (searchWarningShown s) (warningTimeouts s)).

(** [handleSearchInput], for the trimmed value [query] of the input. *)
Definition handleSearchInput (isElectron : bool) (now : Z) (net : string → NetResult)
  (query : string) : Eff State unit :=
  if (String.length query <? 2)%nat then hideSuggestions
  else
    tryCatch
      (let* items :=
         api (WarframeMarketAPI.searchItems toLowerCase isElectron now net query) in
       showSuggestions items)
      (λ error,
         hideSuggestions;;;
         let* warned := eff_gets searchWarningShown in
         if warned then eff_ret tt
         else
           eff_modify (λ s,
             mkState (world s) (suggestions s) true (S (warningTimeouts s)))).

End Input.

End Suggestions.

(** ** Loading the orders of an item *)

Module ItemView.

(** Which of the four containers of the market tab is shown. *)
Inductive View : Type :=
  | Welcome
  | Loading
  | Results
  | ErrorShown (message : string).

(** The part of the application that [loadItemData] works on. *)
Record Market (Item : Type) : Type := mkMarket {
  world : World;
  currentItem : option Item;
  currentOrders : option JsVal;
  recentSearches : list Item;
  view : View
}.
Arguments mkMarket {Item} _ _ _ _ _.
Arguments world {Item} _.
Arguments currentItem {Item} _.
Arguments currentOrders {Item} _.
Arguments recentSearches {Item} _.
Arguments view {Item} _.

Section Load.

(** An item of the catalogue, with its two names, both strings. *)
Variable Item : Type.
Variables url_name item_name : Item → string.

(** What [displayItemData] does after it has stored the orders: it fills
    the summary, the table and the statistics, and throws on orders that
    are no array of orders. *)
Variable render : Item → JsVal → Exc unit.

(** A call of a method of [this.api]. *)
Definition api {A} (m : Eff World A) : Eff (Market Item) A :=
  λ s, let '(result, w) := m (world s) in
       (result,
        mkMarket w (currentItem s) (currentOrders s) (recentSearches s) (view s)).

Definition show (v : View) : Eff (Market Item) unit :=
  eff_modify (λ s,
    mkMarket (world s) (currentItem s) (currentOrders s) (recentSearches s) v).

Definition displayItemData (item : Item) (orders : JsVal) : Eff (Market Item) unit :=
  eff_modify (λ s,
    mkMarket (world s) (currentItem s) (Some orders) (recentSearches s) (view s));;;
  eff_lift (render item orders).

Definition loadItemData (isElectron : bool) (now : Z) (net : string → NetResult)
  (item : Item) : Eff (Market Item) unit :=
  eff_modify (λ s,
    mkMarket (world s) (Some item) (currentOrders s) (recentSearches s) (view s));;;
  show Loading;;;
  tryCatch
    (let* response :=
       api (WarframeMarketAPI.getItemOrders isElectron now net (url_name item)) in
     let* payload := eff_lift (getProp response "payload") in
     let* orders := eff_lift (getProp payload "orders") in
     displayItemData item orders;;;
     eff_modify (λ s,
       mkMarket (world s) (currentItem s) (currentOrders s)
         (MarketTab.addToRecentSearches Item url_name item (recentSearches s))
         (view s));;;
     show Results)
    (λ error, show (ErrorShown ("Failed to load data for " +:+ item_name item))).

(** [this.handleSearch()], which [handleRetry] calls when no item was
    being loaded. *)
Variable handleSearch : Eff (Market Item) unit.

Definition handleRetry (isElectron : bool) (now : Z) (net : string → NetResult)
  : Eff (Market Item) unit :=
  let* item := eff_gets currentItem in
  match item with
  | Some item => loadItemData isElectron now net item
  | None => handleSearch
  end.

End Load.

(** [response.payload.orders] *)
Definition ordersOf (response : JsVal) : Exc JsVal :=
  let? payload := getProp response "payload" in getProp payload "orders".

(** A catalogue of one item, and its orders as the API sends them. *)
Definition sampleOrders : JsVal :=
  VObj [("payload", VObj [("orders", VArr [])])].

Definition sampleMarket : Market string :=
  mkMarket
    (mkWorld {[ "https://api.warframe.market/v1/items/ash_prime_set/orders"
                := mkEntry sampleOrders 0 ]} [])
    None None [] Welcome.

End ItemView.

(** ** Utils.debounce *)

Module Utils.

Section Debounce.

(** The arguments of a call of the debounced function, and the delay. *)
Variable Args : Type.
Variable wait : Z.

(** The closure that [debounce(func, wait)] returns, with the timeouts of
    the page that it has set: [timers] maps the handle of each pending
    timeout to its due time and to the arguments that its [later] holds;
    [calls] lists the calls of [func], oldest first. *)
Record Debounced : Type := mkDebounced {
  timeout : option positive;
  timers : gmap positive (Z * Args);
  nextTimer : positive;
  calls : list Args
}.

(** [clearTimeout(timeout)]; nothing happens for [undefined] and for a
    handle that is not pending. *)
Definition clearTimeout (handle : option positive) (pending : gmap positive (Z * Args))
  : gmap positive (Z * Args) :=
  match handle with
  | Some handle => delete handle pending
  | None => pending
  end.

Definition executedFunction (now : Z) (args : Args) (d : Debounced) : Debounced :=
  let pending := clearTimeout (timeout d) (timers d) in
  mkDebounced (Some (nextTimer d)) (<[nextTimer d := (now + wait, args)]> pending)
    (nextTimer d + 1)%positive (calls d).

(** The timeout [handle] fires, if it is pending: it is pending no more,
    and its [later] runs. *)
Definition later (handle : positive) (d : Debounced) : Debounced :=
  match timers d !! handle with
  | Some (_, args) =>
      let pending := delete handle (timers d) in
      let pending := clearTimeout (timeout d) pending in
      mkDebounced (timeout d) pending (nextTimer d) (calls d ++ [args])
  | None => d
  end.

Inductive DebounceEvent : Type :=
  | Invoked (now : Z) (args : Args)
  | Fired (handle : positive).

Definition debounceStep (d : Debounced) (event : DebounceEvent) : Debounced :=
  match event with
  | Invoked now args => executedFunction now args d
  | Fired handle => later handle d
  end.

Definition debounceRun (events : list DebounceEvent) : Debounced :=
  fold_left debounceStep events (mkDebounced None ∅ 1 []).

(** The arguments of the invocations, oldest first. *)
Definition invocations (events : list DebounceEvent) : list Args :=
  omap (λ event, match event with Invoked _ args => Some args | Fired _ => None end)
    events.

(** The arguments that wait in a pending timeout. *)
Definition waiting (d : Debounced) : list Args :=
  match timeout d with
  | Some handle =>
      match timers d !! handle with
      | Some (_, args) => [args]
      | None => []
      end
  | None => []
  end.

End Debounce.

End Utils.

(** ** The location of an alert *)

Module Location.

(** [new Map([...])] of the constructor: a later pair with the same key
    would replace an earlier one. *)
Definition nodeMap : JsMap string :=
  fold_left (λ m entry, mapSet entry.1 entry.2 m)
    [ ("SolNode1", "Coba (Earth)"); ("SolNode2", "Mantle (Earth)");
      ("SolNode3", "Mariana (Earth)"); ("SolNode4", "Pacific (Earth)");
      ("SolNode5", "Cambria (Earth)"); ("SolNode6", "Lua (Earth)");
      ("SolNode51", "Venera (Venus)"); ("SolNode52", "Aphrodite (Venus)");
      ("SolNode53", "Cytherean (Venus)"); ("SolNode54", "Tessera (Venus)");
      ("SolNode55", "Linea (Venus)");
      ("SolNode101", "Caloris (Mercury)"); ("SolNode102", "Tolstoj (Mercury)");
      ("SolNode103", "Beethoven (Mercury)");
      ("SolNode201", "Olympia (Mars)"); ("SolNode202", "Phobos (Mars)");
      ("SolNode203", "Deimos (Mars)"); ("SolNode204", "Tharsis (Mars)");
      ("SolNode205", "Hellas (Mars)");
      ("SolNode401", "Ceres Station"); ("SolNode451", "Europa Station");
      ("SolNode501", "Jupiter Station"); ("SolNode551", "Saturn Station");
      ("SolNode601", "Uranus Station"); ("SolNode651", "Neptune Station");
      ("SolNode701", "Pluto Station"); ("SolNode801", "Sedna Station");
      ("SolNode851", "Eris Station"); ("SolNode901", "Void Station") ]
    [].

Definition planets : list string :=
  ["Earth"; "Venus"; "Mercury"; "Mars"; "Ceres"; "Jupiter"; "Saturn"; "Uranus";
   "Neptune"; "Pluto"; "Sedna"; "Eris"; "Void"].

Fixpoint dropChars (n : nat) (s : string) : string :=
  match n, s with
  | O, _ => s
  | S n', String _ s' => dropChars n' s'
  | S _, EmptyString => EmptyString
  end.

(** [hay.replace(needle, '')]: the first occurrence of [needle] is taken
    out. *)
Fixpoint removeFirst (needle hay : string) : string :=
  if startsWith needle hay then dropChars (String.length needle) hay
  else
    match hay with
    | EmptyString => EmptyString
    | String c hay' => String c (removeFirst needle hay')
    end.

(** The value of a digit in a radix up to 16, if it is one. *)
Definition digitOf (radix : Z) (c : Ascii.ascii) : option Z :=
  let n := Z.of_nat (Ascii.nat_of_ascii c) in
  let value :=
    if (48 <=? n) && (n <=? 57) then Some (n - 48)
    else if (97 <=? n) && (n <=? 102) then Some (n - 87)
    else if (65 <=? n) && (n <=? 70) then Some (n - 55)
    else None in
  match value with
  | Some v => if v <? radix then Some v else None
  | None => None
  end.

(** The longest run of digits at the start of [s]; [None] when there is
    no digit. *)
Fixpoint parseDigits (radix : Z) (s : string) (value : option Z) : option Z :=
  match s with
  | EmptyString => value
  | String c s' =>
      match digitOf radix c with
      | Some v => parseDigits radix s' (Some (radix * default 0 value + v))
      | None => value
      end
  end.

(** [parseInt(s)] for ASCII white space; [None] is [NaN].  The result is
    the mathematical value: the rounding of the numbers beyond [2^53]
    does not change which planet, if any, [planetOf] finds. *)
Definition parseInt (s : string) : option Z :=
  let s := trimStart s in
  let '(sign, s) :=
    match s with
    | String c s' =>
        if Ascii.eqb c (Ascii.ascii_of_nat 45) then (-1, s')
        else if Ascii.eqb c (Ascii.ascii_of_nat 43) then (1, s')
        else (1, s)
    | EmptyString => (1, s)
    end in
  let '(radix, s) :=
    if startsWith "0x" s || startsWith "0X" s then (16, dropChars 2 s) else (10, s) in
  option_map (Z.mul sign) (parseDigits radix s None).

(** [planets[planetIndex] || 'Unknown Planet'] *)
Definition planetOf (planetIndex : option Z) : string :=
  match planetIndex with
  | Some index =>
      if 0 <=? index then default "Unknown Planet" (planets !! Z.to_nat index)
      else "Unknown Planet"
  | None => "Unknown Planet"
  end.

(** The location that [displayAlerts] shows for the node [rawNode] of an
    alert. *)
Definition nodeLabel (rawNode : string) : string :=
  let node :=
    match mapGet rawNode nodeMap with
    | Some name => if String.eqb name "" then rawNode else name
    | None => rawNode
    end in
  if startsWith "SolNode" node then
    let nodeNum := removeFirst "SolNode" rawNode in
    let planetIndex := option_map (λ n, n `div` 50) (parseInt nodeNum) in
    let planet := planetOf planetIndex in
    rawNode +:+ " (" +:+ planet +:+ ")"
  else node.

End Location.

(** ** The main process *)

Module MainProcess.

(** What the handler of [certificate-error] does: whether it calls
    [event.preventDefault()], and the argument of [callback]. *)
Record CertificateAnswer : Type := mkAnswer { defaultPrevented : bool; trusted : bool }.

Definition certificateError (url : string) : CertificateAnswer :=
  if includes url "warframe.market" || includes url "api.warframe.market"
  then mkAnswer true true
  else mkAnswer false false.

(** The two properties that the handler of [will-navigate] reads of a
    parsed URL. *)
Record URL : Type := mkURL { origin : string; host : string }.

Section Navigation.

(** [new URL(navigationUrl)], which throws a [TypeError] for a text that
    is no URL. *)
Variable parseURL : string → Exc URL.

(** The handler of [will-navigate]: the result tells whether
    [event.preventDefault()] was called. *)
Definition willNavigate (navigationUrl : string) : Exc bool :=
  let? parsedUrl := parseURL navigationUrl in
  if negb (String.eqb (origin parsedUrl) "file://")
     && negb (includes (host parsedUrl) "warframe.market")
  then Ret true
  else Ret false.

End Navigation.

End MainProcess.

(* ===================================================================== *)
(** * Properties *)
(* ===================================================================== *)

(** ** The response cache *)

Ltac eff_unfold :=
  unfold WarframeMarketAPI.fetchWithCache, WarframeAlertsAPI.fetchWithCache,
    eff_bind, eff_gets, eff_ret, eff_throw, eff_lift, eff_modify, tryCatch, doFetch.

Lemma cacheHit_fresh t now c :
  now - timestamp c < t → cacheHit t now (Some c) = Some c.
Proof. intros H. unfold cacheHit. rewrite bool_decide_eq_true_2; done. Qed.

Lemma cacheHit_stale t now c :
  t ≤ now - timestamp c → cacheHit t now (Some c) = None.
Proof. intros H. unfold cacheHit. rewrite bool_decide_eq_false_2; [done | lia]. Qed.

Lemma fetch_hit i now net url w c :
  cache w !! url = Some c → now - timestamp c < ttl i →
  fetchWithCacheOf i now net url w = (Ret (data c), w).
Proof.
  intros Hc Hf. destruct i; simpl in *; eff_unfold; simpl; rewrite Hc;
    rewrite cacheHit_fresh by done; reflexivity.
Qed.

Lemma fetch_miss_success i now net url w r d :
  cacheHit (ttl i) now (cache w !! url) = None →
  net url = Resolved r → ok r = true → json r = Ret d →
  fetchWithCacheOf i now net url w
  = (Ret d, mkWorld (<[url := mkEntry d now]> (cache w)) (fetched w ++ [url])).
Proof.
  intros Hm Hn Hok Hj.
  destruct i; simpl in *; eff_unfold; simpl; rewrite Hm, Hn, Hok; simpl;
    rewrite Hj; reflexivity.
Qed.

Lemma fetch_miss_requests i now net url w :
  cacheHit (ttl i) now (cache w !! url) = None →
  fetched (fetchWithCacheOf i now net url w).2 = fetched w ++ [url].
Proof.
  intros Hm. destruct i; simpl in *; eff_unfold; simpl; rewrite Hm;
    destruct (net url) as [r|e]; simpl.
  - destruct (ok r); simpl; [destruct (json r); simpl|];
      destruct (cache w !! url); reflexivity.
  - destruct (cache w !! url); reflexivity.
  - destruct (ok r); simpl; [destruct (json r); simpl|]; reflexivity.
  - reflexivity.
Qed.

(** The market cache answers a failed request from its entry, however old. *)
Lemma market_failure_falls_back now net url w c :
  cache w !! url = Some c →
  (∃ e, net url = Rejected e) ∨ (∃ r, net url = Resolved r ∧ ok r = false) →
  ∃ w', WarframeMarketAPI.fetchWithCache now net url w = (Ret (data c), w')
        ∧ cache w' = cache w.
Proof.
  intros Hc Hfail. eff_unfold; simpl. rewrite Hc. unfold cacheHit.
  case_bool_decide; [eauto|].
  destruct Hfail as [[e He]|[r [Hr Hok]]]; rewrite ?He, ?Hr; simpl;
    rewrite ?Hok; simpl; eauto.
Qed.

(** Without an entry the market cache hands the failure to its caller. *)
Lemma market_failure_propagates now net url w :
  cache w !! url = None →
  (∃ e, net url = Rejected e) ∨ (∃ r, net url = Resolved r ∧ ok r = false) →
  ∃ e w', WarframeMarketAPI.fetchWithCache now net url w = (Throw e, w').
Proof.
  intros Hc Hfail. eff_unfold; simpl. rewrite Hc. simpl.
  destruct Hfail as [[e He]|[r [Hr Hok]]]; rewrite ?He, ?Hr; simpl;
    rewrite ?Hok; simpl; eauto.
Qed.

(** The world-state cache throws on every failed request, entry or not. *)
Lemma alerts_failure_always_throws now net url w :
  cacheHit WarframeAlertsAPI.cacheTimeout now (cache w !! url) = None →
  (∃ e, net url = Rejected e) ∨ (∃ r, net url = Resolved r ∧ ok r = false) →
  ∃ e w', WarframeAlertsAPI.fetchWithCache now net url w = (Throw e, w').
Proof.
  intros Hm Hfail. eff_unfold; simpl. rewrite Hm.
  destruct Hfail as [[e He]|[r [Hr Hok]]]; rewrite ?He, ?Hr; simpl;
    rewrite ?Hok; simpl; eauto.
Qed.

(** C1, at the failing input: with an entry for the URL that is older than
    both TTLs and a request that fails (the network is down, or the server
    answers 503), the market cache returns the cached payload, and the
    world-state cache raises an error instead of returning it. *)
Theorem stale_entry_on_failure :
  let url := WarframeAlertsAPI.baseURL in
  (WarframeMarketAPI.fetchWithCache 400000 netDown url (staleWorld url)).1
    = Ret (VStr "old")
  ∧ (WarframeMarketAPI.fetchWithCache 400000 netUnavailable url (staleWorld url)).1
    = Ret (VStr "old")
  ∧ (WarframeAlertsAPI.fetchWithCache 400000 netDown url (staleWorld url)).1
    = Throw (Error "Failed to fetch alerts data: Failed to fetch")
  ∧ (WarframeAlertsAPI.fetchWithCache 400000 netUnavailable url (staleWorld url)).1
    = Throw (Error "Failed to fetch alerts data: HTTP 503: Service Unavailable").
Proof. repeat split; vm_compute; reflexivity. Qed.

(** C9: for either cache instance and every URL, a call that finds an entry
    with [now - fetchedAt] below the TTL returns its payload and leaves the
    cache and the list of network requests as they were. Hence, after a call
    that had to fetch and got the payload, a second call within the TTL
    returns the same payload with that one request only, and a call at or
    after the TTL issues a second request. *)
Theorem fresh_entry_served_without_network (i : CacheInstance) (url : string) :
  (∀ now net w c,
     cache w !! url = Some c → now - timestamp c < ttl i →
     fetchWithCacheOf i now net url w = (Ret (data c), w))
  ∧ (∀ t0 t1 t2 net0 net1 net2 w r d,
       cacheHit (ttl i) t0 (cache w !! url) = None →
       net0 url = Resolved r → ok r = true → json r = Ret d →
       t1 - t0 < ttl i → ttl i ≤ t2 - t0 →
       ∃ w0,
         fetchWithCacheOf i t0 net0 url w = (Ret d, w0)
         ∧ fetched w0 = fetched w ++ [url]
         ∧ fetchWithCacheOf i t1 net1 url w0 = (Ret d, w0)
         ∧ fetched (fetchWithCacheOf i t2 net2 url w0).2 = fetched w ++ [url; url]).
Proof.
  split.
  - intros. by apply fetch_hit.
  - intros t0 t1 t2 net0 net1 net2 w r d Hm Hn Hok Hj H1 H2.
    eexists. split; [by eapply fetch_miss_success|]. split; [done|].
    split.
    + apply (fetch_hit i t1 net1 url _ (mkEntry d t0)); simpl; [|done].
      apply lookup_insert_eq.
    + rewrite fetch_miss_requests; simpl.
      * by rewrite <- app_assoc.
      * rewrite lookup_insert_eq. by apply cacheHit_stale.
Qed.

Lemma fresh_entry_served_without_network_witness :
  (WarframeAlertsAPI.fetchWithCache 59999 netDown "u" (staleWorld "u")
   = (Ret (VStr "old"), staleWorld "u"))
  ∧ ∃ w0,
      WarframeMarketAPI.fetchWithCache 1000 (netAnswers (VStr "new")) "u" (mkWorld ∅ [])
      = (Ret (VStr "new"), w0)
      ∧ fetched w0 = ["u"]
      ∧ WarframeMarketAPI.fetchWithCache 300999 netDown "u" w0 = (Ret (VStr "new"), w0)
      ∧ fetched (WarframeMarketAPI.fetchWithCache 301000 netDown "u" w0).2 = ["u"; "u"].
Proof.
  split.
  - apply (proj1 (fresh_entry_served_without_network WorldStateCache "u")
             59999 netDown (staleWorld "u") (mkEntry (VStr "old") 0)).
    + reflexivity.
    + vm_compute. reflexivity.
  - apply (proj2 (fresh_entry_served_without_network MarketCache "u")
             1000 300999 301000 (netAnswers (VStr "new")) netDown netDown
             (mkWorld ∅ []) (mkResponse 200 "OK" (Ret (VStr "new"))) (VStr "new")).
    + reflexivity.
    + reflexivity.
    + reflexivity.
    + reflexivity.
    + vm_compute. reflexivity.
    + vm_compute. discriminate.
Defined.

(** ** The item search *)

Lemma filterExc_sound {A} (p : A → Exc bool) (l r : list A) :
  filterExc p l = Ret r → ∀ x, x ∈ r → x ∈ l ∧ p x = Ret true.
Proof.
  revert r. induction l as [|y l IH]; simpl; intros r Hr x Hx.
  - inversion Hr; subst. by apply not_elem_of_nil in Hx.
  - destruct (p y) as [b|e] eqn:Hp; [|discriminate].
    destruct (filterExc p l) as [r'|e]; [|discriminate].
    inversion Hr; subst; clear Hr.
    destruct b.
    + apply elem_of_cons in Hx as [->|Hx].
      * split; [left | done].
      * destruct (IH r' eq_refl x Hx). split; [by right | done].
    + destruct (IH r' eq_refl x Hx). split; [by right | done].
Qed.

Lemma elem_of_take_elem {A} (n : nat) (l : list A) (x : A) : x ∈ take n l → x ∈ l.
Proof.
  intros H. rewrite <- (take_drop n l). apply elem_of_app. by left.
Qed.

(** C10: for every query string, in every state of the cache and whatever
    the network does, [searchItems] returns a list and throws nothing; the
    list has at most 10 items, each of which matches the query; and when the
    fetch of the item catalog throws, the list is empty, as for a search
    that matches nothing. *)
Theorem searchItems_never_throws (toLowerCase : string → string)
  (isElectron : bool) (now : Z) (net : string → NetResult) (query : string)
  (w : World) :
  ∃ items w',
    WarframeMarketAPI.searchItems toLowerCase isElectron now net query w
    = (Ret items, w')
    ∧ (length items ≤ 10)%nat
    ∧ (∀ item, item ∈ items →
         WarframeMarketAPI.matchesQuery toLowerCase query item = Ret true)
    ∧ (∀ e w1, WarframeMarketAPI.getItems isElectron now net w = (Throw e, w1) →
         items = [] ∧ w' = w1).
Proof.
  unfold WarframeMarketAPI.searchItems, tryCatch, eff_bind, eff_lift, eff_ret.
  assert (Hempty : ∀ w1 : World,
    (length (@nil JsVal) ≤ 10)%nat
    ∧ (∀ item, item ∈ @nil JsVal →
         WarframeMarketAPI.matchesQuery toLowerCase query item = Ret true)).
  { intros w1. split; [simpl; lia|]. intros item H. by apply not_elem_of_nil in H. }
  destruct (WarframeMarketAPI.getItems isElectron now net w) as [[response|e] w1].
  2:{ exists [], w1. destruct (Hempty w1) as [Hlen Hall].
      split; [done|]. split; [done|]. split; [done|].
      intros e' w2 Heq. by inversion Heq. }
  destruct (getProp response "payload") as [payload|e].
  2:{ exists [], w1. destruct (Hempty w1) as [Hlen Hall].
      split; [done|]. split; [done|]. split; [done|]. discriminate. }
  destruct (getProp payload "items") as [items|e].
  2:{ exists [], w1. destruct (Hempty w1) as [Hlen Hall].
      split; [done|]. split; [done|]. split; [done|]. discriminate. }
  destruct (arrayFilter (WarframeMarketAPI.matchesQuery toLowerCase query) items)
    as [filtered|e] eqn:Hf.
  2:{ exists [], w1. destruct (Hempty w1) as [Hlen Hall].
      split; [done|]. split; [done|]. split; [done|]. discriminate. }
  exists (take 10 filtered), w1. split; [done|]. split; [|split].
  - rewrite length_take. lia.
  - intros item Hin. apply elem_of_take_elem in Hin.
    destruct items; simpl in Hf; try discriminate.
    by destruct (filterExc_sound _ _ _ Hf item Hin).
  - discriminate.
Qed.

(** The catalog fetch fails with nothing cached: the search returns [[]]. *)
Example searchItems_network_down :
  (WarframeMarketAPI.searchItems toLowerCaseAscii true 0 netDown "Ash" (mkWorld ∅ [])).1
  = Ret [].
Proof. vm_compute. reflexivity. Qed.

(** A catalog item without [item_name] makes the whole search return [[]]. *)
Example searchItems_malformed_item :
  (WarframeMarketAPI.searchItems toLowerCaseAscii true 0
     (netAnswers
        (VObj [("payload",
                VObj [("items",
                       VArr [VObj [("item_name", VStr "Ash Prime Set");
                                   ("url_name", VStr "ash_prime_set")];
                             VObj [("url_name", VStr "ash_prime_set")]])])]))
     "ash" (mkWorld ∅ [])).1
  = Ret [].
Proof. vm_compute. reflexivity. Qed.

Example searchItems_finds :
  (WarframeMarketAPI.searchItems toLowerCaseAscii true 0
     (netAnswers
        (VObj [("payload",
                VObj [("items",
                       VArr [VObj [("item_name", VStr "Ash Prime Set");
                                   ("url_name", VStr "ash_prime_set")];
                             VObj [("item_name", VStr "Volt Prime Set");
                                   ("url_name", VStr "volt_prime_set")]])])]))
     "ASH" (mkWorld ∅ [])).1
  = Ret [VObj [("item_name", VStr "Ash Prime Set"); ("url_name", VStr "ash_prime_set")]].
Proof. vm_compute. reflexivity. Qed.

(** ** Sorting *)

Section JsSort.
Context {A : Type} (cmp : A → A → Z).

Lemma sortInsert_perm (x : A) (l : list A) : sortInsert cmp x l ≡ₚ x :: l.
Proof.
  induction l as [|y l IH]; simpl; [done|].
  destruct (cmp x y <=? 0); [done|].
  rewrite IH. apply perm_swap.
Qed.

Lemma jsSort_perm (l : list A) : jsSort cmp l ≡ₚ l.
Proof.
  induction l as [|x l IH]; simpl; [done|].
  rewrite sortInsert_perm. by constructor.
Qed.

Hypothesis cmp_total : ∀ a b, cmp a b ≤ 0 ∨ cmp b a ≤ 0.
Hypothesis cmp_trans : ∀ a b c, cmp a b ≤ 0 → cmp b c ≤ 0 → cmp a c ≤ 0.

Lemma sortInsert_sorted (x : A) (l : list A) :
  StronglySorted (cmpBefore cmp) l → StronglySorted (cmpBefore cmp) (sortInsert cmp x l).
Proof.
  induction 1 as [|y l Hs IH Hall]; simpl.
  - repeat constructor.
  - destruct (cmp x y <=? 0) eqn:Hc.
    + apply Z.leb_le in Hc. constructor; [by constructor|].
      constructor; [done|].
      eapply Forall_impl; [exact Hall|]. intros z Hz. by eapply cmp_trans.
    + apply Z.leb_gt in Hc.
      assert (Hyx : cmpBefore cmp y x) by (destruct (cmp_total x y); [lia | done]).
      constructor; [done|].
      rewrite sortInsert_perm. by constructor.
Qed.

Lemma jsSort_sorted (l : list A) : StronglySorted (cmpBefore cmp) (jsSort cmp l).
Proof.
  induction l as [|x l IH]; simpl; [constructor|]. by apply sortInsert_sorted.
Qed.

End JsSort.

Lemma StronglySorted_take {A} (R : A → A → Prop) (n : nat) (l : list A) :
  StronglySorted R l → StronglySorted R (take n l).
Proof.
  intros H. revert n. induction H as [|x l Hs IH Hall]; intros [|n]; simpl;
    try constructor; [apply IH|].
  apply Forall_forall. intros y Hy.
  rewrite Forall_forall in Hall. apply Hall. by eapply elem_of_take_elem.
Qed.

Lemma StronglySorted_impl {A} (R R' : A → A → Prop) (l : list A) :
  (∀ a b, R a b → R' a b) → StronglySorted R l → StronglySorted R' l.
Proof.
  intros HR. induction 1 as [|x l Hs IH Hall]; constructor; [done|].
  eapply Forall_impl; [exact Hall|]. intros y. apply HR.
Qed.

(** ** Order ranking *)

Section RankingFacts.
Import Order Ranking.

Lemma sortWithPriority_before (asc : bool) (a b : Order.t) :
  sortWithPriority a b asc ≤ 0 ↔ rankedBefore asc a b.
Proof.
  unfold sortWithPriority, rankedBefore.
  destruct (statusPriority (status (user a)) =? statusPriority (status (user b))) eqn:He;
    simpl.
  - apply Z.eqb_eq in He. destruct asc; split; intros H;
      try (right; split; [done | lia]); destruct H as [H|[_ H]]; lia.
  - apply Z.eqb_neq in He. split; intros H; [left; lia | destruct H as [H|[H _]]; lia].
Qed.

Lemma sortWithPriority_total (asc : bool) (a b : Order.t) :
  sortWithPriority a b asc ≤ 0 ∨ sortWithPriority b a asc ≤ 0.
Proof.
  rewrite !sortWithPriority_before. unfold rankedBefore. destruct asc; lia.
Qed.

Lemma sortWithPriority_trans (asc : bool) (a b c : Order.t) :
  sortWithPriority a b asc ≤ 0 → sortWithPriority b c asc ≤ 0 →
  sortWithPriority a c asc ≤ 0.
Proof.
  rewrite !sortWithPriority_before. unfold rankedBefore. destruct asc; lia.
Qed.

Lemma filter_filter_and {A} (p q : A → bool) (l : list A) :
  List.filter p (List.filter q l) = List.filter (λ x, q x && p x) l.
Proof.
  induction l as [|x l IH]; simpl; [done|].
  destruct (q x); simpl; [destruct (p x)|]; by rewrite IH.
Qed.

Lemma filter_ext_elem {A} (p q : A → bool) (l : list A) :
  (∀ x, x ∈ l → p x = q x) → List.filter p l = List.filter q l.
Proof.
  induction l as [|x l IH]; simpl; intros H; [done|].
  rewrite (H x) by left. rewrite IH; [done|].
  intros y Hy. apply H. by right.
Qed.

Lemma elem_of_filter_bool {A} (p : A → bool) (l : list A) (x : A) :
  x ∈ List.filter p l ↔ x ∈ l ∧ p x = true.
Proof. rewrite !list_elem_of_In. apply filter_In. Qed.

(** The orders that reach the sort of [side] are the kept ones, in the
    order of the input. *)
Lemma side_filter_kept (orderFilter side : string) (orders : list Order.t) :
  orderFilter = "all" ∨ orderFilter = "buy" ∨ orderFilter = "sell" →
  side = "buy" ∨ side = "sell" →
  (∀ o, o ∈ orders → knownStatus o) →
  List.filter (λ o, String.eqb (order_type o) side) (onlineOrders orderFilter orders)
  = List.filter (kept orderFilter side) orders.
Proof.
  intros Hf Hs Hknown. unfold onlineOrders.
  assert (Hcase :
    List.filter (λ o, String.eqb (order_type o) side)
      (if String.eqb orderFilter "buy" then
         List.filter (λ o, String.eqb (order_type o) "buy")
           (List.filter (λ o, String.eqb (status (user o)) "ingame"
                              || String.eqb (status (user o)) "online") orders)
       else if String.eqb orderFilter "sell" then
         List.filter (λ o, String.eqb (order_type o) "sell")
           (List.filter (λ o, String.eqb (status (user o)) "ingame"
                              || String.eqb (status (user o)) "online") orders)
       else
         List.filter (λ o, String.eqb (status (user o)) "ingame"
                           || String.eqb (status (user o)) "online") orders)
    = List.filter
        (λ o, (String.eqb (status (user o)) "ingame"
               || String.eqb (status (user o)) "online")
              && String.eqb (order_type o) side
              && (String.eqb orderFilter "all" || String.eqb orderFilter side))
        orders).
  { destruct Hf as [-> | [-> | ->]], Hs as [-> | ->]; simpl;
      rewrite !filter_filter_and; apply filter_ext_elem; intros o _;
      destruct (String.eqb (status (user o)) "ingame"
                || String.eqb (status (user o)) "online"); simpl; try done;
      rewrite ?andb_true_r, ?andb_false_r, ?andb_diag; try done.
    - destruct (String.eqb (order_type o) "buy") eqn:Hb; simpl; [|done].
      apply String.eqb_eq in Hb. by rewrite Hb.
    - destruct (String.eqb (order_type o) "sell") eqn:Hb; simpl; [|done].
      apply String.eqb_eq in Hb. by rewrite Hb. }
  rewrite Hcase. apply filter_ext_elem. intros o Ho. unfold kept.
  destruct (Hknown o Ho) as [-> | [-> | ->]]; reflexivity.
Qed.

Lemma onlineOrders_status (orderFilter : string) (orders : list Order.t) (o : Order.t) :
  o ∈ onlineOrders orderFilter orders →
  o ∈ orders ∧ (status (user o) = "ingame" ∨ status (user o) = "online").
Proof.
  unfold onlineOrders. intros H.
  assert (Hin : o ∈ List.filter
                  (λ order, String.eqb (status (user order)) "ingame"
                            || String.eqb (status (user order)) "online") orders).
  { destruct (String.eqb orderFilter "buy"); [by apply elem_of_filter_bool in H as [H _]|].
    destruct (String.eqb orderFilter "sell"); [by apply elem_of_filter_bool in H as [H _]|].
    done. }
  apply elem_of_filter_bool in Hin as [Hin Hst]. split; [done|].
  apply orb_true_iff in Hst as [Hst|Hst]; apply String.eqb_eq in Hst; auto.
Qed.

Lemma sellOrders_elem (orderFilter : string) (orders : list Order.t) (o : Order.t) :
  o ∈ sellOrders orderFilter orders → o ∈ onlineOrders orderFilter orders.
Proof.
  unfold sellOrders. rewrite jsSort_perm. intros H.
  by apply elem_of_filter_bool in H as [H _].
Qed.

Lemma buyOrders_elem (orderFilter : string) (orders : list Order.t) (o : Order.t) :
  o ∈ buyOrders orderFilter orders → o ∈ onlineOrders orderFilter orders.
Proof.
  unfold buyOrders. rewrite jsSort_perm. intros H.
  by apply elem_of_filter_bool in H as [H _].
Qed.

Lemma allOrdersSorted_elem (orderFilter : string) (orders : list Order.t) (o : Order.t) :
  o ∈ allOrdersSorted orderFilter orders → o ∈ onlineOrders orderFilter orders.
Proof.
  unfold allOrdersSorted, rankedSell, rankedBuy. intros H.
  apply elem_of_app in H as [H|H]; apply elem_of_take_elem in H;
    [by apply sellOrders_elem | by apply buyOrders_elem].
Qed.

Lemma shownRows_displayOrders (orderFilter : string) (orders : list Order.t) :
  shownRows (displayOrders orderFilter orders)
  = rankedSell orderFilter orders ++ rankedBuy orderFilter orders.
Proof.
  unfold displayOrders. destruct orders as [|o orders]; simpl; [|done].
  unfold rankedSell, rankedBuy, sellOrders, buyOrders, onlineOrders.
  simpl. by repeat case_match.
Qed.

End RankingFacts.

Lemma two_sellers_ranked_sell :
  Ranking.rankedSell "all" Ranking.twoSellers
  = [Ranking.order "ingame" "sell" 60; Ranking.order "online" "sell" 50].
Proof. vm_compute. reflexivity. Qed.

(** C7: for the two sell orders online at 50 and in game at 60, the ranked
    sell list is the 60-platinum order of the user in game, then the
    50-platinum order of the user online, under the filter ['all'] and under
    ['sell'], and these are the rows shown: status priority outweighs price. *)
Theorem two_sellers_priority_beats_price :
  Ranking.rankedSell "all" Ranking.twoSellers
  = [Ranking.order "ingame" "sell" 60; Ranking.order "online" "sell" 50]
  ∧ Ranking.rankedSell "sell" Ranking.twoSellers
    = [Ranking.order "ingame" "sell" 60; Ranking.order "online" "sell" 50]
  ∧ Ranking.displayOrders "all" Ranking.twoSellers
    = Ranking.Rows [Ranking.order "ingame" "sell" 60; Ranking.order "online" "sell" 50].
Proof. repeat split; vm_compute; reflexivity. Qed.

(** C6 as stated fails: on the two sell orders of C7 the ranked sell list is
    not in ascending order of price with ties broken by status. *)
Lemma sell_side_not_price_first :
  ¬ Sorted (Ranking.priceBefore true) (Ranking.rankedSell "all" Ranking.twoSellers).
Proof.
  rewrite two_sellers_ranked_sell. intros H.
  inversion H as [|? ? _ Hd]; subst. inversion Hd as [|? ? Hp]; subst.
  unfold Ranking.priceBefore in Hp. simpl in Hp. lia.
Qed.

(** C6, amended: each side of the ranked lists is ordered first by status
    priority (in game above online) and, among orders of equal status, by
    price, descending on the buy side and ascending on the sell side; only
    orders of users in game or online are ranked. *)
Theorem ranked_sides_status_then_price (orderFilter : string) (orders : list Order.t) :
  StronglySorted (Ranking.rankedBefore true) (Ranking.rankedSell orderFilter orders)
  ∧ StronglySorted (Ranking.rankedBefore false) (Ranking.rankedBuy orderFilter orders)
  ∧ ∀ o, o ∈ Ranking.rankedSell orderFilter orders ++ Ranking.rankedBuy orderFilter orders →
         Order.status (Order.user o) = "ingame" ∨ Order.status (Order.user o) = "online".
Proof.
  split; [|split].
  - apply StronglySorted_take. unfold Ranking.sellOrders.
    eapply StronglySorted_impl;
      [|apply (jsSort_sorted (λ a b, Ranking.sortWithPriority a b true))].
    + intros a b. unfold cmpBefore. apply sortWithPriority_before.
    + intros a b. apply sortWithPriority_total.
    + intros a b c. apply sortWithPriority_trans.
  - apply StronglySorted_take. unfold Ranking.buyOrders.
    eapply StronglySorted_impl;
      [|apply (jsSort_sorted (λ a b, Ranking.sortWithPriority a b false))].
    + intros a b. unfold cmpBefore. apply sortWithPriority_before.
    + intros a b. apply sortWithPriority_total.
    + intros a b c. apply sortWithPriority_trans.
  - intros o Ho. apply allOrdersSorted_elem in Ho.
    by apply onlineOrders_status in Ho as [_ Ho].
Qed.

(** C8: for every order list whose statuses are in game, online or offline,
    and each of the filters ['all'], ['buy'] and ['sell'], the sell side and
    the buy side hold, before truncation, exactly the orders that are not
    offline, are of that type and pass the filter; each displayed side is
    truncated to 10 entries at most; and every row shown is an order of the
    input. *)
Theorem ranking_filters_and_truncates (orderFilter : string) (orders : list Order.t) :
  orderFilter = "all" ∨ orderFilter = "buy" ∨ orderFilter = "sell" →
  (∀ o, o ∈ orders → Ranking.knownStatus o) →
  Ranking.sellOrders orderFilter orders
    ≡ₚ List.filter (Ranking.kept orderFilter "sell") orders
  ∧ Ranking.buyOrders orderFilter orders
    ≡ₚ List.filter (Ranking.kept orderFilter "buy") orders
  ∧ Ranking.shownRows (Ranking.displayOrders orderFilter orders)
    = take 10 (Ranking.sellOrders orderFilter orders)
      ++ take 10 (Ranking.buyOrders orderFilter orders)
  ∧ (length (Ranking.rankedSell orderFilter orders) ≤ 10)%nat
  ∧ (length (Ranking.rankedBuy orderFilter orders) ≤ 10)%nat
  ∧ ∀ o, o ∈ Ranking.shownRows (Ranking.displayOrders orderFilter orders) → o ∈ orders.
Proof.
  intros Hf Hknown. repeat split.
  - unfold Ranking.sellOrders. rewrite jsSort_perm.
    rewrite side_filter_kept; auto.
  - unfold Ranking.buyOrders. rewrite jsSort_perm.
    rewrite side_filter_kept; auto.
  - apply shownRows_displayOrders.
  - unfold Ranking.rankedSell. rewrite length_take. lia.
  - unfold Ranking.rankedBuy. rewrite length_take. lia.
  - intros o Ho. rewrite shownRows_displayOrders in Ho.
    apply allOrdersSorted_elem in Ho. by apply onlineOrders_status in Ho as [Ho _].
Qed.

Lemma ranking_filters_and_truncates_witness :
  Ranking.sellOrders "sell" (Ranking.order "offline" "sell" 10 :: Ranking.twoSellers)
    ≡ₚ List.filter (Ranking.kept "sell" "sell")
         (Ranking.order "offline" "sell" 10 :: Ranking.twoSellers)
  ∧ Ranking.buyOrders "sell" (Ranking.order "offline" "sell" 10 :: Ranking.twoSellers)
    ≡ₚ List.filter (Ranking.kept "sell" "buy")
         (Ranking.order "offline" "sell" 10 :: Ranking.twoSellers)
  ∧ Ranking.shownRows
      (Ranking.displayOrders "sell" (Ranking.order "offline" "sell" 10 :: Ranking.twoSellers))
    = take 10 (Ranking.sellOrders "sell"
                 (Ranking.order "offline" "sell" 10 :: Ranking.twoSellers))
      ++ take 10 (Ranking.buyOrders "sell"
                    (Ranking.order "offline" "sell" 10 :: Ranking.twoSellers))
  ∧ (length (Ranking.rankedSell "sell"
               (Ranking.order "offline" "sell" 10 :: Ranking.twoSellers)) ≤ 10)%nat
  ∧ (length (Ranking.rankedBuy "sell"
               (Ranking.order "offline" "sell" 10 :: Ranking.twoSellers)) ≤ 10)%nat
  ∧ ∀ o, o ∈ Ranking.shownRows
               (Ranking.displayOrders "sell"
                  (Ranking.order "offline" "sell" 10 :: Ranking.twoSellers)) →
         o ∈ Ranking.order "offline" "sell" 10 :: Ranking.twoSellers.
Proof.
  apply (ranking_filters_and_truncates "sell"
           (Ranking.order "offline" "sell" 10 :: Ranking.twoSellers)).
  - right. right. reflexivity.
  - intros o Ho. unfold Ranking.knownStatus.
    apply elem_of_cons in Ho as [-> | Ho]; [simpl; auto|].
    apply elem_of_cons in Ho as [-> | Ho]; [simpl; auto|].
    apply elem_of_cons in Ho as [-> | Ho]; [simpl; auto|].
    by apply not_elem_of_nil in Ho.
Defined.

(** ** The one-second tick *)

Section Tick.
Import WarframeMarketApp.

Lemma tickTimer_fst elementId running expired key timerData dom :
  (tickTimer elementId running expired key timerData dom).1 = ticked timerData.
Proof.
  unfold tickTimer, ticked. destruct (0 <? seconds timerData); [done|].
  by destruct (seconds timerData =? 0).
Qed.

Lemma tickOf_fst kind key timerData dom :
  (tickOf kind key timerData dom).1 = ticked timerData.
Proof. destruct kind; apply tickTimer_fst. Qed.

Lemma forEachTimer_fst f m dom :
  (∀ key timerData dom', (f key timerData dom').1 = ticked timerData) →
  (forEachTimer f m dom).1 = prod_map id ticked <$> m.
Proof.
  intros Hf. revert dom. induction m as [|[key timerData] m IH]; intros dom; simpl; [done|].
  specialize (Hf key timerData dom).
  destruct (f key timerData dom) as [t' dom']. simpl in Hf. subst t'.
  specialize (IH dom'). destruct (forEachTimer f m dom') as [m' dom'']. simpl in *.
  by rewrite IH.
Qed.

Lemma updateTimers_registry kind app dom :
  registry kind (updateTimers app dom).1 = prod_map id ticked <$> registry kind app.
Proof.
  unfold updateTimers.
  pose proof (forEachTimer_fst (tickOf CycleKind) (cycleTimers app) dom
                (tickOf_fst CycleKind)) as Hc.
  simpl in Hc.
  destruct (forEachTimer _ (cycleTimers app) dom) as [c d1].
  pose proof (forEachTimer_fst (tickOf AlertKind) (alertTimers app) d1
                (tickOf_fst AlertKind)) as Ha.
  simpl in Ha.
  destruct (forEachTimer _ (alertTimers app) d1) as [a d2].
  pose proof (forEachTimer_fst (tickOf FissureKind) (fissureTimers app) d2
                (tickOf_fst FissureKind)) as Hfi.
  simpl in Hfi.
  destruct (forEachTimer _ (fissureTimers app) d2) as [fi d3].
  simpl in *. subst.
  case_match; destruct kind; reflexivity.
Qed.

Lemma mapGet_fmap {V} (g : V → V) (k : string) (m : JsMap V) :
  mapGet k (prod_map id g <$> m) = g <$> mapGet k m.
Proof.
  induction m as [|[k' v] m IH]; simpl; [done|].
  destruct (String.eqb k' k); [done | apply IH].
Qed.

Lemma ticks_registry kind n app dom :
  registry kind (ticks n app dom).1 = prod_map id (Nat.iter n ticked) <$> registry kind app.
Proof.
  revert app dom. induction n as [|n IH]; intros app dom; simpl.
  - symmetry. etrans; [|apply list_fmap_id]. apply list_fmap_ext. by intros i [k v].
  - pose proof (updateTimers_registry kind app dom) as Hu.
    destruct (updateTimers app dom) as [app' dom']. simpl in Hu.
    rewrite IH, Hu. rewrite <- list_fmap_compose. apply list_fmap_ext.
    intros i [k v] _. simpl. unfold prod_map. simpl. f_equal.
    clear. induction n; simpl; [done|]. by rewrite IHn.
Qed.

Lemma iter_ticked n timerData :
  0 ≤ seconds timerData →
  Nat.iter n ticked timerData
  = setSeconds (Z.max 0 (seconds timerData - Z.of_nat n)) timerData.
Proof.
  intros Hs. induction n as [|n IH].
  - simpl. destruct timerData as [s i]. unfold setSeconds. simpl in *. f_equal. lia.
  - rewrite Nat.iter_succ, IH. unfold ticked, setSeconds. simpl.
    destruct (0 <? _) eqn:Hpos; simpl.
    + apply Z.ltb_lt in Hpos. f_equal. lia.
    + apply Z.ltb_ge in Hpos. f_equal. lia.
Qed.

Lemma add_class_idemp (c : string) (cs : gset string) :
  {[c]} ∪ ({[c]} ∪ cs) = {[c]} ∪ cs.
Proof. by rewrite (assoc_L (∪)), union_idemp_L. Qed.

Lemma cycleExpired_idemp el : cycleExpired (cycleExpired el) = cycleExpired el.
Proof.
  unfold cycleExpired, classAdd, setText. simpl. f_equal. apply add_class_idemp.
Qed.

Lemma alertExpired_idemp el : alertExpired (alertExpired el) = alertExpired el.
Proof.
  unfold alertExpired, alertCardAdd, classAdd, setText. simpl. f_equal.
  - apply add_class_idemp.
  - destruct (alertCard el); simpl; [|done]. f_equal. apply add_class_idemp.
Qed.

Lemma fissureExpired_idemp el : fissureExpired (fissureExpired el) = fissureExpired el.
Proof.
  unfold fissureExpired, fissureItemAdd, classAdd, setText. simpl. f_equal.
  - apply add_class_idemp.
  - destruct (fissureItem el); simpl; [|done]. f_equal. apply add_class_idemp.
Qed.

Lemma alter_idemp (f : Element → Element) (k : string) (dom : Dom) :
  (∀ el, f (f el) = f el) → alter f k (alter f k dom) = alter f k dom.
Proof.
  intros Hf. rewrite alter_alter_eq. apply alter_ext. intros el _. apply Hf.
Qed.

Lemma tickOf_expired_idemp kind key timerData dom :
  seconds timerData = 0 →
  tickOf kind key timerData (tickOf kind key timerData dom).2
  = tickOf kind key timerData dom.
Proof.
  intros Hz. destruct kind; simpl; unfold tickTimer; rewrite Hz; simpl; f_equal;
    apply alter_idemp;
    [apply cycleExpired_idemp | apply alertExpired_idemp | apply fissureExpired_idemp].
Qed.
Lemma tickOf_page kind key timerData dom element :
  (tickOf kind key timerData dom).2 !! element
  = if decide (element = elementIdOf kind key)
    then written kind timerData <$> dom !! element
    else dom !! element.
Proof.
  assert (Hgen : ∀ elementId running expired,
    (tickTimer elementId running expired key timerData dom).2 !! element
    = if decide (element = elementId key)
      then (if 0 <? seconds timerData then running (seconds timerData - 1)
            else if seconds timerData =? 0 then expired else id) <$> dom !! element
      else dom !! element).
  { intros elementId running expired. unfold tickTimer.
    destruct (0 <? seconds timerData); [|destruct (seconds timerData =? 0)];
      cbn [snd]; case_decide as He; subst;
      rewrite ?lookup_alter_eq, ?option_fmap_id; try done; by rewrite lookup_alter_ne. }
  destruct kind; apply Hgen.
Qed.

Lemma forEachTimer_snd f key timerData m dom :
  (forEachTimer f ((key, timerData) :: m) dom).2
  = (forEachTimer f m (f key timerData dom).2).2.
Proof.
  simpl. destruct (f key timerData dom) as [t' dom']. simpl.
  by destruct (forEachTimer f m dom').
Qed.

Lemma forEachTimer_page_other kind m dom element :
  element ∉ elementIdOf kind <$> m.*1 →
  (forEachTimer (tickOf kind) m dom).2 !! element = dom !! element.
Proof.
  revert dom. induction m as [|[key t] m IH]; intros dom He; [done|].
  rewrite forEachTimer_snd. rewrite !fmap_cons in He.
  apply not_elem_of_cons in He as [Hne He].
  rewrite IH by done. rewrite tickOf_page. by rewrite decide_False.
Qed.

Lemma forEachTimer_page_at kind m dom key timerData :
  NoDup (elementIdOf kind <$> m.*1) → (key, timerData) ∈ m →
  (forEachTimer (tickOf kind) m dom).2 !! elementIdOf kind key
  = written kind timerData <$> dom !! elementIdOf kind key.
Proof.
  revert dom. induction m as [|[k' t'] m IH]; intros dom Hnd Hin;
    [by apply not_elem_of_nil in Hin|].
  rewrite forEachTimer_snd. rewrite !fmap_cons in Hnd.
  apply NoDup_cons in Hnd as [Hk Hnd].
  apply elem_of_cons in Hin as [Heq | Hin].
  - inversion Heq; subst. rewrite forEachTimer_page_other by done.
    rewrite tickOf_page. by rewrite decide_True.
  - rewrite IH by done. rewrite tickOf_page. rewrite decide_False; [done|].
    intros Heq. apply Hk. cbn [fst]. rewrite <- Heq.
    apply list_elem_of_fmap_2. apply list_elem_of_fmap. by exists (key, timerData).
Qed.

Lemma updateTimers_snd app dom :
  (updateTimers app dom).2
  = (forEachTimer (tickOf FissureKind) (fissureTimers app)
       (forEachTimer (tickOf AlertKind) (alertTimers app)
          (forEachTimer (tickOf CycleKind) (cycleTimers app) dom).2).2).2.
Proof.
  unfold updateTimers, tickOf.
  destruct (forEachTimer _ (cycleTimers app) dom) as [c d1]. cbn [snd].
  destruct (forEachTimer _ (alertTimers app) d1) as [a d2]. cbn [snd].
  destruct (forEachTimer _ (fissureTimers app) d2) as [fi d3]. cbn [snd].
  by case_match.
Qed.

Lemma mapGet_pair {V} (k : string) (v : V) (m : JsMap V) :
  mapGet k m = Some v → (k, v) ∈ m.
Proof.
  induction m as [|[k' v'] m IH]; [done|]. cbn [mapGet].
  destruct (String.eqb_spec k' k) as [-> | Hne]; intros Hv.
  - inversion Hv; subst. apply list_elem_of_here.
  - apply list_elem_of_further. auto.
Qed.

Lemma registry_element kind app key timerData :
  (key, timerData) ∈ registry kind app →
  elementIdOf kind key ∈ elementIdOf kind <$> (registry kind app).*1.
Proof.
  intros Hin. apply list_elem_of_fmap_2. apply list_elem_of_fmap.
  by exists (key, timerData).
Qed.

(** One tick writes on the element of a timer what [written] says, when no
    other timer shares the element. *)
Lemma updateTimers_page kind app dom key timerData :
  NoDup (timerElements app) → (key, timerData) ∈ registry kind app →
  (updateTimers app dom).2 !! elementIdOf kind key
  = written kind timerData <$> dom !! elementIdOf kind key.
Proof.
  unfold timerElements. intros Hnd Hin.
  apply NoDup_app in Hnd as (Hc & Hca & Hnd).
  apply NoDup_app in Hnd as (Ha & Haf & Hf).
  pose proof (registry_element kind app key timerData Hin) as He.
  rewrite updateTimers_snd. destruct kind; cbn [registry] in Hin, He.
  - pose proof (Hca _ He) as Hout. rewrite elem_of_app in Hout.
    rewrite forEachTimer_page_other by tauto.
    rewrite forEachTimer_page_other by tauto.
    by apply forEachTimer_page_at.
  - rewrite forEachTimer_page_other by (by apply Haf).
    rewrite (forEachTimer_page_at AlertKind _ _ key timerData) by done.
    rewrite forEachTimer_page_other; [done|].
    intros Hin'. apply (Hca _ Hin'). apply elem_of_app. by left.
  - rewrite (forEachTimer_page_at FissureKind _ _ key timerData) by done.
    rewrite forEachTimer_page_other by (intros Hin'; by apply (Haf _ Hin')).
    rewrite forEachTimer_page_other; [done|].
    intros Hin'. apply (Hca _ Hin'). apply elem_of_app. by right.
Qed.

Lemma ticked_keys (m : JsMap Timer) : (prod_map id ticked <$> m).*1 = m.*1.
Proof. rewrite <- list_fmap_compose. apply list_fmap_ext. by intros i [k v]. Qed.

Lemma updateTimers_elements app dom :
  timerElements (updateTimers app dom).1 = timerElements app.
Proof.
  unfold timerElements.
  pose proof (updateTimers_registry CycleKind app dom) as Hc.
  pose proof (updateTimers_registry AlertKind app dom) as Ha.
  pose proof (updateTimers_registry FissureKind app dom) as Hf.
  cbn [registry] in Hc, Ha, Hf. rewrite Hc, Ha, Hf. by rewrite !ticked_keys.
Qed.

Lemma ticks_page kind n app dom key timerData :
  NoDup (timerElements app) → (key, timerData) ∈ registry kind app →
  (ticks n app dom).2 !! elementIdOf kind key
  = shownAfter kind timerData n <$> dom !! elementIdOf kind key.
Proof.
  revert app dom timerData. induction n as [|n IH]; intros app dom timerData Hnd Hin.
  - simpl. by rewrite option_fmap_id.
  - cbn [ticks shownAfter].
    pose proof (updateTimers_page kind app dom key timerData Hnd Hin) as Hpage.
    pose proof (updateTimers_elements app dom) as Hel.
    pose proof (updateTimers_registry kind app dom) as Hreg.
    destruct (updateTimers app dom) as [app' dom']. cbn [fst snd] in *.
    rewrite (IH app' dom' (ticked timerData)).
    + rewrite Hpage. by rewrite <- option_fmap_compose.
    + by rewrite Hel.
    + rewrite Hreg. apply list_elem_of_fmap. by exists (key, timerData).
Qed.

Lemma expired_idemp kind timerData el :
  seconds timerData = 0 →
  written kind timerData (written kind timerData el) = written kind timerData el.
Proof.
  intros Hz. unfold written. rewrite Hz. cbn [Z.ltb Z.eqb Z.compare].
  destruct kind;
    [apply cycleExpired_idemp | apply alertExpired_idemp | apply fissureExpired_idemp].
Qed.

Lemma ticked_expired timerData : seconds timerData = 0 → ticked timerData = timerData.
Proof. intros Hz. unfold ticked. by rewrite Hz. Qed.

Lemma shownAfter_expired kind timerData n el :
  seconds timerData = 0 →
  shownAfter kind timerData (S n) el = written kind timerData el.
Proof.
  intros Hz. revert el. induction n as [|n IH]; intros el; [done|].
  change (shownAfter kind timerData (S (S n)) el)
    with (shownAfter kind (ticked timerData) (S n) (written kind timerData el)).
  rewrite ticked_expired by done. rewrite IH. by apply expired_idemp.
Qed.

(** From the tick after the one that reaches 0 on, the element is what the
    write of an expired timer makes of the element at 0. *)
Lemma shownAfter_late kind timerData n el :
  0 ≤ seconds timerData → seconds timerData < Z.of_nat n →
  shownAfter kind timerData n el
  = written kind (setSeconds 0 timerData)
      (shownAfter kind timerData (Z.to_nat (seconds timerData)) el).
Proof.
  remember (Z.to_nat (seconds timerData)) as k eqn:Hk.
  revert timerData n el Hk. induction k as [|k IH]; intros timerData n el Hk Hs Hn.
  - assert (Hz : seconds timerData = 0) by lia.
    destruct n as [|n]; [lia|]. rewrite shownAfter_expired by done.
    cbn [shownAfter]. unfold written. cbn [seconds setSeconds]. by rewrite Hz.
  - destruct n as [|n]; [lia|]. cbn [shownAfter].
    assert (Hpos : (0 <? seconds timerData) = true) by (apply Z.ltb_lt; lia).
    assert (Hsec : seconds (ticked timerData) = seconds timerData - 1)
      by (unfold ticked; by rewrite Hpos).
    rewrite (IH (ticked timerData) n) by lia.
    unfold written at 1 3. cbn [seconds setSeconds]. done.
Qed.

Lemma shownAfter_snoc kind timerData n el :
  shownAfter kind timerData (S n) el
  = written kind (Nat.iter n ticked timerData) (shownAfter kind timerData n el).
Proof.
  revert timerData el. induction n as [|n IH]; intros timerData el; [done|].
  change (shownAfter kind timerData (S (S n)) el)
    with (shownAfter kind (ticked timerData) (S n) (written kind timerData el)).
  rewrite IH. by rewrite Nat.iter_swap.
Qed.

(** What the tick that takes a timer from 1 to 0 writes. *)
Lemma written_last_second kind timerData el :
  seconds timerData = 1 →
  textContent (written kind timerData el) = "Expired"
  ∧ "warning" ∈ classList (written kind timerData el).
Proof.
  intros Hone. unfold written. rewrite Hone. cbn [Z.ltb Z.compare Z.sub Z.add Z.opp
    Z.pos_sub].
  destruct kind.
  - unfold cycleRunning, classAdd, setText. cbn. split; [done|]. set_solver.
  - unfold alertRunning, alertCardAdd, classAdd, setText. cbn. split; [done|]. set_solver.
  - unfold fissureRunning, fissureItemAdd, classAdd, setText. cbn. split; [done|].
    set_solver.
Qed.

Lemma written_expired_flagged kind timerData el :
  seconds timerData = 0 → flaggedExpired kind (written kind timerData el).
Proof.
  intros Hz. unfold written. rewrite Hz. cbn [Z.ltb Z.eqb Z.compare].
  destruct kind; cbn [flaggedExpired].
  - split; [done|]. unfold cycleExpired, classAdd. cbn [classList]. set_solver.
  - split; [done|]. split.
    + unfold alertExpired, alertCardAdd, classAdd. cbn [classList]. set_solver.
    + unfold alertExpired, alertCardAdd. cbn [alertCard classAdd setText].
      intros card Hcard. apply fmap_Some in Hcard as (cs & _ & ->). set_solver.
  - split; [done|]. split.
    + unfold fissureExpired, fissureItemAdd, classAdd. cbn [classList]. set_solver.
    + unfold fissureExpired, fissureItemAdd. cbn [fissureItem classAdd setText].
      intros item Hitem. apply fmap_Some in Hitem as (cs & _ & ->). set_solver.
Qed.

End Tick.

(** C3: for a timer of any registry with a non-negative number of seconds,
    [n] ticks with nothing in between leave it with [max 0 (seconds - n)]
    seconds and its other data untouched: one less per tick while positive,
    then 0 for good. A tick of an expired timer leaves the timer as it is,
    and what it writes on the page is the same after a second such tick as
    after the first. On the page (no two timers sharing an element): the
    tick that takes the timer to 0 writes [Expired] and the class
    [warning]; once more ticks have run than the timer had seconds, its
    element, when the page has one, is flagged as expired, with the text,
    the class [warning] and the class [expired] on the card or item around
    it; the ticks make no element; and every later tick leaves the element
    as it is, so that the flag is set once and nothing is notified again. *)
Theorem countdown_by_one_then_zero (kind : Kind) (key : string) (timerData : Timer)
  (app : App) (dom : Dom) (n : nat) :
  mapGet key (registry kind app) = Some timerData →
  0 ≤ seconds timerData →
  mapGet key (registry kind (WarframeMarketApp.ticks n app dom).1)
  = Some (setSeconds (Z.max 0 (seconds timerData - Z.of_nat n)) timerData)
  ∧ (seconds timerData = 0 →
     ∀ page : Dom,
       tickOf kind key timerData page = (timerData, (tickOf kind key timerData page).2)
       ∧ tickOf kind key timerData (tickOf kind key timerData page).2
         = tickOf kind key timerData page)
  ∧ (NoDup (timerElements app) →
     seconds timerData < Z.of_nat n →
     let element := elementIdOf kind key in
     match dom !! element with
     | Some _ =>
         ∃ el, (WarframeMarketApp.ticks n app dom).2 !! element = Some el
               ∧ flaggedExpired kind el
     | None => (WarframeMarketApp.ticks n app dom).2 !! element = None
     end
     ∧ ∀ later, (n ≤ later)%nat →
         (WarframeMarketApp.ticks later app dom).2 !! element
         = (WarframeMarketApp.ticks n app dom).2 !! element)
  ∧ (NoDup (timerElements app) →
     0 < seconds timerData →
     ∀ before, dom !! elementIdOf kind key = Some before →
       ∃ el, (WarframeMarketApp.ticks (Z.to_nat (seconds timerData)) app dom).2
             !! elementIdOf kind key = Some el
             ∧ textContent el = "Expired" ∧ "warning" ∈ classList el).
Proof.
  intros Hget Hs. split; [|split; [|split]].
  - rewrite ticks_registry, mapGet_fmap, Hget. simpl. by rewrite iter_ticked.
  - intros Hz page. split; [|by apply tickOf_expired_idemp].
    rewrite (surjective_pairing (tickOf kind key timerData page)) at 1.
    rewrite tickOf_fst. unfold ticked. by rewrite Hz.
  - intros Hnd Hn element. apply mapGet_pair in Hget.
    assert (Hlate : ∀ m, seconds timerData < Z.of_nat m →
              (WarframeMarketApp.ticks m app dom).2 !! element
              = (λ el, written kind (setSeconds 0 timerData)
                         (shownAfter kind timerData (Z.to_nat (seconds timerData)) el))
                <$> dom !! element).
    { intros m Hm. unfold element. rewrite (ticks_page kind m app dom key timerData) by done.
      destruct (dom !! elementIdOf kind key) as [el|]; [|done]. cbn [fmap option_fmap option_map].
      f_equal. by apply shownAfter_late. }
    split.
    + rewrite (Hlate n Hn). destruct (dom !! element) as [el|]; [|done].
      eexists. split; [reflexivity|]. by apply written_expired_flagged.
    + intros later Hle. rewrite (Hlate n Hn). apply Hlate. lia.
  - intros Hnd Hpos before Hbefore. apply mapGet_pair in Hget.
    rewrite (ticks_page kind _ app dom key timerData) by done. rewrite Hbefore.
    destruct (Z.to_nat (seconds timerData)) as [|m] eqn:Hm; [lia|].
    cbn [fmap option_fmap option_map]. rewrite shownAfter_snoc.
    eexists. split; [reflexivity|]. apply written_last_second.
    rewrite iter_ticked by done. cbn [seconds setSeconds]. lia.
Qed.

Lemma countdown_by_one_then_zero_witness :
  mapGet "alert-0" (registry AlertKind (WarframeMarketApp.ticks 3 lastSecondApp lastSecondPage).1)
  = Some (mkTimer 0 (ExpiryInfo 1000000))
  ∧ (∃ el, (WarframeMarketApp.ticks 3 lastSecondApp lastSecondPage).2 !! "alert-0-timer"
           = Some el
           ∧ flaggedExpired AlertKind el)
  ∧ (∀ later, (3 ≤ later)%nat →
       (WarframeMarketApp.ticks later lastSecondApp lastSecondPage).2 !! "alert-0-timer"
       = (WarframeMarketApp.ticks 3 lastSecondApp lastSecondPage).2 !! "alert-0-timer")
  ∧ ∃ el, (WarframeMarketApp.ticks 1 lastSecondApp lastSecondPage).2 !! "alert-0-timer"
          = Some el
          ∧ textContent el = "Expired" ∧ "warning" ∈ classList el.
Proof.
  destruct (countdown_by_one_then_zero AlertKind "alert-0" (mkTimer 1 (ExpiryInfo 1000000))
              lastSecondApp lastSecondPage 3 eq_refl ltac:(simpl; lia))
    as (Hseconds & _ & Hpage & Hlast).
  split; [exact Hseconds|].
  destruct Hpage as [Hflag Hlater]; [apply NoDup_singleton | simpl; lia |].
  split; [exact Hflag|]. split; [exact Hlater|].
  refine (Hlast _ _ (mkElement "1s" ∅ (Some ∅) None) _);
    [apply NoDup_singleton | simpl; lia | reflexivity].
Defined.

Example formatTimeFromSeconds_samples :
  WarframeMarketApp.formatTimeFromSeconds 3661 = "1h 1m 1s"
  ∧ WarframeMarketApp.formatTimeFromSeconds 3600 = "1h"
  ∧ WarframeMarketApp.formatTimeFromSeconds 150 = "2m 30s"
  ∧ WarframeMarketApp.formatTimeFromSeconds 59 = "59s"
  ∧ WarframeMarketApp.formatTimeFromSeconds 0 = "Expired".
Proof. vm_compute. repeat split. Qed.

Example cycleElementId_samples :
  WarframeMarketApp.cycleElementId "Earth" = "timer-earth"
  ∧ WarframeMarketApp.cycleElementId "Cambion Drift" = "timer-cambion-drift".
Proof. vm_compute. split; reflexivity. Qed.

(** The page of an alert with one second left, after one tick and after
    two: the second tick marks the card as expired, and a third changes
    nothing. *)
Example alert_expires_on_page :
  let app := mkApp [] [("alert-0", mkTimer 1 (ExpiryInfo 1000000))] []
               true None "alerts" None true true [15000] 0 in
  let page : Dom := {[ "alert-0-timer" := mkElement "1s" ∅ (Some ∅) None ]} in
  (WarframeMarketApp.ticks 1 app page).2 !! "alert-0-timer"
  = Some (mkElement "Expired" {[ "warning" ]} (Some {[ "expiring-soon" ]}) None)
  ∧ (WarframeMarketApp.ticks 2 app page).2 !! "alert-0-timer"
    = Some (mkElement "Expired" {[ "warning" ]}
              (Some ({[ "expired" ]} ∪ {[ "expiring-soon" ]})) None)
  ∧ (WarframeMarketApp.ticks 3 app page).2 = (WarframeMarketApp.ticks 2 app page).2.
Proof. vm_compute. repeat split. Qed.

(** Three ticks of a cycle timer with two seconds left: 1, then 0, then 0. *)
Example earth_counts_down :
  let app := mkApp [("Earth", mkTimer 2 (CycleInfo (VStr "day") (VBool true)))] [] []
               true None "alerts" None true true [15000] 0 in
  (seconds <$> mapGet "Earth" (cycleTimers (WarframeMarketApp.ticks 1 app ∅).1),
   seconds <$> mapGet "Earth" (cycleTimers (WarframeMarketApp.ticks 2 app ∅).1),
   seconds <$> mapGet "Earth" (cycleTimers (WarframeMarketApp.ticks 3 app ∅).1))
  = (Some 1, Some 0, Some 0).
Proof. vm_compute. reflexivity. Qed.

(** ** The corrective refresh *)

Section ExpiryRefresh.
Import WarframeMarketApp.

Lemma updateTimers_fst app dom :
  (updateTimers app dom).1
  = let c := prod_map id ticked <$> cycleTimers app in
    let a := prod_map id ticked <$> alertTimers app in
    let f := prod_map id ticked <$> fissureTimers app in
    if ((0 <? length (expiredEntries c))%nat || (0 <? length (expiredEntries a))%nat
        || (0 <? length (expiredEntries f))%nat)
       && negb (pendingRefresh app)
    then mkApp c a f true (lastRefresh app) (currentMainTab app)
           (currentWorldState app) (cyclesContainer app) (alertsContainer app)
           (timeouts app ++ [15000]) (loadAlertsDataCalls app)
    else mkApp c a f (pendingRefresh app) (lastRefresh app) (currentMainTab app)
           (currentWorldState app) (cyclesContainer app) (alertsContainer app)
           (timeouts app) (loadAlertsDataCalls app).
Proof.
  unfold updateTimers.
  pose proof (forEachTimer_fst (tickOf CycleKind) (cycleTimers app) dom
                (tickOf_fst CycleKind)) as Hc.
  simpl in Hc.
  destruct (forEachTimer _ (cycleTimers app) dom) as [c d1].
  pose proof (forEachTimer_fst (tickOf AlertKind) (alertTimers app) d1
                (tickOf_fst AlertKind)) as Ha.
  simpl in Ha.
  destruct (forEachTimer _ (alertTimers app) d1) as [a d2].
  pose proof (forEachTimer_fst (tickOf FissureKind) (fissureTimers app) d2
                (tickOf_fst FissureKind)) as Hfi.
  simpl in Hfi.
  destruct (forEachTimer _ (fissureTimers app) d2) as [fi d3].
  simpl in *. subst. by case_match.
Qed.

Lemma expiredEntries_nonempty (m : JsMap Timer) :
  (0 <? length (expiredEntries m))%nat = true
  ↔ ∃ timer, timer ∈ mapValues m ∧ seconds timer = 0.
Proof.
  unfold expiredEntries, mapValues. induction m as [|[k t] m IH]; simpl.
  - split; [discriminate|]. intros [timer [H _]]. by apply not_elem_of_nil in H.
  - destruct (seconds t =? 0) eqn:Hz; simpl.
    + split; [|done]. intros _. exists t. split; [left | by apply Z.eqb_eq].
    + rewrite IH. apply Z.eqb_neq in Hz. split.
      * intros [timer [Hin Hs]]. exists timer. split; [by right | done].
      * intros [timer [Hin Hs]]. apply elem_of_cons in Hin as [-> | Hin]; [done|].
        by exists timer.
Qed.

Lemma updateTimers_schedules app dom :
  pendingRefresh app = false →
  (∃ timer, timer ∈ trackedTimers (updateTimers app dom).1 ∧ seconds timer = 0) →
  timeouts (updateTimers app dom).1 = timeouts app ++ [15000]
  ∧ pendingRefresh (updateTimers app dom).1 = true.
Proof.
  intros Hp [timer [Hin Hz]]. unfold trackedTimers in Hin.
  rewrite !(updateTimers_registry CycleKind app dom
            : cycleTimers _ = _) in Hin.
  rewrite !(updateTimers_registry AlertKind app dom : alertTimers _ = _) in Hin.
  rewrite !(updateTimers_registry FissureKind app dom : fissureTimers _ = _) in Hin.
  simpl in Hin.
  rewrite updateTimers_fst. simpl. rewrite Hp. simpl.
  assert (Hany :
    ((0 <? length (expiredEntries (prod_map id ticked <$> cycleTimers app)))%nat
     || (0 <? length (expiredEntries (prod_map id ticked <$> alertTimers app)))%nat
     || (0 <? length (expiredEntries (prod_map id ticked <$> fissureTimers app)))%nat)
    = true).
  { rewrite !orb_true_iff, !expiredEntries_nonempty.
    apply elem_of_app in Hin as [Hin|Hin]; [left; left; by exists timer|].
    apply elem_of_app in Hin as [Hin|Hin]; [left; right; by exists timer|].
    right. by exists timer. }
  rewrite Hany. simpl. done.
Qed.

Lemma updateTimers_quiet app dom :
  pendingRefresh app = true
  ∨ (∀ timer, timer ∈ trackedTimers (updateTimers app dom).1 → seconds timer ≠ 0) →
  timeouts (updateTimers app dom).1 = timeouts app
  ∧ pendingRefresh (updateTimers app dom).1 = pendingRefresh app.
Proof.
  intros H. 
  assert (Hreg : ∀ kind, registry kind (updateTimers app dom).1
                         = prod_map id ticked <$> registry kind app)
    by (intros; apply updateTimers_registry).
  unfold trackedTimers in H.
  rewrite (Hreg CycleKind : cycleTimers _ = _) in H.
  rewrite (Hreg AlertKind : alertTimers _ = _) in H.
  rewrite (Hreg FissureKind : fissureTimers _ = _) in H. simpl in H.
  rewrite updateTimers_fst. simpl.
  destruct H as [Hp|Hnone].
  - rewrite Hp. simpl. rewrite andb_false_r. done.
  - destruct (_ && negb (pendingRefresh app)) eqn:Hany; [|done].
    apply andb_true_iff in Hany as [Hany _].
    rewrite !orb_true_iff, !expiredEntries_nonempty in Hany.
    exfalso. destruct Hany as [[[t [Hin Hz]]|[t [Hin Hz]]]|[t [Hin Hz]]];
      apply (Hnone t); try done; rewrite !elem_of_app; auto.
Qed.

Lemma ticks_while_pending n app dom :
  pendingRefresh app = true →
  timeouts (ticks n app dom).1 = timeouts app
  ∧ pendingRefresh (ticks n app dom).1 = true.
Proof.
  revert app dom. induction n as [|n IH]; intros app dom Hp; simpl; [done|].
  destruct (updateTimers_quiet app dom (or_introl Hp)) as [Ht Hp'].
  destruct (updateTimers app dom) as [app' dom']. simpl in *.
  rewrite Hp in Hp'. destruct (IH app' dom' Hp') as [Ht' Hp''].
  by rewrite Ht', Ht.
Qed.

Lemma updateTimers_frame app dom :
  currentMainTab (updateTimers app dom).1 = currentMainTab app
  ∧ loadAlertsDataCalls (updateTimers app dom).1 = loadAlertsDataCalls app
  ∧ lastRefresh (updateTimers app dom).1 = lastRefresh app.
Proof. rewrite updateTimers_fst. simpl. by case_match. Qed.

Lemma ticks_frame n app dom :
  currentMainTab (ticks n app dom).1 = currentMainTab app
  ∧ loadAlertsDataCalls (ticks n app dom).1 = loadAlertsDataCalls app
  ∧ lastRefresh (ticks n app dom).1 = lastRefresh app.
Proof.
  revert app dom. induction n as [|n IH]; intros app dom; simpl; [done|].
  destruct (updateTimers_frame app dom) as (H1 & H2 & H3).
  destruct (updateTimers app dom) as [app' dom']. simpl in *.
  destruct (IH app' dom') as (H1' & H2' & H3'). by rewrite H1', H2', H3'.
Qed.

Lemma updateTimers_invariant app dom :
  refreshInvariant app → refreshInvariant (updateTimers app dom).1.
Proof.
  unfold refreshInvariant. intros Hinv. rewrite updateTimers_fst. simpl.
  destruct (pendingRefresh app); simpl.
  - by rewrite andb_false_r.
  - rewrite andb_true_r. case_match; simpl; by rewrite Hinv.
Qed.

Lemma runTimeout_invariant app :
  refreshInvariant app → refreshInvariant (runTimeout app).
Proof.
  unfold refreshInvariant, runTimeout. intros Hinv.
  destruct (pendingRefresh app) eqn:Hp; rewrite Hinv; simpl; [done|].
  by rewrite Hp.
Qed.

(** Whether the refresh was scheduled by this tick or by an earlier one,
    after a tick that finds an expired timer exactly one is outstanding. *)
Lemma one_refresh_outstanding app dom :
  refreshInvariant app →
  (∃ timer, timer ∈ trackedTimers (updateTimers app dom).1 ∧ seconds timer = 0) →
  timeouts (updateTimers app dom).1 = [15000]
  ∧ pendingRefresh (updateTimers app dom).1 = true.
Proof.
  intros Hinv Hexp. unfold refreshInvariant in Hinv.
  destruct (pendingRefresh app) eqn:Hp.
  - destruct (updateTimers_quiet app dom (or_introl Hp)) as [Ht Hp'].
    by rewrite Ht, Hp', Hp.
  - destruct (updateTimers_schedules app dom Hp Hexp) as [Ht Hp'].
    by rewrite Ht, Hinv.
Qed.

End ExpiryRefresh.

(** Up to the run of the callback: when no corrective refresh is
    outstanding and a tick leaves some tracked timer at 0, that tick hands
    exactly one callback to [setTimeout], with a delay of 15000 ms, and
    marks the refresh as pending. While a refresh is pending, no number of
    further ticks schedules another, whatever the timers show. So after any
    number of ticks from that one, one callback has been scheduled; with no
    other timeout outstanding, its run calls [loadAlertsData] once (when
    the alerts tab is shown) and clears the mark. *)
Theorem expiry_refresh_scheduled_once (app : App) (dom : Dom) (n : nat) :
  pendingRefresh app = false →
  (∃ timer, timer ∈ WarframeMarketApp.trackedTimers (WarframeMarketApp.updateTimers app dom).1
            ∧ seconds timer = 0) →
  timeouts (WarframeMarketApp.updateTimers app dom).1 = timeouts app ++ [15000]
  ∧ pendingRefresh (WarframeMarketApp.updateTimers app dom).1 = true
  ∧ (∀ app' dom' m,
       pendingRefresh app' = true →
       timeouts (WarframeMarketApp.ticks m app' dom').1 = timeouts app'
       ∧ pendingRefresh (WarframeMarketApp.ticks m app' dom').1 = true)
  ∧ timeouts (WarframeMarketApp.ticks (S n) app dom).1 = timeouts app ++ [15000]
  ∧ (timeouts app = [] →
     let app' := WarframeMarketApp.runTimeout (WarframeMarketApp.ticks (S n) app dom).1 in
     timeouts app' = [] ∧ pendingRefresh app' = false
     ∧ loadAlertsDataCalls app'
       = if String.eqb (currentMainTab app) "alerts"
         then S (loadAlertsDataCalls app) else loadAlertsDataCalls app).
Proof.
  intros Hp Hexp.
  destruct (updateTimers_schedules app dom Hp Hexp) as [Ht Hp1].
  assert (Hn : timeouts (WarframeMarketApp.ticks (S n) app dom).1 = timeouts app ++ [15000]).
  { simpl. destruct (WarframeMarketApp.updateTimers app dom) as [app1 dom1]. simpl in *.
    destruct (ticks_while_pending n app1 dom1 Hp1) as [Hn _]. by rewrite Hn. }
  split; [done|]. split; [done|]. split; [|split; [done|]].
  - intros app' dom' m Hp'. by apply ticks_while_pending.
  - intros Hnil. rewrite Hnil in Hn. change ([] ++ [15000]) with [15000] in Hn.
    destruct (ticks_frame (S n) app dom) as (Htab & Hcalls & _).
    unfold WarframeMarketApp.runTimeout. rewrite Hn.
    unfold WarframeMarketApp.expiredRefresh. cbn [timeouts pendingRefresh
      loadAlertsDataCalls currentMainTab].
    by rewrite Htab, Hcalls.
Qed.

Lemma expiry_refresh_scheduled_once_witness :
  timeouts (WarframeMarketApp.updateTimers expiredAlertApp ∅).1
  = timeouts expiredAlertApp ++ [15000]
  ∧ timeouts (WarframeMarketApp.ticks 15 expiredAlertApp ∅).1 = [15000]
  ∧ loadAlertsDataCalls
      (WarframeMarketApp.runTimeout (WarframeMarketApp.ticks 15 expiredAlertApp ∅).1) = 1%nat.
Proof.
  assert (Hexp : ∃ timer,
            timer ∈ WarframeMarketApp.trackedTimers
                      (WarframeMarketApp.updateTimers expiredAlertApp ∅).1
            ∧ seconds timer = 0).
  { exists (mkTimer 0 (ExpiryInfo 1000000)). split; [|reflexivity].
    vm_compute. left. }
  destruct (expiry_refresh_scheduled_once expiredAlertApp ∅ 14 eq_refl Hexp)
    as (H1 & _ & _ & H2 & H3).
  split; [exact H1|]. split; [exact H2|].
  destruct (H3 eq_refl) as (_ & _ & H4). exact H4.
Defined.

(** Once the callback has run, a tick that still finds an expired timer
    schedules the next corrective refresh. *)
Example expired_timer_rescheduled_after_run :
  let app1 := WarframeMarketApp.runTimeout (WarframeMarketApp.ticks 15 expiredAlertApp ∅).1 in
  timeouts app1 = [] ∧ timeouts (WarframeMarketApp.updateTimers app1 ∅).1 = [15000].
Proof. vm_compute. split; reflexivity. Qed.

Lemma rounds_of_failing_loads (k : nat) :
  Nat.iter k (refreshRound loadFails) (expiredAlertApp, ∅)
  = (mkApp [] [("alert-0", mkTimer 0 (ExpiryInfo 1000000))] []
       false (Some 840000) "alerts" None true true [] k, ∅).
Proof.
  induction k as [|k IH]; [reflexivity|].
  rewrite Nat.iter_succ, IH. vm_compute. reflexivity.
Qed.

Lemma rounds_of_lagging_loads (k : nat) :
  Nat.iter (S k) (refreshRound loadLagging) (expiredCetusApp, ∅)
  = (mkApp [("Cetus", mkTimer 0 (CycleInfo (VStr "day") (VBool true)))] [] []
       false (Some 1000500) "alerts" (Some laggingWorldState) true true [] (S k), ∅).
Proof.
  induction k as [|k IH]; [reflexivity|].
  rewrite Nat.iter_succ, IH. vm_compute. reflexivity.
Qed.

(** C5, at the failing input: an alert whose timer has reached 0, on the
    alerts tab, with no refresh outstanding, while the world state cannot be
    loaded. The expiry is one event, the timer stays at 0 and the set of
    expired timers never changes, yet every round of sixteen ticks ends
    with one more call of [loadAlertsData] and the next tick schedules a
    further timeout: [k] rounds make [k] calls, three in 48 seconds. The
    callback clears [pendingRefresh] without waiting for the load, and the
    tick looks at the timers that are at 0, not at those that have just
    got there. The same happens to a cycle whose world state is loaded but
    still reports the state that has run out. A timer that still counts
    schedules nothing: the first timeout is set by the tick that takes the
    timer to 0. *)
Theorem one_expiry_refreshed_repeatedly (k : nat) :
  let failing := Nat.iter k (refreshRound loadFails) (expiredAlertApp, ∅) in
  let lagging := Nat.iter k (refreshRound loadLagging) (expiredCetusApp, ∅) in
  (loadAlertsDataCalls failing.1 = k
   ∧ alertTimers failing.1 = alertTimers expiredAlertApp
   ∧ timeouts failing.1 = []
   ∧ timeouts (WarframeMarketApp.updateTimers failing.1 failing.2).1 = [15000])
  ∧ (loadAlertsDataCalls lagging.1 = k
     ∧ cycleTimers lagging.1 = cycleTimers expiredCetusApp
     ∧ timeouts lagging.1 = []
     ∧ timeouts (WarframeMarketApp.updateTimers lagging.1 lagging.2).1 = [15000])
  ∧ loadAlertsDataCalls
      (Nat.iter 3 (refreshRound loadFails) (expiredAlertApp, ∅)).1 = 3%nat
  ∧ timeouts (WarframeMarketApp.ticks 99 trackingApp ∅).1 = []
  ∧ timeouts (WarframeMarketApp.ticks 100 trackingApp ∅).1 = [15000]
  ∧ timeouts (WarframeMarketApp.ticks 115 trackingApp ∅).1 = [15000].
Proof.
  cbv zeta. rewrite rounds_of_failing_loads.
  split; [by vm_compute|]. split.
  { destruct k as [|k]; [by vm_compute|].
    rewrite rounds_of_lagging_loads. by vm_compute. }
  split; [by rewrite (rounds_of_failing_loads 3)|].
  by vm_compute.
Qed.


(** ** The refresh check *)

Section RefreshCheck.
Import WarframeMarketApp.

Lemma hasActiveTimers_counting app :
  hasActiveTimers app = true
  ↔ ∃ timer, timer ∈ mapValues (cycleTimers app) ∧ counting timer.
Proof.
  unfold hasActiveTimers, counting. rewrite existsb_exists. split.
  - intros [timer [Hin Hc]]. exists timer. split; [by apply list_elem_of_In|].
    apply andb_true_iff in Hc as [H1 H2]. apply Z.ltb_lt in H1, H2. lia.
  - intros [timer [Hin [H1 H2]]]. exists timer. split; [by apply list_elem_of_In|].
    apply andb_true_iff. split; by apply Z.ltb_lt.
Qed.

Lemma shouldRefresh_due now app :
  lastRefresh app ≠ Some 0 →
  shouldRefresh now app = true ↔ refreshDue (mapValues (cycleTimers app)) now app.
Proof.
  intros Hnz. unfold shouldRefresh, refreshDue.
  rewrite !orb_true_iff, negb_true_iff. split.
  - intros [[Hact|Hnever]|Hlate].
    + right. right. intros timer Hin Hc.
      assert (hasActiveTimers app = true) by (apply hasActiveTimers_counting; eauto).
      congruence.
    + destruct (lastRefresh app) as [t|]; [|by left].
      apply Z.eqb_eq in Hnever. by subst.
    + destruct (lastRefresh app) as [t|]; [|done].
      right. left. exists t. split; [done|]. by apply Z.ltb_lt.
  - intros [Hnone|[[t [Ht Hlate]]|Hidle]].
    + left. right. by rewrite Hnone.
    + right. rewrite Ht. by apply Z.ltb_lt.
    + left. left. destruct (hasActiveTimers app) eqn:Hact; [|done].
      apply hasActiveTimers_counting in Hact as [timer [Hin Hc]].
      by destruct (Hidle timer Hin).
Qed.

End RefreshCheck.

(** C4, at the failing input: an alert timer at 100 seconds and a refresh
    recorded 10 seconds ago, with no cycle timer tracked, or with the
    Earth cycle tracked at three hours. None of the three conditions of the
    claim holds, since a tracked timer is counting down between 0 and 7200
    seconds, which the next tick shows by taking it to 99; yet the check
    calls [loadAlertsData]. The check looks for a counting timer among the
    cycle timers only, where the tick handles the three registries. *)
Theorem refresh_check_ignores_alert_timers :
  (loadAlertsDataCalls (WarframeMarketApp.alertsRefreshCheck 850000 trackingApp)
   = S (loadAlertsDataCalls trackingApp)
   ∧ ¬ WarframeMarketApp.refreshDue (WarframeMarketApp.trackedTimers trackingApp)
         850000 trackingApp)
  ∧ (loadAlertsDataCalls (WarframeMarketApp.alertsRefreshCheck 850000 longNightApp)
     = S (loadAlertsDataCalls longNightApp)
     ∧ ¬ WarframeMarketApp.refreshDue (WarframeMarketApp.trackedTimers longNightApp)
           850000 longNightApp)
  ∧ mapGet "alert-0" (alertTimers (WarframeMarketApp.updateTimers longNightApp ∅).1)
    = Some (mkTimer 99 (ExpiryInfo 1000000)).
Proof.
  assert (Hnot : ∀ app,
            lastRefresh app = Some 840000 →
            mkTimer 100 (ExpiryInfo 1000000) ∈ WarframeMarketApp.trackedTimers app →
            ¬ WarframeMarketApp.refreshDue (WarframeMarketApp.trackedTimers app) 850000 app).
  { intros app Hlast Hin. unfold WarframeMarketApp.refreshDue.
    rewrite Hlast. intros [H|[[t [Ht Hlate]]|Hidle]].
    - discriminate.
    - inversion Ht; subst. lia.
    - apply (Hidle _ Hin). unfold WarframeMarketApp.counting. simpl. lia. }
  split; [|split].
  - split; [reflexivity|]. apply Hnot; [reflexivity|]. left.
  - split; [reflexivity|]. apply Hnot; [reflexivity|]. right. left.
  - reflexivity.
Qed.

(** What the check does, for every state: the once-per-minute check calls
    [loadAlertsData] exactly when no refresh has been recorded, or more
    than 120000 ms have passed since the recorded one, or no cycle timer
    has its seconds strictly between 0 and 7200 (the alert and fissure
    timers are not looked at); otherwise it changes nothing. A recorded
    refresh instant is a value of [Date.now()], which is not 0. *)
Theorem refresh_check_due (now : Z) (app : App) :
  lastRefresh app ≠ Some 0 →
  (loadAlertsDataCalls (WarframeMarketApp.alertsRefreshCheck now app)
   = S (loadAlertsDataCalls app)
   ↔ WarframeMarketApp.refreshDue (mapValues (cycleTimers app)) now app)
  ∧ (¬ WarframeMarketApp.refreshDue (mapValues (cycleTimers app)) now app →
     WarframeMarketApp.alertsRefreshCheck now app = app).
Proof.
  intros Hnz. pose proof (shouldRefresh_due now app Hnz) as Hdue.
  unfold WarframeMarketApp.alertsRefreshCheck.
  destruct (WarframeMarketApp.shouldRefresh now app) eqn:Hs; simpl.
  - split; [|intros Hn; destruct Hn; by apply Hdue].
    split; [intros _; by apply Hdue | done].
  - split; [|done]. split; [lia|].
    intros H. apply Hdue in H. discriminate.
Qed.

Lemma refresh_check_due_witness :
  (loadAlertsDataCalls (WarframeMarketApp.alertsRefreshCheck 850000 earthApp)
   = S (loadAlertsDataCalls earthApp)
   ↔ WarframeMarketApp.refreshDue (mapValues (cycleTimers earthApp)) 850000 earthApp)
  ∧ (¬ WarframeMarketApp.refreshDue (mapValues (cycleTimers earthApp)) 850000 earthApp →
     WarframeMarketApp.alertsRefreshCheck 850000 earthApp = earthApp).
Proof.
  apply (refresh_check_due 850000 earthApp). simpl. discriminate.
Defined.

Example refresh_check_skips_while_counting :
  WarframeMarketApp.shouldRefresh 850000 earthApp = false
  ∧ WarframeMarketApp.shouldRefresh 960001 earthApp = true
  ∧ WarframeMarketApp.shouldRefresh 850000 emptyApp = true.
Proof. vm_compute. repeat split. Qed.

(** ** Reconciling the registries *)

Section Reconcile.
Import WarframeMarketApp.





(** The registry after the body of the loop, and how the body ends. *)
Lemma displayCycle_run now cycle timers :
  displayCycle now cycle timers
  = (if renders cycle then Ret tt
     else (displayCycle now cycle timers).1, reconcileCycle now cycle timers)
  ∧ (renders cycle = false → ∃ e, (displayCycle now cycle timers).1 = Throw e).
Proof.
  unfold displayCycle, renders, reconcileCycle, toUpperCase.
  destruct cycle.2 as [d|]; [|done].
  destruct (formatCycleState cycle.1 (cycleState cycle.1 d)); simpl; split;
    try done; intros _; eauto.
Qed.

Lemma displayCycle_snd now cycle timers :
  (displayCycle now cycle timers).2 = reconcileCycle now cycle timers.
Proof. by rewrite (proj1 (displayCycle_run now cycle timers)). Qed.

Lemma mapCycles_cons nows cycle rest timers :
  mapCycles nows (cycle :: rest) timers
  = if renders cycle
    then mapCycles nows rest (reconcileCycle (nows cycle.1) cycle timers)
    else ((displayCycle (nows cycle.1) cycle timers).1,
          reconcileCycle (nows cycle.1) cycle timers).
Proof.
  cbn [mapCycles].
  destruct (displayCycle_run (nows cycle.1) cycle timers) as [Hrun Hthrow].
  destruct (renders cycle) eqn:Hr.
  - by rewrite Hrun.
  - destruct (Hthrow eq_refl) as [e He]. rewrite Hrun, He. done.
Qed.







End Reconcile.




(** The same cycle when night has fallen, or when the authoritative value is
    far from the tracked one: the entry is replaced. *)
Example earth_timer_replaced :
  let night := Cycle.mk (VBool false) VUndef VUndef (VStr "night") (Some 1000000) in
  mapGet "Earth"
    (cycleTimers (WarframeMarketApp.displayCycles
                    (mkWorldState (Some night) None None None None [] [])
                    (λ _, 850000) earthApp).2)
  = Some (mkTimer 150 (CycleInfo (VStr "night") (VBool false)))
  ∧ mapGet "Earth"
      (cycleTimers
         (WarframeMarketApp.displayCycles earthWorldState (λ _, 700000) earthApp).2)
    = Some (mkTimer 300 (CycleInfo (VStr "day") (VBool true))).
Proof. vm_compute. split; reflexivity. Qed.

(** An Earth cycle without a state stops the loop: its own timer is stored,
    [displayCycles] throws, and Cetus, which has turned to night, keeps
    the entry of the day. *)
Example cycle_without_state_stops_the_loop :
  let shown :=
    WarframeMarketApp.displayCycles statelessEarthWorldState (λ _, 850000) dayApp in
  shown.1
  = Throw (TypeError "Cannot read properties of undefined (reading 'toUpperCase')")
  ∧ mapGet "Earth" (cycleTimers shown.2)
    = Some (mkTimer 150 (CycleInfo VUndef (VBool true)))
  ∧ mapGet "Cetus" (cycleTimers shown.2)
    = Some (mkTimer 100 (CycleInfo (VStr "day") (VBool true)))
  ∧ WarframeMarketApp.reached "Cetus" (WarframeMarketApp.cycles statelessEarthWorldState)
    = false.
Proof. vm_compute. repeat split. Qed.

(* ===================================================================== *)
(** * Further properties *)
(* ===================================================================== *)

(** ** The cache, the search and the network *)

(** X1: a call of [fetchWithCache], on either cache instance, leaves the entry
    of every other URL as it is, issues at most one request, for its own
    URL, and changes the entry of its URL only when the request succeeds,
    to the payload received with the instant of the call; when it throws
    the cache is as before. *)
Theorem fetch_changes_only_its_entry (i : CacheInstance) (now : Z)
  (net : string → NetResult) (url : string) (w : World) :
  let result := (fetchWithCacheOf i now net url w).1 in
  let w' := (fetchWithCacheOf i now net url w).2 in
  (∀ url', url' ≠ url → cache w' !! url' = cache w !! url')
  ∧ (cache w' = cache w
     ∨ ∃ r d, net url = Resolved r ∧ ok r = true ∧ json r = Ret d
              ∧ result = Ret d ∧ cache w' = <[url := mkEntry d now]> (cache w))
  ∧ (fetched w' = fetched w ∨ fetched w' = fetched w ++ [url])
  ∧ (∀ e, result = Throw e → cache w' = cache w).
Proof.
  destruct i; simpl; eff_unfold; simpl;
    destruct (cacheHit _ now (cache w !! url)) as [c|]; simpl;
    try (repeat split; auto; discriminate);
    destruct (net url) as [r|e]; simpl;
    try (destruct (cache w !! url); simpl; repeat split; auto; discriminate);
    try (repeat split; auto; discriminate);
    (destruct (ok r) eqn:Hok; simpl;
     [destruct (json r) as [d|e] eqn:Hj; simpl|]);
    try (destruct (cache w !! url); simpl; repeat split; auto; discriminate);
    try (repeat split; auto; discriminate);
    (split; [intros url' Hne; by rewrite lookup_insert_ne|];
     split; [right; exists r, d; auto|]; split; [auto | discriminate]).
Qed.

Lemma searchItems_run toLowerCase isElectron now net query w :
  WarframeMarketAPI.searchItems toLowerCase isElectron now net query w
  = (Ret match (WarframeMarketAPI.getItems isElectron now net w).1 with
         | Ret response => searchResults toLowerCase query response
         | Throw _ => []
         end,
     (WarframeMarketAPI.getItems isElectron now net w).2).
Proof.
  unfold WarframeMarketAPI.searchItems, searchResults, tryCatch, eff_bind, eff_lift,
    eff_ret, exc_bind.
  destruct (WarframeMarketAPI.getItems isElectron now net w) as [[response|e] w1];
    simpl; [|done].
  destruct (getProp response "payload") as [payload|e]; [|done].
  destruct (getProp payload "items") as [items|e]; [|done].
  by destruct (arrayFilter _ items).
Qed.

Lemma searchResults_match toLowerCase query response item :
  item ∈ searchResults toLowerCase query response →
  WarframeMarketAPI.matchesQuery toLowerCase query item = Ret true.
Proof.
  unfold searchResults, exc_bind.
  destruct (getProp response "payload") as [payload|e];
    [|intros H; by apply not_elem_of_nil in H].
  destruct (getProp payload "items") as [items|e];
    [|intros H; by apply not_elem_of_nil in H].
  destruct (arrayFilter _ items) as [filtered|e] eqn:Hf;
    [|intros H; by apply not_elem_of_nil in H].
  intros Hin. apply elem_of_take_elem in Hin.
  destruct items; simpl in Hf; try discriminate.
  by destruct (filterExc_sound _ _ _ Hf item Hin).
Qed.

Lemma findExc_Some {A} (p : A → Exc bool) (l : list A) (x : A) :
  findExc p l = Ret (Some x) → x ∈ l ∧ p x = Ret true.
Proof.
  induction l as [|y l IH]; simpl; [discriminate|].
  destruct (p y) as [[|]|e] eqn:Hp; try discriminate.
  - intros H. inversion H; subst. split; [left | done].
  - intros H. destruct (IH H). split; [by right | done].
Qed.

(** X2: a search with a catalog entry younger than five minutes issues no
    request and leaves the cache as it is: whatever the network would
    answer, the result is computed from the cached catalog. *)
Theorem search_served_from_fresh_catalog (toLowerCase : string → string)
  (isElectron : bool) (now : Z) (net net' : string → NetResult) (query : string)
  (w : World) (c : CacheEntry) :
  cache w !! (WarframeMarketAPI.baseURL isElectron +:+ "/items") = Some c →
  now - timestamp c < 300000 →
  WarframeMarketAPI.searchItems toLowerCase isElectron now net query w
  = (Ret (searchResults toLowerCase query (data c)), w)
  ∧ WarframeMarketAPI.searchItems toLowerCase isElectron now net' query w
    = WarframeMarketAPI.searchItems toLowerCase isElectron now net query w.
Proof.
  intros Hc Hfresh.
  assert (Hget : ∀ n, WarframeMarketAPI.getItems isElectron now n w = (Ret (data c), w)).
  { intros n. unfold WarframeMarketAPI.getItems.
    apply (fetch_hit MarketCache now n _ w c Hc Hfresh). }
  rewrite !searchItems_run, !Hget. done.
Qed.

Lemma search_served_from_fresh_catalog_witness :
  let catalog :=
    VObj [("payload",
           VObj [("items", VArr [VObj [("item_name", VStr "Ash Prime Set");
                                       ("url_name", VStr "ash_prime_set")]])])] in
  let w := mkWorld {[ "https://api.warframe.market/v1/items" := mkEntry catalog 1000 ]} [] in
  WarframeMarketAPI.searchItems toLowerCaseAscii true 200000 netDown "ash" w
  = (Ret [VObj [("item_name", VStr "Ash Prime Set"); ("url_name", VStr "ash_prime_set")]], w).
Proof.
  intros catalog w.
  refine (proj1 (search_served_from_fresh_catalog toLowerCaseAscii true 200000 netDown
                   netDown "ash" w (mkEntry catalog 1000) _ _)).
  - reflexivity.
  - vm_compute. reflexivity.
Defined.

(** X3: [handleSearch] never throws. When the catalog cannot be fetched and
    nothing is cached, it reports that no items match the search, not that
    the connection failed. *)
Theorem search_failure_shown_as_no_items (toLowerCase : string → string)
  (isElectron : bool) (now : Z) (net : string → NetResult) (query : string)
  (w w1 : World) (e : JsError) :
  query ≠ "" →
  WarframeMarketAPI.getItems isElectron now net w = (Throw e, w1) →
  MarketTab.handleSearch toLowerCase isElectron now net query w
  = (Ret (MarketTab.ShowError "No items found matching your search"), w1).
Proof.
  intros Hq Hget. unfold MarketTab.handleSearch.
  apply String.eqb_neq in Hq. rewrite Hq.
  unfold tryCatch, eff_bind. rewrite searchItems_run, Hget. reflexivity.
Qed.

Lemma search_failure_shown_as_no_items_witness :
  (MarketTab.handleSearch toLowerCaseAscii true 0 netDown "ash" (mkWorld ∅ [])).1
  = Ret (MarketTab.ShowError "No items found matching your search").
Proof.
  assert (Hget : WarframeMarketAPI.getItems true 0 netDown (mkWorld ∅ [])
                 = (Throw (TypeError "Failed to fetch"),
                    mkWorld ∅ ["https://api.warframe.market/v1/items"]))
    by (vm_compute; reflexivity).
  rewrite (search_failure_shown_as_no_items toLowerCaseAscii true 0 netDown "ash"
             (mkWorld ∅ []) _ _ ltac:(discriminate) Hget).
  reflexivity.
Defined.

(** X4: [handleSearch] always ends with a message or an item, and the item it
    loads is one of the (at most 10) results of [searchItems], so it matches
    the query; it is the first result unless some result matches the query
    exactly, in name or in URL name. *)
Theorem handleSearch_loads_a_result (toLowerCase : string → string)
  (isElectron : bool) (now : Z) (net : string → NetResult) (query : string)
  (w : World) :
  ∃ outcome w',
    MarketTab.handleSearch toLowerCase isElectron now net query w = (Ret outcome, w')
    ∧ ∀ item, outcome = MarketTab.LoadItem item →
        ∃ items,
          WarframeMarketAPI.searchItems toLowerCase isElectron now net query w
          = (Ret items, w')
          ∧ item ∈ items
          ∧ WarframeMarketAPI.matchesQuery toLowerCase query item = Ret true
          ∧ (MarketTab.isExactMatch toLowerCase query item = Ret true
             ∨ head items = Some item).
Proof.
  unfold MarketTab.handleSearch.
  destruct (String.eqb query ""); [eexists _, _; split; [reflexivity | discriminate]|].
  unfold tryCatch, eff_bind, eff_lift, eff_ret.
  rewrite searchItems_run.
  set (items := match (WarframeMarketAPI.getItems isElectron now net w).1 with
                | Ret response => searchResults toLowerCase query response
                | Throw _ => []
                end).
  assert (Hmatch : ∀ item, item ∈ items →
            WarframeMarketAPI.matchesQuery toLowerCase query item = Ret true).
  { unfold items. destruct (WarframeMarketAPI.getItems isElectron now net w).1.
    - apply searchResults_match.
    - intros item H. by apply not_elem_of_nil in H. }
  destruct items as [|first rest] eqn:Hitems;
    [eexists _, _; split; [reflexivity | discriminate]|].
  remember (findExc (MarketTab.isExactMatch toLowerCase query) (first :: rest))
    as found eqn:Hfind.
  symmetry in Hfind. cbn [length Nat.eqb head default].
  destruct found as [[found|]|e];
    eexists _, _; (split; [reflexivity|]); try discriminate.
  - intros item Hitem. inversion Hitem; subst item. exists (first :: rest).
    apply findExc_Some in Hfind as [Hin Hp]. by auto.
  - intros item Hitem. inversion Hitem; subst item. exists (first :: rest).
    split; [done|]. split; [left|]. split; [apply Hmatch; left | by right].
Qed.

(** ** The recent searches *)

Section RecentFacts.
Context {Item : Type} (url_name : Item → string).

Lemma filter_other_id (item : Item) (l : list Item) :
  (∀ x, x ∈ l → url_name x ≠ url_name item) →
  List.filter (λ search, negb (String.eqb (url_name search) (url_name item))) l = l.
Proof.
  induction l as [|x l IH]; simpl; intros H; [done|].
  assert (Hx : url_name x ≠ url_name item) by (apply H; left).
  apply String.eqb_neq in Hx. rewrite Hx. simpl. f_equal.
  apply IH. intros y Hy. apply H. by right.
Qed.

Lemma filter_other_elem (item x : Item) (l : list Item) :
  x ∈ List.filter (λ search, negb (String.eqb (url_name search) (url_name item))) l →
  x ∈ l ∧ url_name x ≠ url_name item.
Proof.
  intros H. apply elem_of_filter_bool in H as [Hin Hne]. split; [done|].
  apply negb_true_iff in Hne. by apply String.eqb_neq.
Qed.

Lemma filter_other_sublist (item : Item) (l : list Item) :
  List.filter (λ search, negb (String.eqb (url_name search) (url_name item))) l
    `sublist_of` l.
Proof.
  induction l as [|x l IH]; simpl; [done|].
  destruct (negb _); [by apply sublist_skip | by apply sublist_cons].
Qed.

Lemma addToRecentSearches_cons (item : Item) (recent : list Item) :
  MarketTab.addToRecentSearches Item url_name item recent
  = item :: take 4
              (List.filter (λ search, negb (String.eqb (url_name search) (url_name item)))
                 recent).
Proof. reflexivity. Qed.

End RecentFacts.

(** X5: the recent searches after [addToRecentSearches]: at most 5 entries, the
    item just searched first, then former entries in their former order,
    none of which has the URL name of the item. *)
Theorem recent_searches_bounded_newest_first {Item : Type} (url_name : Item → string)
  (item : Item) (recent : list Item) :
  let recent' := MarketTab.addToRecentSearches Item url_name item recent in
  (length recent' ≤ 5)%nat
  ∧ head recent' = Some item
  ∧ tail recent' `sublist_of` recent
  ∧ ∀ x, x ∈ tail recent' → url_name x ≠ url_name item.
Proof.
  cbv zeta. rewrite addToRecentSearches_cons. cbn [tail head].
  split; [cbn [length]; rewrite length_take; lia|]. split; [done|]. split.
  - etrans; [apply sublist_take | apply filter_other_sublist].
  - intros x Hx. apply elem_of_take_elem in Hx.
    by apply filter_other_elem in Hx as [_ Hx].
Qed.

(** X6: when no two recent searches have the same URL name, none have after
    [addToRecentSearches]: the list is de-duplicated by URL name. *)
Theorem recent_searches_stay_distinct {Item : Type} (url_name : Item → string)
  (item : Item) (recent : list Item) :
  NoDup (url_name <$> recent) →
  NoDup (url_name <$> MarketTab.addToRecentSearches Item url_name item recent).
Proof.
  intros Hnd. rewrite addToRecentSearches_cons. rewrite fmap_cons.
  apply NoDup_cons. split.
  - intros Hin. apply list_elem_of_fmap in Hin as [x [Heq Hx]].
    apply elem_of_take_elem in Hx. apply filter_other_elem in Hx as [_ Hx]. congruence.
  - eapply sublist_NoDup; [exact Hnd|]. apply fmap_sublist.
    etrans; [apply sublist_take | apply filter_other_sublist].
Qed.

(** X7: searching the same item twice in a row leaves the recent searches as
    after the first search. *)
Theorem recent_searches_idempotent {Item : Type} (url_name : Item → string)
  (item : Item) (recent : list Item) :
  MarketTab.addToRecentSearches Item url_name item
    (MarketTab.addToRecentSearches Item url_name item recent)
  = MarketTab.addToRecentSearches Item url_name item recent.
Proof.
  rewrite !addToRecentSearches_cons. simpl.
  rewrite String.eqb_refl. simpl. f_equal.
  rewrite filter_other_id.
  - rewrite take_take. done.
  - intros x Hx. apply elem_of_take_elem in Hx.
    by apply filter_other_elem in Hx as [_ Hx].
Qed.

(** X8: with at most 5 recent searches of distinct URL names, searching one of
    them again moves it to the front and keeps all the others, in order. *)
Theorem recent_search_moves_to_front {Item : Type} (url_name : Item → string)
  (item old : Item) (before after : list Item) :
  url_name old = url_name item →
  NoDup (url_name <$> before ++ old :: after) →
  (length (before ++ old :: after) ≤ 5)%nat →
  MarketTab.addToRecentSearches Item url_name item (before ++ old :: after)
  = item :: before ++ after.
Proof.
  intros Hold Hnd Hlen. rewrite addToRecentSearches_cons. f_equal.
  rewrite fmap_app, fmap_cons in Hnd.
  apply NoDup_app in Hnd as (_ & Hba & Hnd'). apply NoDup_cons in Hnd' as [Hoa _].
  rewrite List.filter_app. simpl. rewrite Hold, String.eqb_refl. simpl.
  rewrite !filter_other_id.
  - apply take_ge. rewrite length_app in *. simpl in Hlen. lia.
  - intros x Hx Heq. apply Hoa. rewrite Hold, <- Heq. apply list_elem_of_fmap. eauto.
  - intros x Hx Heq. apply (Hba (url_name x)).
    + apply list_elem_of_fmap. eauto.
    + rewrite Heq, <- Hold. left.
Qed.

Lemma recent_searches_stay_distinct_witness :
  NoDup (id <$> MarketTab.addToRecentSearches string id "b" ["a"; "b"; "c"]).
Proof.
  apply (recent_searches_stay_distinct id "b" ["a"; "b"; "c"]).
  refine (bool_decide_unpack _ _). vm_compute. exact I.
Defined.

Lemma recent_search_moves_to_front_witness :
  MarketTab.addToRecentSearches string id "c" (["a"; "b"] ++ "c" :: ["d"; "e"])
  = "c" :: ["a"; "b"] ++ ["d"; "e"].
Proof.
  apply (recent_search_moves_to_front id "c" "c" ["a"; "b"] ["d"; "e"]).
  - reflexivity.
  - refine (bool_decide_unpack _ _). vm_compute. exact I.
  - simpl. lia.
Defined.


(** ** The order filter *)

Lemma nextFilter_other (orderFilter : string) :
  orderFilter ≠ "all" → orderFilter ≠ "sell" → orderFilter ≠ "buy" →
  MarketTab.nextFilter orderFilter = "all".
Proof.
  intros H1 H2 H3. unfold MarketTab.nextFilter, MarketTab.filters. simpl.
  repeat (case_decide; [congruence|]). simpl. reflexivity.
Qed.

(** X9: [handleFilterToggle] always leaves one of the three filters, whatever
    the filter was; from one of the three it moves to a different one, in
    the order all, sell, buy, and three toggles come back to it. The table
    is drawn again with the new filter when orders are loaded. *)
Theorem filter_toggle_cycles (orderFilter : string) (currentOrders : option (list Order.t)) :
  let toggled := (MarketTab.handleFilterToggle orderFilter currentOrders).1 in
  toggled ∈ MarketTab.filters
  ∧ (MarketTab.handleFilterToggle orderFilter currentOrders).2
    = Ranking.displayOrders toggled <$> currentOrders
  ∧ (orderFilter ∈ MarketTab.filters →
     toggled ≠ orderFilter
     ∧ MarketTab.nextFilter (MarketTab.nextFilter toggled) = orderFilter)
  ∧ (orderFilter ∉ MarketTab.filters → toggled = "all")
  ∧ MarketTab.nextFilter "all" = "sell"
  ∧ MarketTab.nextFilter "sell" = "buy"
  ∧ MarketTab.nextFilter "buy" = "all".
Proof.
  cbv zeta. unfold MarketTab.handleFilterToggle. cbn [fst snd].
  assert (Hcases : orderFilter = "all" ∨ orderFilter = "sell" ∨ orderFilter = "buy"
                   ∨ (orderFilter ≠ "all" ∧ orderFilter ≠ "sell" ∧ orderFilter ≠ "buy")).
  { destruct (decide (orderFilter = "all")); [auto|].
    destruct (decide (orderFilter = "sell")); [auto|].
    destruct (decide (orderFilter = "buy")); [auto|]. right. right. right. auto. }
  assert (Hin : ∀ f, f ∈ MarketTab.filters ↔ f = "all" ∨ f = "sell" ∨ f = "buy").
  { intros f. unfold MarketTab.filters. rewrite !elem_of_cons, elem_of_nil. tauto. }
  split; [|split; [done|split; [|split; [|done]]]].
  - apply Hin. destruct Hcases as [-> | [-> | [-> | (H1 & H2 & H3)]]];
      rewrite ?nextFilter_other by done; vm_compute; auto.
  - intros Hmem. destruct Hcases as [-> | [-> | [-> | (H1 & H2 & H3)]]].
    + split; [discriminate | reflexivity].
    + split; [discriminate | reflexivity].
    + split; [discriminate | reflexivity].
    + apply Hin in Hmem. exfalso. destruct Hmem as [? | [? | ?]]; done.
  - intros Hnot. apply nextFilter_other; intros ->; apply Hnot, Hin; auto.
Qed.

(** ** The pricing summary and the statistics *)

Section StatisticsFacts.
Import MarketTab.

Lemma minOf_spec (p : Z) (ps : list Z) :
  minOf p ps ∈ p :: ps ∧ ∀ x, x ∈ p :: ps → minOf p ps ≤ x.
Proof.
  unfold minOf. revert p. induction ps as [|q ps IH]; intros p; simpl.
  - split; [left|]. intros x Hx. apply list_elem_of_singleton in Hx. lia.
  - destruct (IH (Z.min p q)) as [Hin Hle]. split.
    + apply elem_of_cons in Hin as [Heq | Hin]; [|by do 2 right].
      rewrite Heq. destruct (Z.min_spec p q) as [[_ ->] | [_ ->]]; [left | right; left].
    + intros x Hx. apply elem_of_cons in Hx as [-> | Hx].
      * etrans; [apply Hle; left|]. lia.
      * apply elem_of_cons in Hx as [-> | Hx].
        -- etrans; [apply Hle; left|]. lia.
        -- apply Hle. by right.
Qed.

Lemma maxOf_spec (p : Z) (ps : list Z) :
  maxOf p ps ∈ p :: ps ∧ ∀ x, x ∈ p :: ps → x ≤ maxOf p ps.
Proof.
  unfold maxOf. revert p. induction ps as [|q ps IH]; intros p; simpl.
  - split; [left|]. intros x Hx. apply list_elem_of_singleton in Hx. lia.
  - destruct (IH (Z.max p q)) as [Hin Hle]. split.
    + apply elem_of_cons in Hin as [Heq | Hin]; [|by do 2 right].
      rewrite Heq. destruct (Z.max_spec p q) as [[_ ->] | [_ ->]]; [right; left | left].
    + intros x Hx. apply elem_of_cons in Hx as [-> | Hx].
      * etrans; [|apply Hle; left]. lia.
      * apply elem_of_cons in Hx as [-> | Hx].
        -- etrans; [|apply Hle; left]. lia.
        -- apply Hle. by right.
Qed.

Lemma sum_between (a b : Z) (l : list Z) (acc : Z) :
  (∀ x, x ∈ l → a ≤ x ≤ b) →
  acc + a * Z.of_nat (length l) ≤ fold_left Z.add l acc
  ∧ fold_left Z.add l acc ≤ acc + b * Z.of_nat (length l).
Proof.
  revert acc. induction l as [|x l IH]; intros acc H; simpl; [lia|].
  assert (Hx : a ≤ x ≤ b) by (apply H; left).
  destruct (IH (acc + x)) as [Hlo Hhi]; [intros y Hy; apply H; by right|].
  split; lia.
Qed.

Lemma roundDiv_between (a b sum n : Z) :
  0 < n → a * n ≤ sum → sum ≤ b * n → a ≤ roundDiv sum n ≤ b.
Proof.
  intros Hn Hlo Hhi. unfold roundDiv. split.
  - apply Z.div_le_lower_bound; lia.
  - apply Z.lt_succ_r. apply Z.div_lt_upper_bound; lia.
Qed.

Lemma byPriceDesc_sorted (l : list Order.t) :
  StronglySorted (λ a b, Order.platinum b ≤ Order.platinum a)
    (jsSort (λ a b, Order.platinum b - Order.platinum a) l).
Proof.
  eapply StronglySorted_impl;
    [|apply (jsSort_sorted (λ a b, Order.platinum b - Order.platinum a))].
  - intros a b. unfold cmpBefore. lia.
  - intros a b. lia.
  - intros a b c. lia.
Qed.

Lemma byPriceAsc_sorted (l : list Order.t) :
  StronglySorted (λ a b, Order.platinum a ≤ Order.platinum b)
    (jsSort (λ a b, Order.platinum a - Order.platinum b) l).
Proof.
  eapply StronglySorted_impl;
    [|apply (jsSort_sorted (λ a b, Order.platinum a - Order.platinum b))].
  - intros a b. unfold cmpBefore. lia.
  - intros a b. lia.
  - intros a b c. lia.
Qed.

(** The head of a sorted arrangement of the orders that satisfy [keep]. *)
Lemma head_of_sorted (R : Order.t → Order.t → Prop) (cmp : Order.t → Order.t → Z)
  (keep : Order.t → bool) (orders : list Order.t) :
  (∀ a, R a a) →
  StronglySorted R (jsSort cmp (List.filter keep orders)) →
  match head (jsSort cmp (List.filter keep orders)) with
  | Some best =>
      best ∈ orders ∧ keep best = true
      ∧ ∀ o, o ∈ orders → keep o = true → R best o
  | None => ∀ o, o ∈ orders → keep o = false
  end.
Proof.
  intros Hrefl Hsorted.
  pose proof (jsSort_perm cmp (List.filter keep orders)) as Hperm.
  destruct (jsSort cmp (List.filter keep orders)) as [|best rest]; simpl.
  - intros o Ho. destruct (keep o) eqn:Hk; [|done].
    assert (o ∈ List.filter keep orders) by (by apply elem_of_filter_bool).
    rewrite <- Hperm in H. by apply not_elem_of_nil in H.
  - assert (Hbest : best ∈ List.filter keep orders) by (rewrite <- Hperm; left).
    apply elem_of_filter_bool in Hbest as [Hin Hk]. split; [done|]. split; [done|].
    intros o Ho Hko.
    assert (Hmem : o ∈ best :: rest)
      by (rewrite Hperm; by apply elem_of_filter_bool).
    apply StronglySorted_inv in Hsorted as [_ Hall].
    apply elem_of_cons in Hmem as [-> | Hmem]; [apply Hrefl|].
    rewrite Forall_forall in Hall. by apply Hall.
Qed.

End StatisticsFacts.

(** X10: the statistics of an item: the minimum and the maximum are taken over
    the positive prices of all orders, each of which lies between them, and
    the rounded average lies between them too; without a positive price the
    three are 0. The total counts every order. *)
Theorem statistics_average_between_extremes (buyOrders sellOrders orders : list Order.t) :
  let stats := MarketTab.updateStatistics buyOrders sellOrders orders in
  MarketTab.minPrice stats ≤ MarketTab.avgPrice stats ≤ MarketTab.maxPrice stats
  ∧ MarketTab.totalOrders stats = length orders
  ∧ (∀ o, o ∈ orders → 0 < Order.platinum o →
       0 < MarketTab.minPrice stats ≤ Order.platinum o
       ∧ Order.platinum o ≤ MarketTab.maxPrice stats)
  ∧ ((∀ o, o ∈ orders → Order.platinum o ≤ 0) →
     MarketTab.minPrice stats = 0 ∧ MarketTab.avgPrice stats = 0
     ∧ MarketTab.maxPrice stats = 0).
Proof.
  cbv zeta. unfold MarketTab.updateStatistics. cbn [MarketTab.minPrice
    MarketTab.maxPrice MarketTab.avgPrice MarketTab.totalOrders].
  set (prices := List.filter (λ price, 0 <? price) (Order.platinum <$> orders)).
  assert (Hprices : ∀ x, x ∈ prices ↔ 0 < x ∧ ∃ o, o ∈ orders ∧ Order.platinum o = x).
  { intros x. unfold prices. rewrite elem_of_filter_bool, list_elem_of_fmap, Z.ltb_lt.
    split; [intros [(o & -> & Ho) Hpos]; eauto | intros [Hpos (o & Ho & <-)]; eauto]. }
  destruct prices as [|p ps] eqn:Hp.
  - split; [simpl; lia|]. split; [done|]. split.
    + intros o Ho Hpos. exfalso.
      apply (not_elem_of_nil (Order.platinum o)). apply Hprices. eauto.
    + done.
  - destruct (minOf_spec p ps) as [Hminin Hmin].
    destruct (maxOf_spec p ps) as [Hmaxin Hmax].
    split; [|split; [done|split]].
    + cbn [length Nat.ltb Nat.leb]. 
      destruct (sum_between (MarketTab.minOf p ps) (MarketTab.maxOf p ps) (p :: ps) 0)
        as [Hlo Hhi]; [intros x Hx; split; auto|].
      cbn [length] in Hlo, Hhi. apply roundDiv_between; lia.
    + intros o Ho Hpos.
      assert (Hin : Order.platinum o ∈ p :: ps) by (apply Hprices; eauto).
      apply Hprices in Hminin as [Hminpos _].
      split; [split; [done | by apply Hmin] | by apply Hmax].
    + intros Hnone. exfalso.
      assert (Hpin : p ∈ p :: ps) by left.
      apply Hprices in Hpin as [Hpos (o & Ho & Heq)]. specialize (Hnone o Ho). lia.
Qed.

(** X11: the pricing summary of [displayItemData]: the highest buy price is the
    greatest price of all the buy orders and the lowest sell price the least
    price of all the sell orders, offline users included; a side without
    orders shows no price. *)
Theorem summary_prices_are_extremes (orders : list Order.t) :
  match MarketTab.highestBuy orders with
  | Some price =>
      (∃ o, o ∈ orders ∧ MarketTab.isBuy o = true ∧ Order.platinum o = price)
      ∧ ∀ o, o ∈ orders → MarketTab.isBuy o = true → Order.platinum o ≤ price
  | None => ∀ o, o ∈ orders → MarketTab.isBuy o = false
  end
  ∧ match MarketTab.lowestSell orders with
    | Some price =>
        (∃ o, o ∈ orders ∧ MarketTab.isSell o = true ∧ Order.platinum o = price)
        ∧ ∀ o, o ∈ orders → MarketTab.isSell o = true → price ≤ Order.platinum o
    | None => ∀ o, o ∈ orders → MarketTab.isSell o = false
    end.
Proof.
  unfold MarketTab.highestBuy, MarketTab.lowestSell, MarketTab.buyOrders,
    MarketTab.sellOrders. split.
  - pose proof (head_of_sorted _ _ MarketTab.isBuy orders
                  (λ a, Z.le_refl (Order.platinum a)) (byPriceDesc_sorted _)) as H.
    destruct (head _) as [best|]; simpl; [|done].
    destruct H as (Hin & Hk & Hall). split; [by exists best|]. exact Hall.
  - pose proof (head_of_sorted _ _ MarketTab.isSell orders
                  (λ a, Z.le_refl (Order.platinum a)) (byPriceAsc_sorted _)) as H.
    destruct (head _) as [best|]; simpl; [|done].
    destruct H as (Hin & Hk & Hall). split; [by exists best|]. exact Hall.
Qed.

(** An offline seller at 10 sets the lowest sell price of the summary, but
    is not in the ranked table. *)
Example summary_counts_offline_orders :
  let orders := Ranking.order "offline" "sell" 10 :: Ranking.twoSellers in
  MarketTab.lowestSell orders = Some 10
  ∧ Ranking.rankedSell "all" orders
    = [Ranking.order "ingame" "sell" 60; Ranking.order "online" "sell" 50]
  ∧ MarketTab.statistics orders = MarketTab.mkStatistics 3 10 60 40 1 0.
Proof. vm_compute. repeat split. Qed.

(** ** Invariants of the alerts tab *)

Section Invariants.
Import WarframeMarketApp.

Lemma mapValues_mapSet {V} (k : string) (v x : V) (m : JsMap V) :
  x ∈ mapValues (mapSet k v m) → x = v ∨ x ∈ mapValues m.
Proof.
  unfold mapValues. induction m as [|[k' v'] m IH]; simpl.
  - intros H. apply list_elem_of_singleton in H. by left.
  - destruct (String.eqb k' k); simpl; intros H;
      apply elem_of_cons in H as [-> | H']; auto.
    + right. by right.
    + right. by left.
    + destruct (IH H'); auto. right. by right.
Qed.

Lemma timeInSeconds_nonneg now d : 0 ≤ timeInSeconds now d.
Proof. unfold timeInSeconds. destruct (Cycle.expiry d); lia. Qed.

Lemma reconcileCycle_values now cycle timers x :
  x ∈ mapValues (reconcileCycle now cycle timers) →
  0 ≤ seconds x ∨ x ∈ mapValues timers.
Proof.
  unfold reconcileCycle. destruct cycle.2 as [d|]; [|auto].
  case_match; [|auto]. intros Hx. apply mapValues_mapSet in Hx as [-> | Hx]; [|auto].
  left. simpl. apply timeInSeconds_nonneg.
Qed.

Lemma mapCycles_values (nows : string → Z) l timers x :
  x ∈ mapValues (mapCycles nows l timers).2 →
  0 ≤ seconds x ∨ x ∈ mapValues timers.
Proof.
  revert timers. induction l as [|c l IH]; intros timers; [auto|].
  rewrite mapCycles_cons. destruct (renders c); cbn [snd]; intros Hx.
  - apply IH in Hx as [Hx | Hx]; [auto|]. by apply reconcileCycle_values in Hx.
  - by apply reconcileCycle_values in Hx.
Qed.

(** A loop that, at each index, sets one key or leaves the map. *)
Lemma forEachIndexed_values {A} (f : nat → A → JsMap Timer → JsMap Timer)
  (P : Timer → Prop) (l : list A) (index : nat) (timers : JsMap Timer) (x : Timer) :
  (∀ i a m y, y ∈ mapValues (f i a m) → P y ∨ y ∈ mapValues m) →
  x ∈ mapValues (forEachIndexed f index l timers) →
  P x ∨ x ∈ mapValues timers.
Proof.
  intros Hf. revert index timers.
  induction l as [|a l IH]; intros index timers; simpl; [auto|].
  intros H. apply IH in H as [H | H]; [auto|]. by apply Hf in H.
Qed.

Lemma displayAlert_values now i alert m y :
  y ∈ mapValues (displayAlert now i alert m) → 0 < seconds y ∨ y ∈ mapValues m.
Proof.
  unfold displayAlert. destruct (0 <? _) eqn:Hpos; [|auto].
  intros H. apply mapValues_mapSet in H as [-> | H]; [|auto].
  left. simpl. by apply Z.ltb_lt.
Qed.

Lemma displayFissure_values now i fissure m y :
  y ∈ mapValues (displayFissure now i fissure m) → 0 < seconds y ∨ y ∈ mapValues m.
Proof.
  unfold displayFissure. destruct (Fissure.expiry fissure) as [e|]; [|auto].
  destruct (0 <? _) eqn:Hpos; [|auto].
  intros H. apply mapValues_mapSet in H as [-> | H]; [|auto].
  left. simpl. by apply Z.ltb_lt.
Qed.

Lemma mapValues_ticked (m : JsMap Timer) :
  mapValues (prod_map id ticked <$> m) = ticked <$> mapValues m.
Proof.
  unfold mapValues. rewrite <- !list_fmap_compose. apply list_fmap_ext.
  by intros i [k t] _.
Qed.

Lemma ticked_nonneg t : 0 ≤ seconds t → 0 ≤ seconds (ticked t).
Proof.
  unfold ticked. destruct (0 <? seconds t) eqn:Hpos; [|done].
  apply Z.ltb_lt in Hpos. simpl. lia.
Qed.

Lemma trackedTimers_elem app x :
  x ∈ trackedTimers app
  ↔ ∃ kind, x ∈ mapValues (registry kind app).
Proof.
  unfold trackedTimers. rewrite !elem_of_app. split.
  - intros [H | [H | H]];
      [by exists CycleKind | by exists AlertKind | by exists FissureKind].
  - intros [[] H]; auto.
Qed.

Lemma step_secondsNonNegative st ev :
  secondsNonNegative st.1 → secondsNonNegative (step st ev).1.
Proof.
  destruct st as [app dom]. unfold secondsNonNegative. simpl.
  intros Hinv x Hx. apply trackedTimers_elem in Hx as [kind Hx].
  assert (Hold : ∀ kind y, y ∈ mapValues (registry kind app) → 0 ≤ seconds y).
  { intros k y Hy. apply Hinv. apply trackedTimers_elem. by exists k. }
  assert (Hkeep : ∀ app' : App,
            (∀ k, registry k app' = registry k app) →
            x ∈ mapValues (registry kind app') → 0 ≤ seconds x).
  { intros app' Hsame Hx'. rewrite Hsame in Hx'. eauto. }
  destruct ev; simpl in Hx.
  - rewrite updateTimers_registry, mapValues_ticked in Hx.
    apply list_elem_of_fmap in Hx as (y & -> & Hy). apply ticked_nonneg. eauto.
  - refine (Hkeep _ _ Hx). intros []; unfold runTimeout; by destruct (timeouts app).
  - refine (Hkeep _ _ Hx).
    intros []; unfold alertsRefreshCheck; by destruct (shouldRefresh now app).
  - unfold displayCycles in Hx.
    destruct (cyclesContainer app); cbn [negb snd] in Hx; [|eauto].
    pose proof (mapCycles_values nows (cycles worldState) (cycleTimers app) x) as Hv.
    destruct (mapCycles nows (cycles worldState) (cycleTimers app)) as [result timers].
    destruct kind;
      cbn [snd registry withCycleTimers cycleTimers alertTimers fissureTimers] in Hx, Hv;
      [|by apply (Hold AlertKind) | by apply (Hold FissureKind)].
    apply Hv in Hx as [Hx | Hx]; [done|]. by apply (Hold CycleKind).
  - unfold displayAlerts in Hx. destruct (alertsContainer app); simpl in Hx; [|eauto].
    destruct (length (alerts worldState) =? 0)%nat; simpl in Hx.
    + destruct kind; simpl in Hx;
        [by apply (Hold CycleKind) | by apply not_elem_of_nil in Hx
         | by apply (Hold FissureKind)].
    + destruct kind; simpl in Hx;
        [by apply (Hold CycleKind) | | by apply (Hold FissureKind)].
      eapply (forEachIndexed_values _ (λ y, 0 < seconds y)) in Hx.
      * destruct Hx as [Hx | Hx]; [lia | by apply not_elem_of_nil in Hx].
      * intros i a m y. apply displayAlert_values.
  - refine (Hkeep _ _ Hx). by intros [].
  - unfold displayFissureDetails in Hx.
    destruct (currentWorldState app) as [ws|]; [|eauto].
    destruct (length (fissures ws) =? 0)%nat; [eauto|].
    destruct kind; simpl in Hx;
      [by apply (Hold CycleKind) | by apply (Hold AlertKind) |].
    eapply (forEachIndexed_values _ (λ y, 0 < seconds y)) in Hx.
    + destruct Hx as [Hx | Hx]; [lia | by apply not_elem_of_nil in Hx].
    + intros i a m y. apply displayFissure_values.
  - refine (Hkeep _ _ Hx). by intros [].
Qed.

Lemma step_refreshInvariant st ev :
  refreshInvariant st.1 → refreshInvariant (step st ev).1.
Proof.
  destruct st as [app dom]. simpl. intros Hinv. destruct ev; simpl.
  - by apply updateTimers_invariant.
  - by apply runTimeout_invariant.
  - unfold alertsRefreshCheck. by destruct (shouldRefresh now app).
  - unfold displayCycles. destruct (cyclesContainer app); cbn [negb]; [|done].
    by destruct (mapCycles nows (cycles worldState) (cycleTimers app)).
  - unfold displayAlerts. destruct (alertsContainer app); simpl; [|done].
    by destruct (length (alerts worldState) =? 0)%nat.
  - done.
  - unfold displayFissureDetails. destruct (currentWorldState app) as [ws|]; [|done].
    by destruct (length (fissures ws) =? 0)%nat.
  - done.
Qed.

Lemma run_invariants events st :
  secondsNonNegative st.1 → refreshInvariant st.1 →
  secondsNonNegative (run events st).1 ∧ refreshInvariant (run events st).1.
Proof.
  unfold run. revert st. induction events as [|ev events IH]; intros st Hs Hr; simpl.
  - done.
  - apply IH; [by apply step_secondsNonNegative | by apply step_refreshInvariant].
Qed.

End Invariants.

(** X12: whatever the ticks, timeouts, refresh checks and displays of world
    states that follow one another, in any order, no tracked timer ever has
    a negative number of seconds, and the refresh mark agrees with the
    outstanding timeouts, so that at most one corrective refresh is
    outstanding at any time. *)
Theorem alerts_tab_invariants (events : list Event) (app : App) (dom : Dom) :
  secondsNonNegative app →
  refreshInvariant app →
  secondsNonNegative (run events (app, dom)).1
  ∧ refreshInvariant (run events (app, dom)).1
  ∧ (length (timeouts (run events (app, dom)).1) ≤ 1)%nat.
Proof.
  intros Hs Hr.
  destruct (run_invariants events (app, dom) Hs Hr) as [Hs' Hr'].
  split; [done|]. split; [done|].
  unfold refreshInvariant in Hr'. rewrite Hr'.
  destruct (pendingRefresh _); simpl; lia.
Qed.

Lemma alerts_tab_invariants_witness :
  secondsNonNegative (run sampleEvents (emptyApp, ∅)).1
  ∧ refreshInvariant (run sampleEvents (emptyApp, ∅)).1
  ∧ (length (timeouts (run sampleEvents (emptyApp, ∅)).1) ≤ 1)%nat.
Proof.
  apply (alerts_tab_invariants sampleEvents emptyApp ∅).
  - intros timer H. vm_compute in H. by apply not_elem_of_nil in H.
  - reflexivity.
Defined.

Example sampleEvents_run :
  let app := (run sampleEvents (emptyApp, ∅)).1 in
  alertTimers app = [("alert-0", mkTimer 0 (ExpiryInfo 1000000))]
  ∧ timeouts app = [15000] ∧ loadAlertsDataCalls app = 1%nat.
Proof. vm_compute. repeat split. Qed.

(** ** The registries after a refresh *)

Section Registries.
Import WarframeMarketApp.







End Registries.





(** ** What the ticks leave alone *)

Lemma updateTimers_timeouts app dom :
  (timeouts (WarframeMarketApp.updateTimers app dom).1 = timeouts app
   ∧ pendingRefresh (WarframeMarketApp.updateTimers app dom).1 = pendingRefresh app)
  ∨ (pendingRefresh app = false
     ∧ timeouts (WarframeMarketApp.updateTimers app dom).1 = timeouts app ++ [15000]
     ∧ pendingRefresh (WarframeMarketApp.updateTimers app dom).1 = true).
Proof.
  rewrite updateTimers_fst. cbv zeta.
  destruct (pendingRefresh app) eqn:Hp.
  - left. rewrite andb_false_r. simpl. done.
  - rewrite andb_true_r. case_match; simpl; auto.
Qed.

(** X15: any number of ticks in a row, from any state, hands at most one callback
    to [setTimeout], and then with a delay of 15000 ms; the ticks never call
    [loadAlertsData] themselves, and they leave the recorded refresh
    instant and the current tab as they are. *)
Theorem ticks_schedule_at_most_one_refresh (n : nat) (app : App) (dom : Dom) :
  let app' := (WarframeMarketApp.ticks n app dom).1 in
  (timeouts app' = timeouts app ∨ timeouts app' = timeouts app ++ [15000])
  ∧ loadAlertsDataCalls app' = loadAlertsDataCalls app
  ∧ lastRefresh app' = lastRefresh app
  ∧ currentMainTab app' = currentMainTab app.
Proof.
  cbv zeta. destruct (ticks_frame n app dom) as (Htab & Hcalls & Hlast).
  split; [|done]. clear Htab Hcalls Hlast.
  revert app dom. induction n as [|n IH]; intros app dom; simpl; [by left|].
  destruct (updateTimers_timeouts app dom) as [[Ht Hp] | (Hp & Ht & Hp')].
  - specialize (IH (WarframeMarketApp.updateTimers app dom).1
                   (WarframeMarketApp.updateTimers app dom).2).
    destruct (WarframeMarketApp.updateTimers app dom) as [app1 dom1]. simpl in *.
    by rewrite <- Ht.
  - destruct (ticks_while_pending n (WarframeMarketApp.updateTimers app dom).1
                (WarframeMarketApp.updateTimers app dom).2 Hp') as [Hn _].
    destruct (WarframeMarketApp.updateTimers app dom) as [app1 dom1]. simpl in *.
    right. by rewrite Hn.
Qed.

(** ** Durations *)

Section Durations.
Import WarframeMarketApp.

Lemma append_nil_l (s : string) : "" +:+ s = s.
Proof. reflexivity. Qed.

Lemma append_cons (c : Ascii.ascii) (a b : string) :
  String c a +:+ b = String c (a +:+ b).
Proof. reflexivity. Qed.

Lemma append_assoc (a b c : string) : (a +:+ b) +:+ c = a +:+ (b +:+ c).
Proof.
  induction a as [|x a IH]; [reflexivity|].
  rewrite !append_cons. by rewrite IH.
Qed.

Lemma pretty_digit (d : N) :
  (d < 10)%N →
  isDigit (pretty_N_char d) = true ∧ digitValue (pretty_N_char d) = Z.of_N d.
Proof.
  intros Hd.
  assert (d = 0 ∨ d = 1 ∨ d = 2 ∨ d = 3 ∨ d = 4 ∨ d = 5 ∨ d = 6 ∨ d = 7 ∨ d = 8
          ∨ d = 9)%N as Hcase by lia.
  repeat (destruct Hcase as [-> | Hcase]; [by vm_compute|]). subst. by vm_compute.
Qed.

Lemma pretty_N_go_app (x : N) (s : string) :
  pretty_N_go x s = pretty_N_go x "" +:+ s.
Proof.
  revert s. induction (N.lt_wf_0 x) as [x _ IH]; intros s.
  assert (x = 0 ∨ 0 < x)%N as [-> | Hpos] by lia; [by rewrite !pretty_N_go_0|].
  rewrite !(pretty_N_go_step x) by done.
  rewrite (IH (x `div` 10)%N) by (by apply N.div_lt).
  rewrite (IH (x `div` 10)%N ltac:(by apply N.div_lt) (String _ "")).
  by rewrite append_assoc.
Qed.

Lemma parseTimeGo_digits (x : N) (s : string) (total : Z) :
  (0 < x)%N →
  parseTimeGo (pretty_N_go x s) None total = parseTimeGo s (Some (Z.of_N x)) total.
Proof.
  revert s. induction (N.lt_wf_0 x) as [x _ IH]; intros s Hpos.
  rewrite pretty_N_go_step by done.
  destruct (pretty_digit (x `mod` 10)%N) as [Hdig Hval]; [by apply N.mod_lt|].
  destruct (N.eq_0_gt_0_cases (x `div` 10)) as [Hz | Hq].
  - rewrite Hz, pretty_N_go_0. cbn [parseTimeGo]. rewrite Hdig, Hval. f_equal. f_equal.
    cbn [from_option id]. pose proof (N.div_mod x 10 ltac:(lia)). lia.
  - rewrite IH by (done || by apply N.div_lt).
    cbn [parseTimeGo]. rewrite Hdig, Hval. f_equal. f_equal. cbn [from_option id].
    pose proof (N.div_mod x 10 ltac:(lia)). lia.
Qed.

Lemma pretty_Z_pos (z : Z) : 0 < z → pretty z = pretty_N_go (Z.to_N z) "".
Proof. destruct z as [|p|p]; try lia. intros _. reflexivity. Qed.

(** A number and its unit add their seconds to the total. *)
Lemma parseTimeGo_component (z : Z) (u : Ascii.ascii) (unit : Z) (rest : string)
  (total : Z) :
  0 < z → isDigit u = false → unitSeconds u = Some unit →
  parseTimeGo (pretty z +:+ String u rest) None total
  = parseTimeGo rest None (total + z * unit).
Proof.
  intros Hz Hu Hunit. rewrite pretty_Z_pos by done.
  rewrite <- pretty_N_go_app, parseTimeGo_digits by lia.
  cbn [parseTimeGo]. rewrite Hu, Hunit. f_equal. lia.
Qed.

Lemma isSpace_neither (c : Ascii.ascii) :
  isSpace c = true → isDigit c = false ∧ unitSeconds c = None.
Proof.
  destruct c as [[] [] [] [] [] [] [] []]; vm_compute; intros H;
    (discriminate H || by split).
Qed.

Lemma parseTimeGo_trimStart (s : string) (total : Z) :
  parseTimeGo (trimStart s) None total = parseTimeGo s None total.
Proof.
  induction s as [|c s IH]; [done|]. cbn [trimStart].
  destruct (isSpace c) eqn:Hc; [|done].
  destruct (isSpace_neither c Hc) as [Hd Hu]. cbn [parseTimeGo]. by rewrite Hd, IH.
Qed.

Lemma parseTimeGo_trimEnd (s : string) (run : option Z) (total : Z) :
  parseTimeGo (trimEnd s) run total = parseTimeGo s run total.
Proof.
  revert run total. induction s as [|c s IH]; intros run total; [done|].
  cbn [trimEnd]. destruct (isSpace c && String.eqb (trimEnd s) "") eqn:Hc.
  - apply andb_true_iff in Hc as [Hc He]. apply String.eqb_eq in He.
    destruct (isSpace_neither c Hc) as [Hd Hu]. cbn [parseTimeGo]. rewrite Hd.
    assert (parseTimeGo s None total = total) as Hrest
      by (rewrite <- IH, He; reflexivity).
    destruct run; by rewrite ?Hu, Hrest.
  - cbn [parseTimeGo]. destruct (isDigit c); [apply IH|].
    destruct run, (unitSeconds c); apply IH.
Qed.

Lemma parseTimeString_go (s : string) : parseTimeString s = parseTimeGo s None 0.
Proof. unfold parseTimeString. destruct (String.eqb_spec s ""); by subst. Qed.

Lemma parseTimeString_trim (s : string) :
  parseTimeString (trim s) = parseTimeGo s None 0.
Proof.
  rewrite parseTimeString_go. unfold trim.
  by rewrite parseTimeGo_trimEnd, parseTimeGo_trimStart.
Qed.

Lemma append_not_empty (a : string) (c : Ascii.ascii) (b : string) :
  String.eqb (a +:+ String c b) "" = false.
Proof. apply String.eqb_neq. by destruct a. Qed.

Lemma parse_format (seconds : Z) :
  parseTimeString (formatTimeFromSeconds seconds) = Z.max 0 seconds.
Proof.
  unfold formatTimeFromSeconds.
  destruct (seconds <=? 0) eqn:Hle.
  { apply Z.leb_le in Hle. rewrite Z.max_l by done. reflexivity. }
  apply Z.leb_gt in Hle. rewrite Z.max_r by lia. cbv zeta.
  rewrite parseTimeString_trim.
  set (hours := seconds / 3600).
  set (minutes := Z.rem seconds 3600 / 60).
  set (secs := Z.rem seconds 60).
  assert (Hsum : hours * 3600 + minutes * 60 + secs = seconds
                 ∧ 0 ≤ hours ∧ 0 ≤ minutes ∧ 0 ≤ secs).
  { unfold hours, minutes, secs. rewrite !Z.rem_mod_nonneg by lia.
    pose proof (Z.div_mod seconds 3600 ltac:(lia)).
    pose proof (Z.mod_pos_bound seconds 3600 ltac:(lia)).
    pose proof (Z.div_mod (seconds `mod` 3600) 60 ltac:(lia)).
    pose proof (Z.mod_pos_bound (seconds `mod` 3600) 60 ltac:(lia)).
    pose proof (Z.div_mod seconds 60 ltac:(lia)).
    pose proof (Z.mod_pos_bound seconds 60 ltac:(lia)).
    assert (0 ≤ seconds / 3600) by (apply Z.div_pos; lia).
    assert (0 ≤ seconds `mod` 3600 / 60) by (apply Z.div_pos; lia).
    lia. }
  destruct Hsum as (Hsum & Hh & Hm & Hs).
  clearbody hours minutes secs.
  assert (Hspace : ∀ rest total,
            parseTimeGo (String (Ascii.ascii_of_nat 32) rest) None total
            = parseTimeGo rest None total) by reflexivity.
  assert (Hend : ∀ total, parseTimeGo "" None total = total) by reflexivity.
  destruct (Z.ltb_spec 0 hours) as [Hhp | Hhp];
    destruct (Z.ltb_spec 0 minutes) as [Hmp | Hmp];
    destruct (Z.ltb_spec 0 secs) as [Hsp | Hsp];
    cbn [orb];
    repeat (rewrite append_nil_l || rewrite append_assoc || rewrite append_cons);
    rewrite ?append_not_empty, ?String.eqb_refl;
    rewrite ?(parseTimeGo_component hours _ (60 * 60)) by (done || reflexivity);
    rewrite ?Hspace;
    rewrite ?(parseTimeGo_component minutes _ 60) by (done || reflexivity);
    rewrite ?Hspace;
    rewrite ?(parseTimeGo_component secs _ 1) by (done || reflexivity);
    rewrite ?Hend; lia.
Qed.

End Durations.

(** X16: reading back what [formatTimeFromSeconds] wrote gives the seconds
    again: [parseTimeString (formatTimeFromSeconds s)] is [s] for a positive
    [s], and 0 otherwise, the text then being ['Expired']. *)
Theorem duration_format_then_parse (seconds : Z) :
  parseTimeString (WarframeMarketApp.formatTimeFromSeconds seconds) = Z.max 0 seconds.
Proof. apply parse_format. Qed.

(** X17: two different positive numbers of seconds are never shown as the same
    text, and a positive number of seconds is never shown as ['Expired']. *)
Theorem duration_text_distinguishes (a b : Z) :
  0 < a → 0 < b →
  (WarframeMarketApp.formatTimeFromSeconds a = WarframeMarketApp.formatTimeFromSeconds b → a = b)
  ∧ WarframeMarketApp.formatTimeFromSeconds a ≠ "Expired".
Proof.
  intros Ha Hb. split.
  - intros Heq. pose proof (parse_format a) as Hpa. pose proof (parse_format b) as Hpb.
    rewrite Heq in Hpa. lia.
  - intros Heq. pose proof (parse_format a) as Hpa. rewrite Heq in Hpa.
    assert (Hexp : parseTimeString "Expired" = 0) by reflexivity.
    rewrite Hexp in Hpa. lia.
Qed.

Lemma duration_text_distinguishes_witness :
  (WarframeMarketApp.formatTimeFromSeconds 3600 = WarframeMarketApp.formatTimeFromSeconds 60
   → 3600 = 60)
  ∧ WarframeMarketApp.formatTimeFromSeconds 3600 ≠ "Expired".
Proof. apply (duration_text_distinguishes 3600 60); lia. Defined.

Example parseTimeString_samples :
  parseTimeString "44m 10s" = 2650 ∧ parseTimeString "1h 23m" = 4980
  ∧ parseTimeString "1d 2h" = 93600 ∧ parseTimeString "" = 0
  ∧ parseTimeString "12" = 0 ∧ parseTimeString "1x2h" = 7200.
Proof. vm_compute. repeat split. Qed.

(** ** The intervals of the alerts tab *)

Section IntervalFacts.
Import Intervals.

Lemma stopAlertsRefresh_tracked page :
  tracked page →
  tracked (stopAlertsRefresh page) ∧ alertsRefreshInterval (stopAlertsRefresh page) = None
  ∧ timerUpdateInterval (stopAlertsRefresh page) = timerUpdateInterval page
  ∧ app (stopAlertsRefresh page) = app page.
Proof.
  intros Ht. pose proof Ht as [Hmap Hdist Hfresh]. unfold stopAlertsRefresh.
  destruct (alertsRefreshInterval page) as [h|] eqn:Ha; [|by auto].
  split; [|done]. split; simpl.
  - unfold referred in *. rewrite Ha in Hmap. simpl in *. rewrite Hmap.
    rewrite (left_id_L ∅ (∪)).
    destruct (timerUpdateInterval page) as [j|] eqn:Hj; simpl.
    + assert (h ≠ j) by (by apply Hdist).
      apply map_eq. intros k. destruct (decide (k = h)) as [-> | Hne].
      * rewrite lookup_delete_eq. by rewrite lookup_singleton_ne.
      * rewrite lookup_delete_ne by done. rewrite lookup_union_r; [done|].
        by rewrite lookup_singleton_ne.
    + rewrite (right_id_L ∅ (∪)). apply delete_singleton_eq.
  - discriminate.
  - intros k [x Hk]. apply Hfresh.
    destruct (decide (k = h)) as [-> | Hne]; [by rewrite lookup_delete_eq in Hk|].
    rewrite lookup_delete_ne in Hk by done. eauto.
Qed.

Lemma stopTimerUpdates_tracked page :
  tracked page →
  tracked (stopTimerUpdates page) ∧ timerUpdateInterval (stopTimerUpdates page) = None
  ∧ alertsRefreshInterval (stopTimerUpdates page) = alertsRefreshInterval page
  ∧ app (stopTimerUpdates page) = app page.
Proof.
  intros Ht. pose proof Ht as [Hmap Hdist Hfresh]. unfold stopTimerUpdates.
  destruct (timerUpdateInterval page) as [h|] eqn:Hj; [|by auto].
  split; [|done]. split; simpl.
  - unfold referred in *. rewrite Hj in Hmap. simpl in *. rewrite Hmap.
    rewrite (right_id_L ∅ (∪)).
    destruct (alertsRefreshInterval page) as [i|] eqn:Hi; simpl.
    + assert (i ≠ h) by (by apply Hdist).
      apply map_eq. intros k. destruct (decide (k = h)) as [-> | Hne].
      * rewrite lookup_delete_eq. by rewrite lookup_singleton_ne.
      * rewrite lookup_delete_ne by done. rewrite lookup_union_l; [done|].
        by rewrite lookup_singleton_ne.
    + rewrite (left_id_L ∅ (∪)). apply delete_singleton_eq.
  - discriminate.
  - intros k [x Hk]. apply Hfresh.
    destruct (decide (k = h)) as [-> | Hne]; [by rewrite lookup_delete_eq in Hk|].
    rewrite lookup_delete_ne in Hk by done. eauto.
Qed.

Lemma referred_handle_fresh page h :
  tracked page →
  alertsRefreshInterval page = Some h ∨ timerUpdateInterval page = Some h →
  (h < nextHandle page)%positive.
Proof.
  intros [Hmap Hdist Hfresh] Hh. apply Hfresh. rewrite Hmap. unfold referred.
  destruct Hh as [-> | ->]; simpl.
  - exists 60000. apply lookup_union_Some_l. apply lookup_singleton_eq.
  - destruct (alertsRefreshInterval page) as [i|] eqn:Hi; simpl.
    + destruct (decide (i = h)) as [-> | Hne].
      * exists 60000. apply lookup_union_Some_l. apply lookup_singleton_eq.
      * exists 1000. rewrite lookup_union_r by (by apply lookup_singleton_ne).
        apply lookup_singleton_eq.
    + exists 1000. rewrite (left_id_L ∅ (∪)). apply lookup_singleton_eq.
Qed.

Lemma startAlertsRefresh_tracked page :
  tracked page →
  tracked (startAlertsRefresh page)
  ∧ alertsRefreshInterval (startAlertsRefresh page) = Some (nextHandle page)
  ∧ timerUpdateInterval (startAlertsRefresh page) = timerUpdateInterval page
  ∧ app (startAlertsRefresh page) = app page.
Proof.
  intros Ht. destruct (stopAlertsRefresh_tracked page Ht) as (Hs & Hnone & Hj & Happ).
  assert (Hnext : nextHandle (stopAlertsRefresh page) = nextHandle page).
  { unfold stopAlertsRefresh. by destruct (alertsRefreshInterval page). }
  unfold startAlertsRefresh. simpl. rewrite Hnext.
  split; [|by rewrite ?Hj, ?Happ]. 
  pose proof Hs as [Hmap Hdist Hfresh]. split; simpl.
  - unfold referred in *. simpl. rewrite Hmap, Hnone. simpl.
    rewrite (left_id_L ∅ (∪)). apply insert_union_singleton_l.
  - intros i j Hi Hjj. inversion Hi; subst i.
    assert (j < nextHandle (stopAlertsRefresh page))%positive
      by (apply (referred_handle_fresh _ _ Hs); by right).
    lia.
  - intros k [x Hk]. destruct (decide (k = nextHandle page)) as [-> | Hne]; [lia|].
    rewrite lookup_insert_ne in Hk by done.
    assert (k < nextHandle (stopAlertsRefresh page))%positive by (apply Hfresh; eauto).
    lia.
Qed.

Lemma startTimerUpdates_tracked page :
  tracked page →
  tracked (startTimerUpdates page)
  ∧ timerUpdateInterval (startTimerUpdates page) = Some (nextHandle page)
  ∧ alertsRefreshInterval (startTimerUpdates page) = alertsRefreshInterval page
  ∧ app (startTimerUpdates page) = app page.
Proof.
  intros Ht. destruct (stopTimerUpdates_tracked page Ht) as (Hs & Hnone & Hi & Happ).
  assert (Hnext : nextHandle (stopTimerUpdates page) = nextHandle page).
  { unfold stopTimerUpdates. by destruct (timerUpdateInterval page). }
  unfold startTimerUpdates. simpl. rewrite Hnext.
  split; [|by rewrite ?Hi, ?Happ].
  pose proof Hs as [Hmap Hdist Hfresh]. split; simpl.
  - unfold referred in *. simpl. rewrite Hmap, Hnone. simpl.
    rewrite (right_id_L ∅ (∪)).
    destruct (alertsRefreshInterval (stopTimerUpdates page)) as [i|] eqn:Hii; simpl.
    + assert (i < nextHandle (stopTimerUpdates page))%positive
        by (apply (referred_handle_fresh _ _ Hs); by left).
      apply map_eq. intros k. destruct (decide (k = nextHandle page)) as [-> | Hne].
      * rewrite lookup_insert_eq. rewrite lookup_union_r;
          [by rewrite lookup_singleton_eq | apply lookup_singleton_ne; lia].
      * rewrite lookup_insert_ne by done.
        destruct (decide (k = i)) as [-> | Hne'].
        -- by rewrite lookup_singleton_eq, (lookup_union_Some_l _ _ _ 60000)
             by apply lookup_singleton_eq.
        -- rewrite lookup_singleton_ne by done.
           rewrite lookup_union_r by (by apply lookup_singleton_ne).
           by rewrite lookup_singleton_ne.
    + rewrite (left_id_L ∅ (∪)). apply insert_empty.
  - intros i j Hii Hjj. inversion Hjj; subst j.
    assert (i < nextHandle (stopTimerUpdates page))%positive
      by (apply (referred_handle_fresh _ _ Hs); by left).
    lia.
  - intros k [x Hk]. destruct (decide (k = nextHandle page)) as [-> | Hne]; [lia|].
    rewrite lookup_insert_ne in Hk by done.
    assert (k < nextHandle (stopTimerUpdates page))%positive by (apply Hfresh; eauto).
    lia.
Qed.

Lemma switchMainTab_tab tabName page :
  currentMainTab (app (switchMainTab tabName page)) = tabName.
Proof.
  unfold switchMainTab. destruct (String.eqb tabName "alerts").
  - unfold startTimerUpdates, startAlertsRefresh, stopTimerUpdates, stopAlertsRefresh.
    simpl. by repeat case_match.
  - unfold stopTimerUpdates, stopAlertsRefresh. simpl. by repeat case_match.
Qed.

Lemma tracked_app a page :
  tracked page →
  tracked (mkPage a (alertsRefreshInterval page) (timerUpdateInterval page)
             (intervals page) (nextHandle page)).
Proof. intros [Hmap Hdist Hfresh]. by split. Qed.

Lemma tracked_both page i j :
  tracked page → alertsRefreshInterval page = Some i → timerUpdateInterval page = Some j →
  i ≠ j ∧ intervals page = {[ i := 60000 ]} ∪ {[ j := 1000 ]}.
Proof.
  intros [Hmap Hdist Hfresh] Hi Hj. split; [by apply Hdist|].
  rewrite Hmap. unfold referred. by rewrite Hi, Hj.
Qed.

Lemma tracked_none page :
  tracked page → alertsRefreshInterval page = None → timerUpdateInterval page = None →
  intervals page = ∅.
Proof.
  intros [Hmap Hdist Hfresh] Hi Hj. rewrite Hmap. unfold referred.
  rewrite Hi, Hj. simpl. apply (left_id_L ∅ (∪)).
Qed.

Lemma switchMainTab_tracked tabName page :
  tracked page →
  tracked (switchMainTab tabName page) ∧
  if String.eqb tabName "alerts"
  then is_Some (alertsRefreshInterval (switchMainTab tabName page))
       ∧ is_Some (timerUpdateInterval (switchMainTab tabName page))
  else alertsRefreshInterval (switchMainTab tabName page) = None
       ∧ timerUpdateInterval (switchMainTab tabName page) = None.
Proof.
  intros Ht. apply (tracked_app (enterTab tabName (app page))) in Ht.
  unfold switchMainTab. destruct (String.eqb tabName "alerts").
  - destruct (startAlertsRefresh_tracked _ Ht) as (Ha & Hi & _ & _).
    destruct (startTimerUpdates_tracked _ Ha) as (Hb & Hj & Hi' & _).
    split; [done|]. rewrite Hj, Hi', Hi. eauto.
  - destruct (stopAlertsRefresh_tracked _ Ht) as (Ha & Hi & _ & _).
    destruct (stopTimerUpdates_tracked _ Ha) as (Hb & Hj & Hi' & _).
    split; [done|]. by rewrite Hj, Hi', Hi.
Qed.

Lemma settled_fields page :
  settled page →
  if String.eqb (currentMainTab (app page)) "alerts"
  then is_Some (alertsRefreshInterval page) ∧ is_Some (timerUpdateInterval page)
  else alertsRefreshInterval page = None ∧ timerUpdateInterval page = None.
Proof.
  intros [Ht Hs]. pose proof Ht as [Hmap Hdist Hfresh].
  rewrite Hmap in Hs. unfold referred in Hs.
  destruct (String.eqb (currentMainTab (app page)) "alerts").
  - destruct Hs as (i & j & Hij & Hs).
    destruct (alertsRefreshInterval page) as [i'|], (timerUpdateInterval page) as [j'|];
      simpl in Hs; [eauto| | |].
    + rewrite (right_id_L ∅ (∪)) in Hs.
      assert (Hl : ({[i' := 60000]} : gmap positive Z) !! j = Some 1000)
        by (rewrite Hs; rewrite lookup_union_r by (by apply lookup_singleton_ne);
            apply lookup_singleton_eq).
      apply lookup_singleton_Some in Hl. by destruct Hl.
    + rewrite (left_id_L ∅ (∪)) in Hs.
      assert (Hl : ({[j' := 1000]} : gmap positive Z) !! i = Some 60000)
        by (rewrite Hs; apply lookup_union_Some_l, lookup_singleton_eq).
      apply lookup_singleton_Some in Hl. by destruct Hl.
    + rewrite (left_id_L ∅ (∪)) in Hs.
      assert (Hl : (∅ : gmap positive Z) !! i = Some 60000)
        by (rewrite Hs; apply lookup_union_Some_l, lookup_singleton_eq).
      by rewrite lookup_empty in Hl.
  - destruct (alertsRefreshInterval page) as [i'|]; simpl in Hs.
    + assert (Hl : (∅ : gmap positive Z) !! i' = Some 60000)
        by (rewrite <- Hs; apply lookup_union_Some_l, lookup_singleton_eq).
      by rewrite lookup_empty in Hl.
    + destruct (timerUpdateInterval page) as [j'|]; simpl in Hs; [|done].
      rewrite (left_id_L ∅ (∪)) in Hs.
      assert (Hl : (∅ : gmap positive Z) !! j' = Some 1000)
        by (rewrite <- Hs; apply lookup_singleton_eq).
      by rewrite lookup_empty in Hl.
Qed.

Lemma fields_settled page :
  tracked page →
  (if String.eqb (currentMainTab (app page)) "alerts"
   then is_Some (alertsRefreshInterval page) ∧ is_Some (timerUpdateInterval page)
   else alertsRefreshInterval page = None ∧ timerUpdateInterval page = None) →
  settled page.
Proof.
  intros Ht Hf. split; [done|].
  destruct (String.eqb (currentMainTab (app page)) "alerts").
  - destruct Hf as [[i Hi] [j Hj]]. exists i, j. by apply tracked_both.
  - destruct Hf as [Hi Hj]. by apply tracked_none.
Qed.

Lemma pageStep_settled page event : settled page → settled (pageStep page event).
Proof.
  intros Hs. pose proof (settled_fields _ Hs) as Hf. destruct Hs as [Ht _].
  destruct event as [tabName|]; simpl.
  - destruct (switchMainTab_tracked tabName page Ht) as [Ht' Hf'].
    apply fields_settled; [done|]. by rewrite switchMainTab_tab.
  - unfold afterLoad.
    destruct (String.eqb (currentMainTab (app page)) "alerts") eqn:Htab.
    + destruct (startTimerUpdates_tracked _ Ht) as (Ht' & Hj & Hi & Happ).
      apply fields_settled; [done|]. rewrite Happ, Htab, Hj, Hi.
      split; [tauto | eauto].
    + apply fields_settled; [done|]. by rewrite Htab.
Qed.

End IntervalFacts.

(** X18: whatever tabs the user picks and whenever the world states asked for
    arrive, the page stays settled: on the alerts tab exactly two
    intervals run, the check of every 60000 ms and the tick of every
    1000 ms; on any other tab none runs, also when a world state arrives
    after the user has left the alerts tab.  No interval is ever left
    running without its handle in [alertsRefreshInterval] or
    [timerUpdateInterval]. *)
Theorem intervals_follow_the_tab page events :
  Intervals.settled page → Intervals.settled (Intervals.pageRun page events).
Proof.
  unfold Intervals.pageRun. revert page.
  induction events as [|event events IH]; intros page Hs; [done|].
  simpl. apply IH. by apply pageStep_settled.
Qed.

Lemma intervals_follow_the_tab_witness :
  Intervals.settled Intervals.initialPage ∧
  Intervals.settled
    (Intervals.pageRun Intervals.initialPage
       [Intervals.MainTabClicked "alerts"; Intervals.WorldStateLoaded;
        Intervals.MainTabClicked "market"; Intervals.WorldStateLoaded]).
Proof.
  assert (Hs : Intervals.settled Intervals.initialPage).
  { split; [split|]; [reflexivity | discriminate | | reflexivity].
    intros handle [x Hx]. simpl in Hx. by rewrite lookup_empty in Hx. }
  split; [exact Hs|]. exact (intervals_follow_the_tab _ _ Hs).
Defined.

(** ** The main process *)

Section Substrings.

Lemma startsWith_spec (needle hay : string) :
  startsWith needle hay = true ↔ ∃ b, hay = needle +:+ b.
Proof.
  revert hay. induction needle as [|x needle IH]; intros hay.
  - split; [by exists hay|done].
  - destruct hay as [|y hay]; cbn [startsWith].
    + split; [done|]. intros [b Hb]. by rewrite append_cons in Hb.
    + destruct (Ascii.eqb_spec x y) as [-> | Hne].
      * rewrite IH. split; intros [b Hb]; exists b.
        -- by rewrite append_cons, Hb.
        -- rewrite append_cons in Hb. by inversion Hb.
      * split; [done|]. intros [b Hb]. rewrite append_cons in Hb. by inversion Hb.
Qed.

Lemma includes_spec (hay needle : string) :
  includes hay needle = true ↔ ∃ a b, hay = a +:+ needle +:+ b.
Proof.
  induction hay as [|y hay IH]; cbn [includes].
  - rewrite orb_false_r, startsWith_spec. split.
    + intros [b Hb]. by exists "", b.
    + intros (a & b & Hab). exists b. destruct a; [done|]. by rewrite append_cons in Hab.
  - rewrite orb_true_iff, IH, startsWith_spec. split.
    + intros [[b Hb] | (a & b & Hab)].
      * by exists "", b.
      * exists (String y a), b. by rewrite append_cons, Hab.
    + intros (a & b & Hab). destruct a as [|x a].
      * left. by exists b.
      * right. exists a, b. rewrite append_cons in Hab. by inversion Hab.
Qed.

End Substrings.

(** X19: a certificate that failed its check is trusted exactly when the text
    of the URL has [warframe.market] somewhere in it, in the host, the
    path or the query; the second test of the handler, for
    [api.warframe.market], never decides.  The handler prevents the default
    answer exactly when it trusts the certificate. *)
Theorem certificate_trusted_iff_url_mentions_market url :
  (MainProcess.trusted (MainProcess.certificateError url) = true
   ↔ ∃ a b, url = a +:+ "warframe.market" +:+ b)
  ∧ MainProcess.defaultPrevented (MainProcess.certificateError url)
    = MainProcess.trusted (MainProcess.certificateError url).
Proof.
  unfold MainProcess.certificateError.
  assert (Himp : includes url "api.warframe.market" = true →
                 includes url "warframe.market" = true).
  { rewrite !includes_spec. intros (a & b & ->). exists (a +:+ "api."), b.
    by rewrite !append_assoc. }
  rewrite <- includes_spec.
  destruct (includes url "warframe.market") eqn:Hm; simpl; [done|].
  destruct (includes url "api.warframe.market"); simpl; [|done].
  by specialize (Himp eq_refl).
Qed.

(** X20: the handler of [will-navigate] stops a navigation exactly when the
    URL parses, its origin is not [file://] and its host has no
    [warframe.market] in it: a host that only contains that text, before
    or after other labels, is let through, and for a text that does not
    parse the handler throws before it can stop anything. *)
Theorem navigation_stopped_iff (parseURL : string → Exc MainProcess.URL) navigationUrl :
  MainProcess.willNavigate parseURL navigationUrl = Ret true
  ↔ ∃ parsedUrl, parseURL navigationUrl = Ret parsedUrl
      ∧ MainProcess.origin parsedUrl ≠ "file://"
      ∧ ∀ a b, MainProcess.host parsedUrl ≠ a +:+ "warframe.market" +:+ b.
Proof.
  unfold MainProcess.willNavigate.
  destruct (parseURL navigationUrl) as [parsedUrl|e]; simpl.
  - destruct (String.eqb_spec (MainProcess.origin parsedUrl) "file://") as [Ho | Ho];
      simpl.
    + split; [done|]. intros (p & Hp & Hne & _). by inversion Hp; subst.
    + destruct (includes (MainProcess.host parsedUrl) "warframe.market") eqn:Hh; simpl.
      * split; [done|]. intros (p & Hp & _ & Hhost). inversion Hp; subst p.
        apply includes_spec in Hh as (a & b & Hab). by destruct (Hhost a b).
      * split; [|done]. intros _. exists parsedUrl. split; [done|]. split; [done|].
        intros a b Hab.
        assert (includes (MainProcess.host parsedUrl) "warframe.market" = true)
          by (apply includes_spec; eauto).
        congruence.
  - split; [done|]. by intros (p & Hp & _).
Qed.

Example navigation_to_lookalike_host_allowed :
  MainProcess.willNavigate
    (λ _, Ret (MainProcess.mkURL "https://warframe.market.example.com"
                 "warframe.market.example.com"))
    "https://warframe.market.example.com/" = Ret false.
Proof. reflexivity. Qed.

(** ** The location of an alert *)

Section LocationFacts.
Import Location.

Lemma digitOf_pretty (d : N) :
  (d < 10)%N → digitOf 10 (pretty_N_char d) = Some (Z.of_N d).
Proof.
  intros Hd.
  assert (d = 0 ∨ d = 1 ∨ d = 2 ∨ d = 3 ∨ d = 4 ∨ d = 5 ∨ d = 6 ∨ d = 7 ∨ d = 8
          ∨ d = 9)%N as Hcase by lia.
  repeat (destruct Hcase as [-> | Hcase]; [by vm_compute|]). subst. by vm_compute.
Qed.

Lemma parseDigits_pretty (x : N) (s : string) :
  (0 < x)%N →
  parseDigits 10 (pretty_N_go x s) None = parseDigits 10 s (Some (Z.of_N x)).
Proof.
  revert s. induction (N.lt_wf_0 x) as [x _ IH]; intros s Hpos.
  rewrite pretty_N_go_step by done.
  pose proof (digitOf_pretty (x `mod` 10)%N ltac:(by apply N.mod_lt)) as Hdig.
  pose proof (N.div_mod x 10 ltac:(lia)).
  destruct (N.eq_0_gt_0_cases (x `div` 10)) as [Hz | Hq].
  - rewrite Hz, pretty_N_go_0. cbn [parseDigits]. rewrite Hdig. f_equal. f_equal.
    cbn [from_option id]. lia.
  - rewrite IH by (done || by apply N.div_lt).
    cbn [parseDigits]. rewrite Hdig. f_equal. f_equal. cbn [from_option id]. lia.
Qed.

(** A decimal numeral starts with a digit, and no [x] follows it. *)
Lemma pretty_N_shape (n : N) :
  ∃ c rest, pretty n = String c rest ∧ is_Some (digitOf 10 c)
    ∧ startsWith "x" rest = false ∧ startsWith "X" rest = false.
Proof.
  assert (Hgo : ∀ x s, (0 < x)%N →
            (startsWith "x" s = false ∧ startsWith "X" s = false) →
            ∃ c rest, pretty_N_go x s = String c rest ∧ is_Some (digitOf 10 c)
              ∧ startsWith "x" rest = false ∧ startsWith "X" rest = false).
  { intros x. induction (N.lt_wf_0 x) as [x _ IH]; intros s Hpos Hs.
    rewrite pretty_N_go_step by done.
    pose proof (digitOf_pretty (x `mod` 10)%N ltac:(by apply N.mod_lt)) as Hdig.
    destruct (N.eq_0_gt_0_cases (x `div` 10)) as [Hz | Hq].
    - rewrite Hz, pretty_N_go_0. eexists _, _. split; [done|]. by rewrite Hdig.
    - apply IH; [by apply N.div_lt | done |].
      cbn [startsWith].
      destruct (pretty_N_char (x `mod` 10)) as [[] [] [] [] [] [] [] []];
        (done || by vm_compute in Hdig). }
  unfold pretty, pretty_N. case_decide as Hn.
  - subst. by eexists _, _.
  - apply Hgo; [lia|done].
Qed.

Lemma digit_not_space (c : Ascii.ascii) :
  is_Some (digitOf 10 c) →
  isSpace c = false ∧ Ascii.eqb c (Ascii.ascii_of_nat 45) = false
  ∧ Ascii.eqb c (Ascii.ascii_of_nat 43) = false.
Proof.
  destruct c as [[] [] [] [] [] [] [] []]; vm_compute; intros [v Hv];
    (discriminate Hv || done).
Qed.

Lemma parseInt_pretty (n : N) : parseInt (pretty n) = Some (Z.of_N n).
Proof.
  destruct (pretty_N_shape n) as (c & rest & Hshape & Hc & Hx & HX).
  destruct (digit_not_space c Hc) as (Hsp & Hminus & Hplus).
  unfold parseInt. rewrite Hshape. cbn [trimStart]. rewrite Hsp, Hminus, Hplus.
  assert (Hprefix : startsWith "0x" (String c rest) || startsWith "0X" (String c rest)
                    = false).
  { cbn [startsWith] in *. destruct (Ascii.eqb _ c); [|done].
    apply orb_false_iff. split; [exact Hx | exact HX]. }
  rewrite Hprefix. rewrite <- Hshape.
  assert (Hval : parseDigits 10 (pretty n) None = Some (Z.of_N n)).
  { unfold pretty, pretty_N. case_decide as Hn; [by subst|].
    rewrite parseDigits_pretty by lia. done. }
  rewrite Hval. simpl. f_equal. lia.
Qed.

Lemma mapGet_elem {V} (k : string) (v : V) (m : JsMap V) :
  mapGet k m = Some v → v ∈ mapValues m.
Proof.
  unfold mapValues. induction m as [|[k' v'] m IH]; [done|]. cbn [mapGet].
  case_match; intros Hv.
  - inversion Hv; subst. simpl. apply list_elem_of_here.
  - simpl. apply list_elem_of_further. auto.
Qed.

Lemma nodeMap_names (name : string) :
  name ∈ mapValues nodeMap → String.eqb name "" = false ∧ startsWith "SolNode" name = false.
Proof.
  intros Hin.
  assert (Hall : Forall (λ name, String.eqb name "" = false
                                 ∧ startsWith "SolNode" name = false)
                   (mapValues nodeMap)) by (vm_compute; repeat constructor).
  by apply (proj1 (Forall_forall _ _) Hall).
Qed.

End LocationFacts.

(** X21: the location shown for the node [SolNode<n>], for every number [n]:
    the name of the table when the table has the node; otherwise the node
    itself with, in brackets, the planet at position [n / 50] of the list
    of thirteen planets, and [Unknown Planet] from 650 on. *)
Theorem numbered_node_label (n : N) :
  Location.nodeLabel ("SolNode" +:+ pretty n) =
  match mapGet ("SolNode" +:+ pretty n) Location.nodeMap with
  | Some name => name
  | None =>
      "SolNode" +:+ pretty n +:+ " (" +:+
      (if (n <? 650)%N then default "" (Location.planets !! N.to_nat (n `div` 50))
       else "Unknown Planet") +:+ ")"
  end.
Proof.
  unfold Location.nodeLabel.
  destruct (mapGet ("SolNode" +:+ pretty n) Location.nodeMap) as [name|] eqn:Hget.
  - apply mapGet_elem, nodeMap_names in Hget as [Hne Hsol]. by rewrite Hne, Hsol.
  - assert (Hstart : startsWith "SolNode" ("SolNode" +:+ pretty n) = true)
      by (apply startsWith_spec; eauto).
    rewrite Hstart. cbv zeta.
    assert (Hnum : Location.removeFirst "SolNode" ("SolNode" +:+ pretty n) = pretty n).
    { destruct (pretty n); reflexivity. }
    rewrite Hnum, parseInt_pretty, (append_assoc "SolNode"). f_equal. f_equal. f_equal.
    f_equal. cbn [option_map Location.planetOf].
    assert (Hle : (0 <=? (Z.of_N n `div` 50)) = true)
      by (apply Z.leb_le; apply Z.div_pos; lia).
    rewrite Hle.
    assert (Hidx : Z.to_nat (Z.of_N n `div` 50) = N.to_nat (n `div` 50)).
    { change 50 with (Z.of_N 50). rewrite <- (N2Z.inj_div n 50).
      by rewrite <- Z_N_nat, N2Z.id. }
    rewrite Hidx.
    destruct (N.ltb_spec n 650) as [Hlt | Hge].
    + assert (N.to_nat (n `div` 50) < 13)%nat as Hi.
      { assert (n `div` 50 < 13)%N by (apply N.Div0.div_lt_upper_bound; lia). lia. }
      destruct (Location.planets !! N.to_nat (n `div` 50)) eqn:Hp; [done|].
      apply lookup_ge_None in Hp. simpl in Hp. lia.
    + assert (13 ≤ N.to_nat (n `div` 50))%nat as Hi.
      { assert (13 ≤ n `div` 50)%N by (apply N.div_le_lower_bound; lia). lia. }
      rewrite (proj2 (lookup_ge_None Location.planets _)); [done|]. simpl. lia.
Qed.

Example unknown_planet_label :
  Location.nodeLabel "SolNode999" = "SolNode999 (Unknown Planet)"
  ∧ Location.nodeLabel "SolNode451" = "Europa Station"
  ∧ Location.nodeLabel "SolNode452" = "SolNode452 (Pluto)"
  ∧ Location.nodeLabel "Unknown Location" = "Unknown Location".
Proof. by vm_compute. Qed.

(** ** Loading the orders of an item *)

Section ItemViewFacts.
Import ItemView.
Context {Item : Type} (url_name item_name : Item → string).
Context (render : Item → JsVal → Exc unit).

Lemma loadItemData_run isElectron now net item s :
  let fetch := WarframeMarketAPI.getItemOrders isElectron now net (url_name item)
                 (world s) in
  loadItemData Item url_name item_name render isElectron now net item s =
  match (let? response := fetch.1 in
         let? orders := ordersOf response in
         let? _ := render item orders in Ret orders) with
  | Ret orders =>
      (Ret tt,
       mkMarket fetch.2 (Some item) (Some orders)
         (MarketTab.addToRecentSearches Item url_name item (recentSearches s)) Results)
  | Throw _ =>
      (Ret tt,
       mkMarket fetch.2 (Some item)
         (match (let? response := fetch.1 in ordersOf response) with
          | Ret orders => Some orders
          | Throw _ => currentOrders s
          end)
         (recentSearches s)
         (ErrorShown ("Failed to load data for " +:+ item_name item)))
  end.
Proof.
  cbv zeta. unfold loadItemData, displayItemData, show, api, ordersOf, tryCatch,
    eff_bind, eff_modify, eff_lift, eff_gets, eff_ret, exc_bind. simpl.
  destruct (WarframeMarketAPI.getItemOrders isElectron now net (url_name item) (world s))
    as [[response|e] w]; simpl; [|done].
  destruct (getProp response "payload") as [payload|e]; simpl; [|done].
  destruct (getProp payload "orders") as [orders|e]; simpl; [|done].
  by destruct (render item orders) as [[]|e].
Qed.

End ItemViewFacts.

(** X22: [loadItemData] never throws and always remembers the item as the
    current one, so that a retry loads the same item again.  It ends in one
    of two ways: the results are shown, the orders shown are stored and the
    item is the first of the recent searches; or the error message of the
    item is shown and the recent searches are as they were. *)
Theorem loadItemData_outcome {Item : Type} (url_name item_name : Item → string)
  (render : Item → JsVal → Exc unit) isElectron now net (item : Item)
  (s : ItemView.Market Item) :
  let load := ItemView.loadItemData Item url_name item_name render isElectron now net item in
  (load s).1 = Ret tt
  ∧ ItemView.currentItem (load s).2 = Some item
  ∧ (∀ handleSearch now' net',
       ItemView.handleRetry Item url_name item_name render handleSearch isElectron now' net'
         (load s).2
       = ItemView.loadItemData Item url_name item_name render isElectron now' net' item
           (load s).2)
  ∧ ((ItemView.view (load s).2 = ItemView.Results
      ∧ ItemView.recentSearches (load s).2
        = MarketTab.addToRecentSearches Item url_name item (ItemView.recentSearches s)
      ∧ head (ItemView.recentSearches (load s).2) = Some item
      ∧ ∃ orders, ItemView.currentOrders (load s).2 = Some orders
                  ∧ render item orders = Ret tt)
     ∨ (ItemView.view (load s).2
        = ItemView.ErrorShown ("Failed to load data for " +:+ item_name item)
        ∧ ItemView.recentSearches (load s).2 = ItemView.recentSearches s)).
Proof.
  cbv zeta.
  assert (Hcur : ItemView.currentItem
            (ItemView.loadItemData Item url_name item_name render isElectron now net item
               s).2 = Some item
          ∧ (ItemView.loadItemData Item url_name item_name render isElectron now net item
               s).1 = Ret tt).
  { rewrite loadItemData_run. cbv zeta. by case_match. }
  destruct Hcur as [Hcur Hret]. split; [done|]. split; [done|]. split.
  { intros handleSearch now' net'. unfold ItemView.handleRetry, eff_bind, eff_gets.
    by rewrite Hcur. }
  rewrite loadItemData_run. cbv zeta.
  destruct (WarframeMarketAPI.getItemOrders isElectron now net (url_name item)
              (ItemView.world s)) as [[response|e] w]; simpl; [|by right].
  destruct (ItemView.ordersOf response) as [orders|e]; simpl; [|by right].
  destruct (render item orders) as [[]|e] eqn:Hr; simpl; [|by right].
  left. split; [done|]. split; [done|]. split; [|by eauto].
  unfold MarketTab.addToRecentSearches. reflexivity.
Qed.

(** X23: orders that were fetched before are shown when the request fails,
    however old they are: the failure of the network does not reach the
    page. *)
Theorem cached_orders_shown_when_request_fails {Item : Type}
  (url_name item_name : Item → string) (render : Item → JsVal → Exc unit)
  isElectron now net (item : Item) (s : ItemView.Market Item) entry orders :
  let url := WarframeMarketAPI.baseURL isElectron +:+ "/items/" +:+ url_name item
             +:+ "/orders" in
  let s' := (ItemView.loadItemData Item url_name item_name render isElectron now net item
               s).2 in
  cache (ItemView.world s) !! url = Some entry →
  ((∃ e, net url = Rejected e) ∨ (∃ r, net url = Resolved r ∧ ok r = false)) →
  ItemView.ordersOf (data entry) = Ret orders →
  render item orders = Ret tt →
  ItemView.view s' = ItemView.Results
  ∧ ItemView.currentOrders s' = Some orders
  ∧ cache (ItemView.world s') = cache (ItemView.world s).
Proof.
  cbv zeta. intros Hentry Hfail Horders Hrender.
  rewrite loadItemData_run. cbv zeta. unfold WarframeMarketAPI.getItemOrders.
  destruct (market_failure_falls_back now net _ (ItemView.world s) entry Hentry Hfail)
    as (w' & Hfetch & Hcache).
  rewrite Hfetch. simpl. rewrite Horders. simpl. rewrite Hrender. simpl. done.
Qed.

Lemma cached_orders_shown_when_request_fails_witness :
  let s' := (ItemView.loadItemData string id id (λ _ _, Ret tt) true 999999999 netDown
               "ash_prime_set" ItemView.sampleMarket).2 in
  ItemView.view s' = ItemView.Results
  ∧ ItemView.currentOrders s' = Some (VArr [])
  ∧ cache (ItemView.world s') = cache (ItemView.world ItemView.sampleMarket).
Proof.
  refine (cached_orders_shown_when_request_fails id id (λ _ _, Ret tt) true 999999999
            netDown "ash_prime_set" ItemView.sampleMarket
            (mkEntry ItemView.sampleOrders 0) (VArr []) _ _ _ _).
  - reflexivity.
  - left. eexists. reflexivity.
  - reflexivity.
  - reflexivity.
Defined.

(** ** Utils.debounce *)

Section DebounceFacts.
Import Utils.
Context {Args : Type} (wait : Z).

Lemma debounceRun_snoc (events : list (DebounceEvent Args)) event :
  debounceRun Args wait (events ++ [event])
  = debounceStep Args wait (debounceRun Args wait events) event.
Proof. unfold debounceRun. by rewrite fold_left_app. Qed.

Lemma invocations_snoc (events : list (DebounceEvent Args)) event :
  invocations Args (events ++ [event])
  = invocations Args events ++
    match event with Invoked _ _ args => [args] | Fired _ _ => [] end.
Proof. unfold invocations. rewrite omap_app. by destruct event. Qed.

Lemma clearTimeout_only (d : Debounced Args) :
  (∀ handle, is_Some (timers Args d !! handle) → timeout Args d = Some handle) →
  clearTimeout Args (timeout Args d) (timers Args d) = ∅.
Proof.
  intros Hone. apply map_eq. intros h. rewrite lookup_empty.
  destruct (clearTimeout Args (timeout Args d) (timers Args d) !! h) as [x|] eqn:Hx;
    [|done].
  unfold clearTimeout in Hx. destruct (timeout Args d) as [h'|] eqn:Ht.
  - destruct (decide (h = h')) as [-> | Hne]; [by rewrite lookup_delete_eq in Hx|].
    rewrite lookup_delete_ne in Hx by done.
    specialize (Hone h ltac:(eauto)). congruence.
  - specialize (Hone h ltac:(eauto)). congruence.
Qed.

Lemma debounce_invariant (events : list (DebounceEvent Args)) :
  let d := debounceRun Args wait events in
  (∀ handle, is_Some (timers Args d !! handle) → timeout Args d = Some handle)
  ∧ calls Args d ++ waiting Args d `sublist_of` invocations Args events.
Proof.
  cbv zeta. induction events as [|event events IH] using rev_ind.
  - split; [|done]. intros handle [x Hx]. unfold debounceRun in Hx.
    cbn [fold_left timers] in Hx. by rewrite lookup_empty in Hx.
  - destruct IH as [Hone Hsub]. rewrite debounceRun_snoc, invocations_snoc.
    set (d := debounceRun Args wait events) in *.
    destruct event as [now args | handle]; cbn [debounceStep].
    + unfold executedFunction. rewrite (clearTimeout_only d Hone).
      split; cbn [timers timeout calls nextTimer].
      * intros handle [x Hx]. apply lookup_insert_Some in Hx as [[-> _] | [_ Hx]]; [done|].
        by rewrite lookup_empty in Hx.
      * unfold waiting. cbn [timers timeout calls nextTimer]. rewrite lookup_insert_eq.
        apply sublist_app; [|done].
        etrans; [|exact Hsub]. by apply sublist_inserts_r.
    + rewrite (right_id_L [] (++)). unfold later.
      destruct (timers Args d !! handle) as [[due args]|] eqn:Hh; [|done].
      pose proof (Hone handle ltac:(eauto)) as Ht. split; cbn [timers timeout calls nextTimer].
      * rewrite Ht. cbn [clearTimeout]. intros h [x Hx].
        rewrite !lookup_delete_Some in Hx. destruct Hx as (_ & _ & Hx).
        specialize (Hone h ltac:(eauto)). naive_solver.
      * unfold waiting. cbn [timers timeout calls nextTimer]. rewrite Ht.
        cbn [clearTimeout]. rewrite lookup_delete_eq.
        rewrite (right_id_L [] (++)). unfold waiting in Hsub.
        by rewrite Ht, Hh in Hsub.
Qed.

End DebounceFacts.

(** X24: whatever the invocations of a debounced function and the timeouts
    that fire: at most one timeout is pending, the one that the closure
    holds the handle of; the calls of [func] are a selection, in order, of
    the invocations, each taken once at most; and right after an
    invocation one timeout is pending, with the arguments of that
    invocation and due [wait] milliseconds after it, so that firing it
    calls [func] with the arguments of the latest invocation. *)
Theorem debounce_keeps_latest_invocation {Args : Type} (wait : Z)
  (events : list (Utils.DebounceEvent Args)) :
  let d := Utils.debounceRun Args wait events in
  (∀ handle, is_Some (Utils.timers Args d !! handle) → Utils.timeout Args d = Some handle)
  ∧ Utils.calls Args d `sublist_of` Utils.invocations Args events
  ∧ ∀ now args,
      let d' := Utils.executedFunction Args wait now args d in
      ∃ handle, Utils.timeout Args d' = Some handle
        ∧ Utils.timers Args d' = {[ handle := (now + wait, args) ]}
        ∧ Utils.calls Args d' = Utils.calls Args d
        ∧ Utils.calls Args (Utils.later Args handle d') = Utils.calls Args d ++ [args].
Proof.
  cbv zeta. destruct (debounce_invariant wait events) as [Hone Hsub].
  split; [done|]. split.
  { etrans; [|exact Hsub]. by apply sublist_inserts_r. }
  intros now args. exists (Utils.nextTimer Args (Utils.debounceRun Args wait events)).
  unfold Utils.executedFunction. rewrite (clearTimeout_only _ Hone). simpl.
  split; [done|]. split; [apply insert_empty|]. split; [done|].
  unfold Utils.later. simpl. by rewrite lookup_insert_eq.
Qed.

Example debounce_burst :
  Utils.calls string
    (Utils.debounceRun string 300
       [Utils.Invoked string 0 "a"; Utils.Invoked string 100 "as";
        Utils.Invoked string 200 "ash"; Utils.Fired string 1; Utils.Fired string 3;
        Utils.Invoked string 900 "ash p"; Utils.Fired string 4])
  = ["ash"; "ash p"].
Proof. reflexivity. Qed.

(** ** Suggestions while typing *)

(** X25: [handleSearchInput] never throws and never warns that suggestions may
    be limited, whatever the network does: [searchItems] has caught every
    failure before, so that the handler of [handleSearchInput] never runs.
    A query of fewer than two characters asks nothing of the API and
    hides the suggestions; the suggestions shown are never empty and never
    more than ten. *)
Theorem suggestions_never_warn (toLowerCase : string → string) isElectron now net query
  (s : Suggestions.State) :
  let run := Suggestions.handleSearchInput toLowerCase isElectron now net query s in
  run.1 = Ret tt
  ∧ Suggestions.searchWarningShown run.2 = Suggestions.searchWarningShown s
  ∧ Suggestions.warningTimeouts run.2 = Suggestions.warningTimeouts s
  ∧ ((String.length query < 2)%nat →
     Suggestions.world run.2 = Suggestions.world s ∧ Suggestions.suggestions run.2 = None)
  ∧ ∀ items, Suggestions.suggestions run.2 = Some items →
      (0 < length items ≤ 10)%nat.
Proof.
  cbv zeta. unfold Suggestions.handleSearchInput.
  destruct (Nat.ltb_spec (String.length query) 2) as [Hshort | Hlong].
  - simpl. repeat split; try done.
  - unfold tryCatch, eff_bind, Suggestions.api. rewrite searchItems_run.
    set (fetch := WarframeMarketAPI.getItems isElectron now net (Suggestions.world s)).
    set (items := match fetch.1 with
                  | Ret response => searchResults toLowerCase query response
                  | Throw _ => []
                  end).
    assert (Hlen : (length items ≤ 10)%nat).
    { subst items. destruct (fetch.1); [|simpl; lia].
      unfold searchResults. case_match; [|simpl; lia].
      rewrite length_take. lia. }
    unfold Suggestions.showSuggestions.
    destruct (Nat.eqb_spec (length items) 0) as [Hz | Hnz]; simpl.
    + split; [done|]. split; [done|]. split; [done|]. split; [lia|done].
    + split; [done|]. split; [done|]. split; [done|]. split; [lia|].
      intros items' Heq. inversion Heq; subst. lia.
Qed.
